(** * Memory graph engine of exrl: a shallow embedding and its properties

    The development follows [src/tools/memory_graph.py] (classes
    [MemoryNode] and [MemoryGraph]) and [src/tools/memory_tools.py]
    (the entry points [write], [search] and [update] acting on the
    module-level graph).

    Modelling conventions
    - Python [str] is [string] (ASCII bytes), Python [int] is [Z].
    - [self.nodes] is a Python dict whose insertion order is observable
      (it fixes the order of the BM25 corpus), so it is an association
      list with the dict's update discipline; [content_hash_to_id_map]
      is only read and written by key, so it is a [gmap]; [edges] and
      the BFS result are Python sets, so they are [gset]s.
    - [uuid.uuid4()] is an effect: the value it yields is passed to
      [add_node] and [write] as an extra argument.
    - Exceptions are explicit: a call yields [Ok v] or [Raised].
    - The BM25 scorer ([rank_bm25]) and the sentence embedding model are
      external; they are section variables of the retrieval part. Their
      float results are rationals, of which only the order is used. *)

From stdpp Require Import base strings list gmap sets fin_sets pretty sorting.
From Stdlib Require Import ZArith QArith Lia.

Set Warnings "-clear-no-such-hyp".

Open Scope string_scope.
Open Scope Z_scope.

(** ** Python dicts with observable insertion order *)

Module PyDict.

Abbreviation t V := (list (string * V)) (only parsing).

(** [d.get(k)] *)
Fixpoint get {V} (d : t V) (k : string) : option V :=
  match d with
  | [] => None
  | (k', v) :: d' => if bool_decide (k' = k) then Some v else get d' k
  end.

(** [k in d] *)
Definition mem {V} (d : t V) (k : string) : bool :=
  match get d k with Some _ => true | None => false end.

(** [d[k] = v]: an existing key keeps its position, a new key goes
    to the end. *)
Fixpoint set {V} (d : t V) (k : string) (v : V) : t V :=
  match d with
  | [] => [(k, v)]
  | (k', v') :: d' =>
      if bool_decide (k' = k) then (k', v) :: d' else (k', v') :: set d' k v
  end.

(** [list(d.keys())] and [list(d.values())] *)
Definition keys {V} (d : t V) : list string := d.*1.
Definition values {V} (d : t V) : list V := d.*2.

End PyDict.

(** ** Python values and their string renderings *)

(** The values a metadata mapping holds. Floats, lists and nested
    mappings are left out. *)
Inductive py_value : Type :=
  | PyStr (s : string)
  | PyInt (n : Z)
  | PyBool (b : bool)
  | PyNone.

(** What callers hand to [write] and [update]:
    [Union[str, Dict[str, Any]]]. *)
Inductive py_metadata : Type :=
  | MetaStr (s : string)
  | MetaDict (d : PyDict.t py_value).

Definition ascii_of_nat (n : nat) : Ascii.ascii := Ascii.ascii_of_nat n.

Definition hex_digit (n : nat) : Ascii.ascii :=
  if (n <? 10)%nat then ascii_of_nat (48 + n) else ascii_of_nat (87 + n).

Definition backslash : Ascii.ascii := ascii_of_nat 92.
Definition quote1 : Ascii.ascii := ascii_of_nat 39.
Definition quote2 : Ascii.ascii := ascii_of_nat 34.

Fixpoint str_contains (c : Ascii.ascii) (s : string) : bool :=
  match s with
  | EmptyString => false
  | String c' s' => if bool_decide (c' = c) then true else str_contains c s'
  end.

(** One character of [repr(s)] for the chosen quote [q]. *)
Definition repr_char (q c : Ascii.ascii) : string :=
  let n := Ascii.nat_of_ascii c in
  if bool_decide (c = backslash) then String backslash (String backslash "")
  else if bool_decide (c = q) then String backslash (String q "")
  else if (n =? 9)%nat then String backslash "t"
  else if (n =? 10)%nat then String backslash "n"
  else if (n =? 13)%nat then String backslash "r"
  else if ((n <? 32) || (n =? 127))%nat
       then String backslash
              (String (ascii_of_nat 120)
                 (String (hex_digit (n / 16)) (String (hex_digit (n mod 16)) "")))
  else String c "".

Fixpoint repr_body (q : Ascii.ascii) (s : string) : string :=
  match s with
  | EmptyString => ""
  | String c s' => repr_char q c +:+ repr_body q s'
  end.

(** [repr(s)] for a [str]: single quotes unless the text has a single
    quote and no double quote. *)
Definition repr_str (s : string) : string :=
  let q := if str_contains quote1 s && negb (str_contains quote2 s)
           then quote2 else quote1 in
  String q (repr_body q s) +:+ String q "".

(** [str(v)] *)
Definition py_str (v : py_value) : string :=
  match v with
  | PyStr s => s
  | PyInt n => pretty n
  | PyBool true => "True"
  | PyBool false => "False"
  | PyNone => "None"
  end.

(** [repr(v)] *)
Definition py_repr (v : py_value) : string :=
  match v with
  | PyStr s => repr_str s
  | _ => py_str v
  end.

(** [sep.join(l)] *)
Fixpoint str_join (sep : string) (l : list string) : string :=
  match l with
  | [] => ""
  | [s] => s
  | s :: l' => s +:+ sep +:+ str_join sep l'
  end.

(** [str(d)] for a dict *)
Definition py_str_dict (d : PyDict.t py_value) : string :=
  "{" +:+ str_join ", " (map (λ kv, repr_str kv.1 +:+ ": " +:+ py_repr kv.2) d) +:+ "}".

(** Truth value of a [str]: only the empty text is false. *)
Definition str_truthy (s : string) : bool :=
  match s with EmptyString => false | String _ _ => true end.

(** ** Nodes *)

Record MemoryNode : Type := mkNode {
  id : string;
  metadata : PyDict.t py_value;
  edges : gset string;
}.

(** [MemoryNode.__init__]; [uuid] is what [uuid.uuid4()] yields. For a
    dict, [metadata or {}] is the dict itself (an empty dict is replaced
    by an empty dict). *)
Definition MemoryNode_init (uuid : string) (m : py_metadata) : MemoryNode :=
  {| id := uuid;
     metadata := match m with
                 | MetaStr s => [("content", PyStr s)]
                 | MetaDict d => d
                 end;
     edges := ∅ |}.

(** [MemoryNode.add_edge] *)
Definition node_add_edge (n : MemoryNode) (target_node_id : string) : MemoryNode :=
  {| id := id n; metadata := metadata n; edges := {[target_node_id]} ∪ edges n |}.

(** [MemoryNode.remove_edge] *)
Definition node_remove_edge (n : MemoryNode) (target_node_id : string) : MemoryNode :=
  if bool_decide (target_node_id ∈ edges n)
  then {| id := id n; metadata := metadata n; edges := edges n ∖ {[target_node_id]} |}
  else n.

Definition str_int_or_float (v : py_value) : bool :=
  match v with
  | PyStr _ | PyInt _ | PyBool _ => true
  | PyNone => false
  end.

(** [MemoryNode.get_text_content]. With a [content] field the field's
    value is returned as it is, whatever its type; [bool] is a subclass
    of [int], so booleans pass the [isinstance] filter. *)
Definition get_text_content (n : MemoryNode) : py_value :=
  match PyDict.get (metadata n) "content" with
  | Some v => v
  | None =>
      PyStr (str_join " " (map py_str (filter (λ v, str_int_or_float v = true)
                                               (PyDict.values (metadata n)))))
  end.

(** ** The graph *)

(** The attributes [bm25_setup] creates. [corpus] and [id_list] are
    assigned before [BM25Okapi] is built, so they can exist without
    [bm25]; the fitted scorer is identified with the corpus it was
    built from. *)
Record BM25Attrs : Type := mkBM25 {
  corpus : list (list string);
  id_list : list string;
  bm25 : option (list (list string));
}.

Record MemoryGraph : Type := mkGraph {
  nodes : PyDict.t MemoryNode;
  content_hash_to_id_map : gmap string string;
  bm25_attrs : option BM25Attrs;
}.

(** [MemoryGraph.__init__] *)
Definition MemoryGraph_init : MemoryGraph :=
  {| nodes := []; content_hash_to_id_map := ∅; bm25_attrs := None |}.

Definition set_nodes (g : MemoryGraph) (ns : PyDict.t MemoryNode) : MemoryGraph :=
  {| nodes := ns; content_hash_to_id_map := content_hash_to_id_map g;
     bm25_attrs := bm25_attrs g |}.

Definition set_hash_map (g : MemoryGraph) (m : gmap string string) : MemoryGraph :=
  {| nodes := nodes g; content_hash_to_id_map := m; bm25_attrs := bm25_attrs g |}.

Definition set_bm25_attrs (g : MemoryGraph) (a : BM25Attrs) : MemoryGraph :=
  {| nodes := nodes g; content_hash_to_id_map := content_hash_to_id_map g;
     bm25_attrs := Some a |}.

(** [MemoryGraph._get_hash] *)
Definition _get_hash (m : py_metadata) : string :=
  match m with
  | MetaStr s => s
  | MetaDict d =>
      match PyDict.get d "content" with
      | Some v => py_str v
      | None => py_str_dict d
      end
  end.

(** [MemoryGraph.add_node] *)
Definition add_node (g : MemoryGraph) (m : py_metadata) (uuid : string)
  : MemoryGraph * string :=
  let content_hash := _get_hash m in
  match content_hash_to_id_map g !! content_hash with
  | Some existing => (g, existing)
  | None =>
      let node := MemoryNode_init uuid m in
      let g1 := set_nodes g (PyDict.set (nodes g) (id node) node) in
      (set_hash_map g1 (<[content_hash := id node]> (content_hash_to_id_map g1)), id node)
  end.

(** [MemoryGraph.add_edge] *)
Definition add_edge (g : MemoryGraph) (source_id target_id : string)
  : MemoryGraph * bool :=
  match PyDict.get (nodes g) source_id with
  | None => (g, false)
  | Some src =>
      if negb (PyDict.mem (nodes g) target_id) then (g, false)
      else (set_nodes g (PyDict.set (nodes g) source_id (node_add_edge src target_id)), true)
  end.

(** [MemoryGraph.get_node] *)
Definition get_node (g : MemoryGraph) (node_id : string) : option MemoryNode :=
  PyDict.get (nodes g) node_id.

(** ** Breadth-first exploration *)

(** The body of [for neighbor_id in current_node.edges]. *)
Definition bfs_visit (depth : Z) (st : gset string * list (string * Z))
    (neighbor_id : string) : gset string * list (string * Z) :=
  if bool_decide (neighbor_id ∈ st.1) then st
  else ({[neighbor_id]} ∪ st.1, (st.2 ++ [(neighbor_id, depth + 1)])%list).

(** The [while queue] loop; each unit of [fuel] pays for one
    [queue.pop(0)]. [None] means the fuel ran out. *)
Fixpoint bfs_loop (fuel : nat) (ns : PyDict.t MemoryNode) (max_depth : Z)
    (discovered : gset string) (queue : list (string * Z)) : option (gset string) :=
  match queue with
  | [] => Some discovered
  | (current_id, depth) :: rest =>
      match fuel with
      | O => None
      | S fuel' =>
          if bool_decide (max_depth ≤ depth) then
            bfs_loop fuel' ns max_depth discovered rest
          else
            match PyDict.get ns current_id with
            | None => bfs_loop fuel' ns max_depth discovered rest
            | Some current_node =>
                let st := foldl (bfs_visit depth) (discovered, rest)
                                (elements (edges current_node)) in
                bfs_loop fuel' ns max_depth st.1 st.2
            end
      end
  end.

(** Every id some node points to. *)
Definition edge_targets (ns : PyDict.t MemoryNode) : gset string :=
  ⋃ (edges <$> PyDict.values ns).

(** Pops the loop can make: one per seed and one per id that can still
    be discovered. *)
Definition bfs_fuel (ns : PyDict.t MemoryNode) (start_nodes : list string) : nat :=
  (length start_nodes + size (edge_targets ns) + 1)%nat.

(** [MemoryGraph.bfs_exploration] *)
Definition bfs_exploration (g : MemoryGraph) (start_nodes : list string)
    (max_depth : Z) : option (gset string) :=
  bfs_loop (bfs_fuel (nodes g) start_nodes) (nodes g) max_depth
           (list_to_set start_nodes) (map (λ node_id, (node_id, 0)) start_nodes).

(** ** The tool entry points of [memory_tools.py] *)

(** The loop [for target_id in connections: if target_id: add_edge]. *)
Definition connect_all (g : MemoryGraph) (node_id : string) (targets : list string)
  : MemoryGraph :=
  foldl (λ g target_id,
           if str_truthy target_id then (add_edge g node_id target_id).1 else g)
        g targets.

(** [write]; [connections = None] is the default argument. *)
Definition write (g : MemoryGraph) (m : py_metadata)
    (connections : option (list string)) (uuid : string) : MemoryGraph * string :=
  let '(g1, node_id) := add_node g m uuid in
  match connections with
  | None => (g1, node_id)
  | Some targets => (connect_all g1 node_id targets, node_id)
  end.

(** The metadata branch of [update], on the node and on the index. *)
Definition update_metadata (node : MemoryNode) (m : py_metadata) : MemoryNode :=
  {| id := id node;
     metadata := match m with
                 | MetaStr s => [("content", PyStr s)]
                 | MetaDict d => d
                 end;
     edges := edges node |}.

Definition rekey (index : gmap string string) (old_hash new_hash node_id : string)
  : gmap string string :=
  let index1 := match index !! old_hash with
                | Some _ => delete old_hash index
                | None => index
                end in
  <[new_hash := node_id]> index1.

(** The loop over [add_connections]. *)
Definition add_connections_loop (ns : PyDict.t MemoryNode) (node : MemoryNode)
    (targets : list string) : MemoryNode :=
  foldl (λ n target_id,
           if str_truthy target_id && PyDict.mem ns target_id
           then node_add_edge n target_id else n)
        node targets.

(** The loop over [remove_connections]. *)
Definition remove_connections_loop (node : MemoryNode) (targets : list string)
  : MemoryNode :=
  foldl node_remove_edge node targets.

(** [update]. The node object is mutated in place, which leaves its
    position in [nodes] as it was. *)
Definition update (g : MemoryGraph) (node_id : string) (m : option py_metadata)
    (add_connections remove_connections : option (list string))
  : MemoryGraph * bool :=
  match get_node g node_id with
  | None => (g, false)
  | Some node =>
      let '(node1, index1) :=
        match m with
        | None => (node, content_hash_to_id_map g)
        | Some m' =>
            let old_hash := _get_hash (MetaDict (metadata node)) in
            let node' := update_metadata node m' in
            let new_hash := _get_hash (MetaDict (metadata node')) in
            (node', rekey (content_hash_to_id_map g) old_hash new_hash node_id)
        end in
      let node2 := match add_connections with
                   | None => node1
                   | Some targets => add_connections_loop (nodes g) node1 targets
                   end in
      let node3 := match remove_connections with
                   | None => node2
                   | Some targets => remove_connections_loop node2 targets
                   end in
      (set_hash_map (set_nodes g (PyDict.set (nodes g) node_id node3)) index1, true)
  end.

(** ** Retrieval *)

(** Outcome of a call that can raise. *)
Inductive py_result (A : Type) : Type :=
  | Ok (a : A)
  | Raised.
Arguments Ok {A} a.
Arguments Raised {A}.

Definition is_upper (c : Ascii.ascii) : bool :=
  let n := Ascii.nat_of_ascii c in ((65 <=? n) && (n <=? 90))%nat.

Definition is_word_char (c : Ascii.ascii) : bool :=
  let n := Ascii.nat_of_ascii c in
  (((48 <=? n) && (n <=? 57)) || ((65 <=? n) && (n <=? 90))
   || ((97 <=? n) && (n <=? 122)) || (n =? 95))%nat.

(** [s.lower()], on ASCII letters. *)
Fixpoint str_lower (s : string) : string :=
  match s with
  | EmptyString => ""
  | String c s' =>
      String (if is_upper c then ascii_of_nat (Ascii.nat_of_ascii c + 32) else c)
             (str_lower s')
  end.

(** [re.compile(r'\w+').findall(s)], on ASCII: the maximal runs of
    letters, digits and underscores; [cur] is the run being read. *)
Fixpoint findall_words (cur : string) (s : string) : list string :=
  match s with
  | EmptyString => if str_truthy cur then [cur] else []
  | String c s' =>
      if is_word_char c then findall_words (cur +:+ String c "") s'
      else if str_truthy cur then cur :: findall_words "" s'
      else findall_words "" s'
  end.

Definition tokenize (s : string) : list string := findall_words "" (str_lower s).

(** [tokenize_pattern.findall(text.lower())] on what [get_text_content]
    returned: a value that is not a [str] has no [lower]. *)
Definition tokenize_value (v : py_value) : py_result (list string) :=
  match v with
  | PyStr s => Ok (tokenize s)
  | _ => Raised
  end.

(** [l[i:]] and [l[:j]] with Python's treatment of negative bounds. *)
Definition slice_from {A} (l : list A) (i : Z) : list A :=
  if bool_decide (0 ≤ i) then drop (Z.to_nat i) l
  else drop (length l - Z.to_nat (- i)) l.

Definition slice_to {A} (l : list A) (j : Z) : list A :=
  if bool_decide (0 ≤ j) then take (Z.to_nat j) l
  else take (length l - Z.to_nat (- j)) l.

(** A stable sort: [x] is put in front of the first [y] with [le x y],
    so elements that compare equal keep their order. *)
Fixpoint stable_insert {A} (le : A → A → bool) (x : A) (l : list A) : list A :=
  match l with
  | [] => [x]
  | y :: l' => if le x y then x :: y :: l' else y :: stable_insert le x l'
  end.

Definition stable_sort {A} (le : A → A → bool) (l : list A) : list A :=
  foldr (stable_insert le) [] l.

(** The scores paired with their corpus positions. *)
Definition indexed (scores : list Q) : list (nat * Q) := imap (λ i s, (i, s)) scores.

(** The order of an ascending sort of (corpus position, score) pairs
    that places equal scores by [tie]: by score, then by [tie] of the
    position. *)
Definition tie_le (tie : nat → nat) (x y : nat * Q) : bool :=
  Qle_bool x.2 y.2 && (negb (Qle_bool y.2 x.2) || (tie x.1 <=? tie y.1)%nat).

(** The indices in ascending order of score, equal scores placed by
    [tie]. *)
Definition argsort_by (tie : nat → nat) (scores : list Q) : list (nat * Q) :=
  stable_sort (tie_le tie) (indexed scores).

(** The external collaborators: the [rank_bm25] scorer, numpy's sort
    and the sentence embedding model. [bm25_fits c] tells whether
    [BM25Okapi(c)] can be built and [bm25_score c q d] is the entry of
    [get_scores(q)] for document [d] of the fitted corpus [c].
    [np.argsort] is called with its default kind, which is not stable
    and promises no order among equal scores: [argsort_ties scores i]
    is the place the sort gives index [i] among the indices of equal
    score, and nothing is assumed of it. [similarity q t] is the cosine
    of the embeddings of [q] and of the text [t]. [encode_other q texts]
    is what the embedding model makes of a batch that holds a text
    content that is not a [str]: the similarities it leads to or an
    exception; nothing is assumed of it either. *)
Class Providers : Type := mkProviders {
  bm25_fits : list (list string) → bool;
  bm25_score : list (list string) → list string → list string → Q;
  argsort_ties : list Q → nat → nat;
  similarity : string → string → Q;
  encode_other : string → list py_value → py_result (list Q);
}.

(** All results of a list of calls, or [Raised] if one of them is. *)
Fixpoint all_ok {A} (l : list (py_result A)) : py_result (list A) :=
  match l with
  | [] => Ok []
  | Raised :: _ => Raised
  | Ok a :: l' => match all_ok l' with Ok r => Ok (a :: r) | Raised => Raised end
  end.

Definition of_option {A} (o : option A) : py_result A :=
  match o with Some a => Ok a | None => Raised end.

Record SearchResult : Type := mkResult {
  res_id : string;
  res_metadata : PyDict.t py_value;
  res_score : Q;
  res_connections : list string;
}.

(** The texts of a batch when every item is a [str]. *)
Fixpoint as_strs (texts : list py_value) : option (list string) :=
  match texts with
  | [] => Some []
  | PyStr s :: texts' =>
      match as_strs texts' with Some strs => Some (s :: strs) | None => None end
  | _ :: _ => None
  end.

Section Retrieval.
Context {providers : Providers}.

(** [np.argsort(scores)]: every index once, in ascending order of
    score; [ranking] keeps the scores beside the indices. *)
Definition ranking (scores : list Q) : list (nat * Q) :=
  argsort_by (argsort_ties scores) scores.

Definition argsort (scores : list Q) : list nat := (ranking scores).*1.

(** [MemoryGraph.bm25_setup] *)
Definition bm25_setup (g : MemoryGraph) : MemoryGraph * py_result unit :=
  match all_ok (map (λ node, tokenize_value (get_text_content node))
                    (PyDict.values (nodes g))) with
  | Raised => (g, Raised)
  | Ok new_corpus =>
      let old_bm25 := match bm25_attrs g with Some a => bm25 a | None => None end in
      let ids := PyDict.keys (nodes g) in
      if bm25_fits new_corpus
      then (set_bm25_attrs g (mkBM25 new_corpus ids (Some new_corpus)), Ok ())
      else (set_bm25_attrs g (mkBM25 new_corpus ids old_bm25), Raised)
  end.

(** Whether [bm25_search] calls [bm25_setup]. *)
Definition bm25_stale (g : MemoryGraph) : bool :=
  match bm25_attrs g with
  | Some a =>
      match bm25 a with
      | Some _ => negb (length (corpus a) =? length (nodes g))%nat
      | None => true
      end
  | None => true
  end.

(** The part of [bm25_search] after the index is known to exist. *)
Definition bm25_rank (a : BM25Attrs) (query : string) (top_k : Z)
  : py_result (list string) :=
  match bm25 a with
  | None => Raised
  | Some fitted =>
      let tokenized_query := tokenize query in
      let scores := map (bm25_score fitted tokenized_query) fitted in
      let top_indices := slice_from (argsort scores) (- top_k) in
      all_ok (map (λ i, of_option (id_list a !! i)) top_indices)
  end.

(** [MemoryGraph.bm25_search] *)
Definition bm25_search (g : MemoryGraph) (query : string) (top_k : Z)
  : MemoryGraph * py_result (list string) :=
  let '(g1, built) := if bm25_stale g then bm25_setup g else (g, Ok ()) in
  match built, bm25_attrs g1 with
  | Ok _, Some a => (g1, bm25_rank a query top_k)
  | _, _ => (g1, Raised)
  end.

Definition sim_ge (x y : string * Q) : bool := Qle_bool y.2 x.2.

(** The cosine similarities of a query to a batch of text contents, as
    [model.encode] and [np.dot] give them. *)
Definition similarities (query : string) (texts : list py_value)
  : py_result (list Q) :=
  match as_strs texts with
  | Some strs => Ok (map (similarity query) strs)
  | None => encode_other query texts
  end.

(** [MemoryGraph.semantic_search]. A candidate that is not a node is a
    [KeyError]; the text contents go to the embedding model as they
    are; [similarities[i]] is an [IndexError] when the model gave fewer
    similarities than there are candidates. [sorted(..., reverse=True)]
    is stable. *)
Definition semantic_search (g : MemoryGraph) (query : string)
    (candidate_ids : list string) (top_k : Z) : py_result (list (string * Q)) :=
  match candidate_ids with
  | [] => Ok []
  | _ =>
      match all_ok (map (λ node_id,
                      match PyDict.get (nodes g) node_id with
                      | None => Raised
                      | Some node => Ok (node_id, get_text_content node)
                      end) candidate_ids) with
      | Raised => Raised
      | Ok candidates =>
          match similarities query candidates.*2 with
          | Raised => Raised
          | Ok sims =>
              match all_ok (imap (λ i c, match sims !! i with
                                         | Some s => Ok (c.1, s)
                                         | None => Raised
                                         end) candidates) with
              | Raised => Raised
              | Ok results => Ok (slice_to (stable_sort sim_ge results) top_k)
              end
          end
      end
  end.

(** Step 4 of [search]: one record per result whose node exists. *)
Definition prepare_results (g : MemoryGraph) (semantic_results : list (string * Q))
  : list SearchResult :=
  omap (λ r, match get_node g r.1 with
             | Some node => Some (mkResult r.1 (metadata node) r.2 (elements (edges node)))
             | None => None
             end) semantic_results.

(** [search]. [bfs_exploration] never runs out of fuel (see
    [bfs_exploration_total]); that branch is there for typing. *)
Definition search (g : MemoryGraph) (query : string) (top_k bfs_depth bm25_candidates : Z)
  : MemoryGraph * py_result (list SearchResult) :=
  match nodes g with
  | [] => (g, Ok [])
  | _ =>
      match bm25_search g query bm25_candidates with
      | (g1, Raised) => (g1, Raised)
      | (g1, Ok initial_candidates) =>
          match bfs_exploration g1 initial_candidates bfs_depth with
          | None => (g1, Raised)
          | Some candidate_set =>
              match semantic_search g1 query (elements candidate_set) top_k with
              | Raised => (g1, Raised)
              | Ok semantic_results => (g1, Ok (prepare_results g1 semantic_results))
              end
          end
      end
  end.

End Retrieval.

(** ** Vocabulary of the statements *)

(** The targets a connection loop really links to: the non-empty ids
    that are nodes of the graph. *)
Definition accepted_targets (ns : PyDict.t MemoryNode) (targets : list string)
  : gset string :=
  list_to_set (filter (λ t, str_truthy t && PyDict.mem ns t) targets).

(** The dedup key of a stored node. *)
Definition node_key (n : MemoryNode) : string := _get_hash (MetaDict (metadata n)).

(** The entries of [nodes] whose node carries the key [k]. *)
Definition holds_key (k : string) (kv : string * MemoryNode) : Prop :=
  node_key kv.2 = k.

#[global] Instance holds_key_dec k kv : Decision (holds_key k kv).
Proof. unfold holds_key. apply _. Defined.

Definition nodes_with_key (g : MemoryGraph) (k : string) : list (string * MemoryNode) :=
  filter (holds_key k) (nodes g).

(** The index and the nodes agree: ids are not repeated, every node is
    the holder of its own key, and every index entry points to a node
    that carries the entry's key. *)
Definition dedup_consistent (g : MemoryGraph) : Prop :=
  NoDup (PyDict.keys (nodes g))
  ∧ (∀ i n, get_node g i = Some n → content_hash_to_id_map g !! node_key n = Some i)
  ∧ (∀ k i, content_hash_to_id_map g !! k = Some i →
            ∃ n, get_node g i = Some n ∧ node_key n = k).

(** [within ns seeds n v]: the id [v] is a seed or is reached from a
    seed along at most [n] edges; only ids that are nodes of the graph
    have outgoing edges. *)
Fixpoint within (ns : PyDict.t MemoryNode) (seeds : list string) (n : nat)
    (v : string) : Prop :=
  match n with
  | O => v ∈ seeds
  | S n' =>
      within ns seeds n' v
      ∨ ∃ u node, within ns seeds n' u ∧ PyDict.get ns u = Some node ∧ v ∈ edges node
  end.

(** The invariant of the [while queue] loop. [done] lists the entries
    popped so far. The queue holds the depth of its head and then that
    depth plus one, popped depths never exceed the head's. *)
Definition queue_shape (done queue : list (string * Z)) : Prop :=
  match queue with
  | [] => True
  | (_, j) :: rest =>
      (∀ p, p ∈ done → p.2 ≤ j)
      ∧ ∃ qa qb, rest = (qa ++ qb)%list
                 ∧ Forall (λ p, p.2 = j) qa ∧ Forall (λ p, p.2 = j + 1) qb
  end.

Record bfs_inv (ns : PyDict.t MemoryNode) (seeds : list string) (max_depth : Z)
    (done queue : list (string * Z)) (disc : gset string) : Prop := mkBfsInv {
  inv_shape : queue_shape done queue;
  inv_disc : ∀ v, v ∈ disc ↔ ∃ j, (v, j) ∈ (done ++ queue)%list;
  inv_seeds : ∀ s, s ∈ seeds → (s, 0) ∈ (done ++ queue)%list;
  inv_closed : ∀ u j node v,
    (u, j) ∈ done → j < max_depth → PyDict.get ns u = Some node → v ∈ edges node →
    ∃ j', j' ≤ j + 1 ∧ (v, j') ∈ (done ++ queue)%list;
  inv_sound : ∀ v j,
    (v, j) ∈ (done ++ queue)%list →
    0 ≤ j ∧ (j ≤ max_depth ∨ j = 0) ∧ within ns seeds (Z.to_nat j) v;
}.

(** Ascending order of score on (corpus position, score) pairs. *)
Definition score_asc (x y : nat * Q) : Prop := (x.2 <= y.2)%Q.

(** The score at a corpus position. *)
Definition score_at (scores : list Q) (i : nat) : Q := default 0%Q (scores !! i).

(** The place of an index in a list of indices. *)
Definition place_in (order : list nat) (i : nat) : nat :=
  default 0%nat (fst <$> list_find (λ j, j = i) order).

(** The [top_k] of the specification's Lexical Index: the [k] best ids,
    best first, equal scores in first-seen order. *)
Definition spec_top_k (scores : list Q) (ids : list string) (k : Z) : list string :=
  take (Z.to_nat k)
       (stable_sort (λ x y : string * Q, Qle_bool y.2 x.2) (zip ids scores)).*1.

(** The corpus [bm25_setup] builds when every text content is a [str]. *)
Definition current_corpus (g : MemoryGraph) : list (list string) :=
  map (λ node, match get_text_content node with
               | PyStr s => tokenize s
               | _ => []
               end) (PyDict.values (nodes g)).

Definition texts_are_str (g : MemoryGraph) : Prop :=
  ∀ i n, (i, n) ∈ nodes g → ∃ s, get_text_content n = PyStr s.

Definition edges_closed (g : MemoryGraph) : Prop :=
  ∀ i n v, (i, n) ∈ nodes g → v ∈ edges n → is_Some (get_node g v).

Section Searchable.
Context {providers : Providers}.

(** The lexical index can serve a query: either [bm25_search] rebuilds
    it, every text is a [str] and [BM25Okapi] accepts the corpus, or
    the cached index names nodes of the graph, one for each document
    it scores. *)
Definition index_ready (g : MemoryGraph) : Prop :=
  if bm25_stale g then texts_are_str g ∧ bm25_fits (current_corpus g) = true
  else match bm25_attrs g with
       | Some a =>
           match bm25 a with
           | Some fitted =>
               (length fitted ≤ length (id_list a))%nat
               ∧ ∀ i, i ∈ id_list a → is_Some (get_node g i)
           | None => False
           end
       | None => False
       end.

Definition searchable (g : MemoryGraph) : Prop :=
  texts_are_str g ∧ edges_closed g ∧ index_ready g.

(** The scores the index of [g] gives to its documents for a query,
    once the index exists. *)
Definition index_scores (g : MemoryGraph) (query : string) : list Q :=
  match bm25_attrs g with
  | Some a =>
      match bm25 a with
      | Some fitted => map (bm25_score fitted (tokenize query)) fitted
      | None => []
      end
  | None => []
  end.

Definition index_ids (g : MemoryGraph) : list string :=
  match bm25_attrs g with Some a => id_list a | None => [] end.

End Searchable.

(** Two notes with the same tokens: "Hello" is seen first. *)
Definition graph_tie : MemoryGraph :=
  (write (write MemoryGraph_init (MetaStr "Hello") None "x").1 (MetaStr "hello") None "y").1.

(** ** Stand-in providers for the worked examples

    A term-count scorer and a token-overlap similarity. [BM25Okapi]
    divides by the corpus size and by the number of distinct terms, so
    it cannot be built on a corpus without any token. The sort leaves
    equal scores in index order, and a batch led by a [str] is encoded
    through [str] of its items. *)

Definition count_token (doc : list string) (t : string) : nat :=
  length (filter (λ x, x = t) doc).

Definition overlap (query doc : list string) : Q :=
  inject_Z (Z.of_nat (sum_list (map (count_token doc) query))).

Definition example_providers : Providers :=
  {| bm25_fits c := bool_decide (0 < length (concat c))%nat;
     bm25_score _ q d := overlap q d;
     argsort_ties _ i := i;
     similarity q t := overlap (tokenize q) (tokenize t);
     encode_other q texts :=
       match texts with
       | PyStr _ :: _ => Ok (map (λ v, overlap (tokenize q) (tokenize (py_str v))) texts)
       | _ => Raised
       end |}.

(** Three notes of which only the first, "A", holds the token of the
    query "a". *)
Definition graph_ABC : MemoryGraph :=
  (write (write (write MemoryGraph_init (MetaStr "A") None "x").1
                (MetaStr "B") None "y").1 (MetaStr "C") None "z").1.

(** The graph after [write("A")] and [write("B")]. *)
Definition graph_AB : MemoryGraph :=
  (write (write MemoryGraph_init (MetaStr "A") None "x").1 (MetaStr "B") None "y").1.

(** After [update(y, "A")] the nodes [x] and [y] both carry the text
    "A" and the index maps the key "A" to [y]. *)
Definition graph_collide : MemoryGraph :=
  (update graph_AB "y" (Some (MetaStr "A")) None None).1.

(** The nodes of the scenario [write("A")], [write("B", [X])] for the
    ids [x] and [y] drawn by the two calls. *)
Definition node_A (x : string) : MemoryNode := mkNode x [("content", PyStr "A")] ∅.
Definition node_B (x y : string) : MemoryNode :=
  mkNode y [("content", PyStr "B")] {[x]}.

(** ** Vocabulary of the further properties *)

(** No index entry dangles: each one points to a node that carries the
    entry's key. *)
Definition index_sound (g : MemoryGraph) : Prop :=
  ∀ k i, content_hash_to_id_map g !! k = Some i →
         ∃ n, get_node g i = Some n ∧ node_key n = k.

(** The metadata a node stores for what the caller handed in. *)
Definition stored_metadata (m : py_metadata) : PyDict.t py_value :=
  metadata (MemoryNode_init "" m).

(** The arguments of a connection list that may be [None]. *)
Definition targets_of (connections : option (list string)) : list string :=
  match connections with Some targets => targets | None => [] end.

Fixpoint str_forall (P : Ascii.ascii → bool) (s : string) : bool :=
  match s with
  | EmptyString => true
  | String c s' => P c && str_forall P s'
  end.

(** What a token is made of: digits, lower-case letters, underscores. *)
Definition is_token_char (c : Ascii.ascii) : bool := is_word_char c && negb (is_upper c).

Definition score_desc (a b : SearchResult) : Prop := (res_score b <= res_score a)%Q.

Definition sim_desc (a b : string * Q) : Prop := (b.2 <= a.2)%Q.

(** The graph [graph_AB] after a first lexical query, which builds the
    index. *)
Definition graph_AB_indexed : MemoryGraph :=
  (bm25_search (providers := example_providers) graph_AB "a" 1).1.

(** ** The read tool and the write tool of [memory_tool_env.py] *)

(** [self.counter[file_path]], the calls made so far for one file. *)
Record Counters : Type := mkCounters {
  c_read : Z;
  c_memory_write : Z;
  c_memory_search : Z;
  c_memory_update : Z;
}.

(** The attributes of [MemoryToolEnv] the tools use. The limits [N],
    [M], [P], [U] and [MB] carry the prefix [env_]; [conversation_id]
    exists in conversation mode only, and [current_episode] stands for
    the attribute being there and true. *)
Record MemoryToolEnv : Type := mkEnv {
  files : PyDict.t string;
  counter : PyDict.t Counters;
  env_N : Z;
  env_M : Z;
  env_P : Z;
  env_U : Z;
  env_MB : Z;
  conversation_mode : bool;
  conversation_id : option string;
  current_episode : bool;
}.

Definition set_counter (env : MemoryToolEnv) (c : PyDict.t Counters) : MemoryToolEnv :=
  {| files := files env; counter := c; env_N := env_N env; env_M := env_M env;
     env_P := env_P env; env_U := env_U env; env_MB := env_MB env;
     conversation_mode := conversation_mode env;
     conversation_id := conversation_id env;
     current_episode := current_episode env |}.

Definition bump_read (c : Counters) : Counters :=
  {| c_read := c_read c + 1; c_memory_write := c_memory_write c;
     c_memory_search := c_memory_search c; c_memory_update := c_memory_update c |}.

Definition bump_memory_write (c : Counters) : Counters :=
  {| c_read := c_read c; c_memory_write := c_memory_write c + 1;
     c_memory_search := c_memory_search c; c_memory_update := c_memory_update c |}.

(** [custom_read] of [_create_read_tool]. The call is counted before
    its arguments are checked. With integer arguments nothing in the
    [try] block raises; a file without counters is a [KeyError]. *)
Definition custom_read (env : MemoryToolEnv) (file_path : string)
    (position max_bytes : Z) : MemoryToolEnv * py_result string :=
  match PyDict.get (files env) file_path with
  | None => (env, Ok "Error: Invalid file_path.")
  | Some content =>
      match PyDict.get (counter env) file_path with
      | None => (env, Raised)
      | Some c =>
          if bool_decide (env_N env ≤ c_read c)
          then (env, Ok "Error: read() calls exceeded.")
          else
            let env1 := set_counter env (PyDict.set (counter env) file_path (bump_read c)) in
            if bool_decide (env_MB env < max_bytes)
            then (env1, Ok ("Error: max_bytes exceeds limit. Should be lower than "
                            +:+ pretty (env_MB env) +:+ "."))
            else if bool_decide (max_bytes < 0)
            then (env1, Ok "Error: max_bytes can't be negative.")
            else if bool_decide (position < 0)
            then (env1, Ok "Error: position can't be negative.")
            else (env1, Ok (String.substring (Z.to_nat position) (Z.to_nat max_bytes)
                                             content))
      end
  end.

(** [MemoryToolEnv._get_current_file] *)
Definition _get_current_file (env : MemoryToolEnv) : py_result (option string) :=
  if conversation_mode env then
    match conversation_id env with
    | Some cid => Ok (Some cid)
    | None => Raised
    end
  else if current_episode env then
    Ok (head (filter (λ file_path, PyDict.mem (counter env) file_path)
                     (PyDict.keys (files env))))
  else Ok None.

(** [custom_memory_write] of [_create_memory_write_tool], acting on the
    module-level graph. [write] raises nothing on the metadata modelled
    here, so the [except] branch is left out. *)
Definition custom_memory_write (env : MemoryToolEnv) (g : MemoryGraph)
    (m : py_metadata) (connections : option (list string)) (uuid : string)
  : MemoryToolEnv * MemoryGraph * py_result string :=
  match _get_current_file env with
  | Raised => (env, g, Raised)
  | Ok current_file =>
      match current_file with
      | None => (env, g, Ok "Error: No active file context.")
      | Some cf =>
          if negb (str_truthy cf) then (env, g, Ok "Error: No active file context.")
          else
            match PyDict.get (counter env) cf with
            | None => (env, g, Raised)
            | Some c =>
                if bool_decide (env_M env ≤ c_memory_write c)
                then (env, g, Ok "Error: memory_write() calls exceeded.")
                else
                  let env1 := set_counter env (PyDict.set (counter env) cf
                                                          (bump_memory_write c)) in
                  let '(g1, node_id) := write g m connections uuid in
                  (env1, g1, Ok ("Success: Node written with ID: " +:+ node_id))
            end
      end
  end.

(** A run of calls of the write tool, each with the arguments of the
    call and the id it would draw; the replies are dropped. *)
Definition memory_write_calls (env : MemoryToolEnv) (g : MemoryGraph)
    (calls : list (py_metadata * option (list string) * string))
  : MemoryToolEnv * MemoryGraph :=
  foldl (λ st call,
           (custom_memory_write st.1 st.2 call.1.1 call.1.2 call.2).1)
        (env, g) calls.

(** The write calls still allowed for the current file. *)
Definition writes_left (env : MemoryToolEnv) : Z :=
  match _get_current_file env with
  | Ok (Some cf) =>
      match PyDict.get (counter env) cf with
      | Some c => Z.max 0 (env_M env - c_memory_write c)
      | None => 0
      end
  | _ => 0
  end.

(** An environment with one file, two reads allowed, eight bytes a read. *)
Definition example_env : MemoryToolEnv :=
  {| files := [("doc", "hello world")];
     counter := [("doc", mkCounters 0 0 0 0)];
     env_N := 2; env_M := 1; env_P := 15; env_U := 10; env_MB := 8;
     conversation_mode := false; conversation_id := None; current_episode := true |}.

(** ** The text memory of [memory_env.py] *)

(** [s[i:]] on a text. *)
Definition str_slice_from (s : string) (i : Z) : string :=
  String.string_of_list_ascii (slice_from (String.list_ascii_of_string s) i).

(** The attributes of the environment of [memory_env.py] that its two
    memory handlers use. *)
Record MemoryEnv : Type := mkMemoryEnv {
  memories : PyDict.t string;
  MM : Z;
}.

(** [handle_memory_write]. [args.get] defaults to the empty text; a
    path that is no key of [memories] is a [KeyError], a memoir that is
    not a [str] a [TypeError]. *)
Definition handle_memory_write (env : MemoryEnv) (args : PyDict.t py_value)
  : MemoryEnv * py_result string :=
  let memoir := default (PyStr "") (PyDict.get args "memoir") in
  let file_path := default (PyStr "") (PyDict.get args "file_path") in
  match file_path, memoir with
  | PyStr fp, PyStr text =>
      match PyDict.get (memories env) fp with
      | None => (env, Raised)
      | Some old =>
          let grown := old +:+ text in
          let kept := if bool_decide (MM env < Z.of_nat (String.length grown))
                      then str_slice_from grown (- MM env)
                      else grown in
          (mkMemoryEnv (PyDict.set (memories env) fp kept) (MM env),
           Ok ("Wrote " +:+ pretty (Z.of_nat (String.length text)) +:+ " chars to memory."))
      end
  | _, _ => (env, Raised)
  end.

(** [handle_memory_read] *)
Definition handle_memory_read (env : MemoryEnv) (args : PyDict.t py_value)
  : py_result string :=
  match default (PyStr "") (PyDict.get args "file_path") with
  | PyStr fp => of_option (PyDict.get (memories env) fp)
  | _ => Raised
  end.

(** ** Properties of the dict model *)

Module PyDictFacts.
Import PyDict.

Lemma get_set_eq {V} (d : t V) k v : get (set d k v) k = Some v.
Proof.
  induction d as [|[k' v'] d IH]; simpl.
  - by rewrite bool_decide_eq_true_2.
  - case_bool_decide as Hk; simpl.
    + by rewrite bool_decide_eq_true_2.
    + by rewrite bool_decide_eq_false_2.
Qed.

Lemma get_set_ne {V} (d : t V) k k' v : k ≠ k' → get (set d k v) k' = get d k'.
Proof.
  intros Hne. induction d as [|[k0 v0] d IH]; simpl.
  - by rewrite bool_decide_eq_false_2.
  - case_bool_decide as Hk; simpl.
    + subst k0. by rewrite !bool_decide_eq_false_2.
    + by rewrite IH.
Qed.

Lemma get_None_keys {V} (d : t V) k : get d k = None ↔ k ∉ keys d.
Proof.
  unfold keys. induction d as [|[k' v'] d IH]; simpl.
  - split; [intros _; apply not_elem_of_nil | done].
  - rewrite not_elem_of_cons. case_bool_decide as Hk.
    + split; [done | intros [? _]; congruence].
    + rewrite IH. split; [intros ?; split; [congruence | done] | by intros [_ ?]].
Qed.

Lemma get_Some_keys {V} (d : t V) k : is_Some (get d k) ↔ k ∈ keys d.
Proof.
  destruct (get d k) as [v|] eqn:E.
  - split; [intros _ | by eauto].
    destruct (decide (k ∈ keys d)) as [Hin|Hnin]; [done |].
    apply get_None_keys in Hnin. congruence.
  - apply get_None_keys in E. split; [by intros [? ?] | done].
Qed.

Lemma mem_true {V} (d : t V) k : mem d k = true ↔ is_Some (get d k).
Proof. unfold mem. destruct (get d k); split; try done; by intros [? ?]. Qed.

Lemma mem_false {V} (d : t V) k : mem d k = false ↔ get d k = None.
Proof. unfold mem. by destruct (get d k). Qed.

Lemma keys_set_present {V} (d : t V) k v : is_Some (get d k) → keys (set d k v) = keys d.
Proof.
  unfold keys. induction d as [|[k' v'] d IH]; simpl.
  - by intros [? ?].
  - case_bool_decide; csimpl; [done | intros Hs; f_equal; by apply IH].
Qed.

Lemma keys_set_absent {V} (d : t V) k v : get d k = None → keys (set d k v) = (keys d ++ [k])%list.
Proof.
  unfold keys. induction d as [|[k' v'] d IH]; simpl; [done |].
  case_bool_decide; csimpl; [done | intros Hs; f_equal; by apply IH].
Qed.

Lemma set_absent {V} (d : t V) k v : get d k = None → set d k v = (d ++ [(k, v)])%list.
Proof.
  induction d as [|[k' v'] d IH]; simpl; [done |].
  case_bool_decide; simpl; [done | intros Hs; f_equal; by apply IH].
Qed.

Lemma get_elem_of {V} (d : t V) k v : get d k = Some v → (k, v) ∈ d.
Proof.
  induction d as [|[k' v'] d IH]; simpl; [done |].
  case_bool_decide as Hk.
  - intros [= ->]. subst. apply list_elem_of_here.
  - intros Hg. apply list_elem_of_further. auto.
Qed.

Lemma elem_of_get {V} (d : t V) k v : NoDup (keys d) → (k, v) ∈ d → get d k = Some v.
Proof.
  unfold keys. induction d as [|[k' v'] d IH]; simpl.
  - intros _ Hin. by apply elem_of_nil in Hin.
  - intros Hnd Hin. apply NoDup_cons in Hnd as [Hk' Hnd].
    apply elem_of_cons in Hin as [[= -> ->]|Hin].
    + by rewrite bool_decide_eq_true_2.
    + rewrite bool_decide_eq_false_2; [by apply IH |].
      intros ->. apply Hk'. apply list_elem_of_fmap. by exists (k, v).
Qed.

Lemma values_elem_of {V} (d : t V) v : v ∈ values d ↔ ∃ k, (k, v) ∈ d.
Proof.
  unfold values. rewrite list_elem_of_fmap. split.
  - intros [[k v'] [-> Hin]]. by exists k.
  - intros [k Hin]. by exists (k, v).
Qed.

End PyDictFacts.

(** ** Graph store: [add_edge] *)

Section GraphStore.
Import PyDict PyDictFacts.

Lemma set_nodes_id g : set_nodes g (nodes g) = g.
Proof. by destruct g. Qed.

Lemma node_eta n : mkNode (id n) (metadata n) (edges n) = n.
Proof. by destruct n. Qed.

Lemma add_edge_absent g a b :
  get_node g a = None ∨ get_node g b = None → add_edge g a b = (g, false).
Proof.
  unfold add_edge, get_node. intros [Ha|Hb].
  - by rewrite Ha.
  - destruct (get (nodes g) a); [|done].
    apply mem_false in Hb. by rewrite Hb.
Qed.

Lemma add_edge_present g a b src :
  get_node g a = Some src → is_Some (get_node g b) →
  add_edge g a b = (set_nodes g (set (nodes g) a (node_add_edge src b)), true).
Proof.
  unfold add_edge, get_node. intros Ha Hb. rewrite Ha.
  apply mem_true in Hb. by rewrite Hb.
Qed.

Lemma get_set_id {V} (d : t V) k v : get d k = Some v → set d k v = d.
Proof.
  induction d as [|[k' v'] d IH]; simpl; [done |].
  case_bool_decide; [by intros [= ->] | intros Hg; f_equal; auto].
Qed.

Lemma set_set {V} (d : t V) k v w : set (set d k v) k w = set d k w.
Proof.
  induction d as [|[k' v'] d IH]; simpl.
  - by rewrite bool_decide_eq_true_2.
  - case_bool_decide as Hk; simpl.
    + by rewrite bool_decide_eq_true_2.
    + rewrite bool_decide_eq_false_2; [by f_equal | done].
Qed.

Lemma mem_set_present {V} (d : t V) k v k' :
  is_Some (get d k) → mem (set d k v) k' = mem d k'.
Proof.
  intros [w Hw]. unfold mem. destruct (decide (k = k')) as [<-|Hne].
  - by rewrite get_set_eq, Hw.
  - by rewrite get_set_ne.
Qed.

End GraphStore.

(** C8. [add_edge(a, b)] returns false and changes nothing when [a] or
    [b] is not a node of the graph; otherwise it returns true, the edge
    set of [a] gains [b], and nothing else changes: the other nodes,
    the order of the nodes, the dedup index and the lexical index
    attributes are as before. *)
Theorem add_edge_existence_guard (g : MemoryGraph) (a b : string) :
  (get_node g a = None ∨ get_node g b = None → add_edge g a b = (g, false))
  ∧ (∀ src, get_node g a = Some src → is_Some (get_node g b) →
       ∃ g' node',
         add_edge g a b = (g', true)
         ∧ get_node g' a = Some node'
         ∧ edges node' = {[b]} ∪ edges src
         ∧ id node' = id src ∧ metadata node' = metadata src
         ∧ (∀ c, c ≠ a → get_node g' c = get_node g c)
         ∧ PyDict.keys (nodes g') = PyDict.keys (nodes g)
         ∧ content_hash_to_id_map g' = content_hash_to_id_map g
         ∧ bm25_attrs g' = bm25_attrs g).
Proof.
  split; [apply add_edge_absent |].
  intros src Ha Hb. eexists _, (node_add_edge src b).
  split; [by apply add_edge_present |].
  unfold get_node in *. simpl.
  split; [apply PyDictFacts.get_set_eq |].
  repeat split.
  - intros c Hc. by apply PyDictFacts.get_set_ne.
  - apply PyDictFacts.keys_set_present. by rewrite Ha.
Qed.

Lemma add_edge_existence_guard_witness :
  add_edge graph_AB "x" "nowhere" = (graph_AB, false)
  ∧ ∃ g' node', add_edge graph_AB "y" "x" = (g', true)
      ∧ get_node g' "y" = Some node' ∧ edges node' = {["x"]} ∪ ∅.
Proof.
  destruct (add_edge_existence_guard graph_AB "x" "nowhere") as [Hno _].
  destruct (add_edge_existence_guard graph_AB "y" "x") as [_ Hyes].
  split.
  - apply Hno. right. reflexivity.
  - destruct (Hyes (MemoryNode_init "y" (MetaStr "B")))
      as (g' & node' & Hadd & Hget & Hedges & _).
    + reflexivity.
    + eexists. reflexivity.
    + exists g', node'. repeat split; assumption.
Defined.

(** ** The write path *)

Section WritePath.
Import PyDict PyDictFacts.

Lemma accepted_targets_nil ns : accepted_targets ns [] = ∅.
Proof. done. Qed.

Lemma accepted_targets_cons ns t targets :
  accepted_targets ns (t :: targets) =
    (if str_truthy t && mem ns t then {[t]} else ∅) ∪ accepted_targets ns targets.
Proof.
  unfold accepted_targets. rewrite filter_cons.
  destruct (str_truthy t && mem ns t) eqn:E.
  - destruct (decide _) as [_|Hn]; [by rewrite list_to_set_cons | by destruct Hn].
  - destruct (decide _) as [Hy|_]; [by destruct Hy | by rewrite (left_id_L ∅ (∪))].
Qed.

Lemma accepted_targets_set ns a v targets :
  is_Some (get ns a) →
  accepted_targets (set ns a v) targets = accepted_targets ns targets.
Proof.
  intros Ha. induction targets as [|t targets IH]; [done |].
  by rewrite !accepted_targets_cons, IH, mem_set_present.
Qed.

(** The connection loop as one update of the source node. *)
Lemma connect_all_present targets : ∀ g a src,
  get_node g a = Some src →
  connect_all g a targets =
    set_nodes g (set (nodes g) a
      (mkNode (id src) (metadata src) (accepted_targets (nodes g) targets ∪ edges src))).
Proof.
  induction targets as [|t targets IH]; intros g a src Ha.
  - rewrite accepted_targets_nil, (left_id_L ∅ (∪)), node_eta.
    unfold connect_all. simpl. unfold get_node in Ha.
    by rewrite (get_set_id _ _ _ Ha), set_nodes_id.
  - unfold connect_all. simpl. fold (connect_all
      (if str_truthy t then (add_edge g a t).1 else g) a targets).
    rewrite accepted_targets_cons.
    destruct (str_truthy t) eqn:Ht; simpl.
    + destruct (mem (nodes g) t) eqn:Hm.
      * rewrite (add_edge_present g a t src Ha) by (by apply mem_true).
        simpl. erewrite IH by (unfold get_node; simpl; apply get_set_eq).
        simpl. rewrite set_set, accepted_targets_set by (unfold get_node in Ha; by rewrite Ha).
        do 3 f_equal. set_solver.
      * rewrite (add_edge_absent g a t) by (right; by apply mem_false).
        simpl. rewrite (IH g a src Ha). do 3 f_equal. set_solver.
    + rewrite (IH g a src Ha). do 3 f_equal. set_solver.
Qed.

Lemma connect_all_absent targets : ∀ g a,
  get_node g a = None → connect_all g a targets = g.
Proof.
  induction targets as [|t targets IH]; intros g a Ha; [done |].
  unfold connect_all. simpl. fold (connect_all
    (if str_truthy t then (add_edge g a t).1 else g) a targets).
  rewrite (add_edge_absent g a t) by by left.
  destruct (str_truthy t); by apply IH.
Qed.

Lemma connect_all_hash_map targets g a :
  content_hash_to_id_map (connect_all g a targets) = content_hash_to_id_map g.
Proof.
  destruct (get_node g a) as [src|] eqn:Ha.
  - by rewrite (connect_all_present targets g a src Ha).
  - by rewrite connect_all_absent.
Qed.

Lemma connect_all_keys targets g a :
  keys (nodes (connect_all g a targets)) = keys (nodes g).
Proof.
  destruct (get_node g a) as [src|] eqn:Ha.
  - rewrite (connect_all_present targets g a src Ha). simpl.
    apply keys_set_present. unfold get_node in Ha. by rewrite Ha.
  - by rewrite connect_all_absent.
Qed.

Lemma write_eq g m connections uuid :
  write g m connections uuid =
    (match connections with
     | None => (add_node g m uuid).1
     | Some targets => connect_all (add_node g m uuid).1 (add_node g m uuid).2 targets
     end, (add_node g m uuid).2).
Proof. unfold write. by destruct (add_node g m uuid), connections. Qed.

Lemma add_node_existing g m uuid existing :
  content_hash_to_id_map g !! _get_hash m = Some existing →
  add_node g m uuid = (g, existing).
Proof. unfold add_node. by intros ->. Qed.

Lemma add_node_fresh g m uuid :
  content_hash_to_id_map g !! _get_hash m = None →
  add_node g m uuid =
    (mkGraph (set (nodes g) uuid (MemoryNode_init uuid m))
             (<[_get_hash m := uuid]> (content_hash_to_id_map g)) (bm25_attrs g), uuid).
Proof. unfold add_node. by intros ->. Qed.

(** The key of a node as stored is the key of the metadata written. *)
Lemma node_key_init uuid m : node_key (MemoryNode_init uuid m) = _get_hash m.
Proof. by destruct m. Qed.

Lemma node_key_update_metadata n m : node_key (update_metadata n m) = _get_hash m.
Proof. by destruct m. Qed.

End WritePath.

(** C2, a duplicate write with connections. On the graph holding "A"
    (id [x]) and "B" (id [y]), a second [write("B", connections=[x])]
    finds the key "B" in the index, returns [y], and the edge set of
    [y] goes from empty to [{x}]. *)
Lemma duplicate_write_adds_edge :
  content_hash_to_id_map graph_AB !! _get_hash (MetaStr "B") = Some "y"
  ∧ edges <$> get_node graph_AB "y" = Some ∅
  ∧ (write graph_AB (MetaStr "B") (Some ["x"]) "z").2 = "y"
  ∧ edges <$> get_node (write graph_AB (MetaStr "B") (Some ["x"]) "z").1 "y"
    = Some {["x"]}.
Proof. vm_compute. repeat split. Qed.

(** C2 as the code has it. When the key of [metadata] already maps to
    an existing node, [write] creates no node and returns the mapped
    id, and the connections are applied to that node all the same: its
    edge set gains every non-empty connection id that is a node of the
    graph. Its metadata, the other nodes and the dedup index are left
    as they were, and without connections the graph is unchanged. *)
Theorem duplicate_write_applies_connections
    (g : MemoryGraph) (m : py_metadata) (targets : list string)
    (uuid existing : string) (node : MemoryNode) :
  content_hash_to_id_map g !! _get_hash m = Some existing →
  get_node g existing = Some node →
  write g m None uuid = (g, existing)
  ∧ ∃ g' node',
      write g m (Some targets) uuid = (g', existing)
      ∧ PyDict.keys (nodes g') = PyDict.keys (nodes g)
      ∧ content_hash_to_id_map g' = content_hash_to_id_map g
      ∧ get_node g' existing = Some node'
      ∧ metadata node' = metadata node
      ∧ edges node' = accepted_targets (nodes g) targets ∪ edges node
      ∧ (∀ c, c ≠ existing → get_node g' c = get_node g c).
Proof.
  intros Hkey Hnode. rewrite !write_eq, (add_node_existing _ _ _ _ Hkey). simpl.
  split; [done |].
  exists (connect_all g existing targets),
         (mkNode (id node) (metadata node)
                 (accepted_targets (nodes g) targets ∪ edges node)).
  split; [done |].
  rewrite (connect_all_present targets g existing node Hnode).
  unfold get_node in *. simpl. repeat split.
  - apply PyDictFacts.keys_set_present. by rewrite Hnode.
  - apply PyDictFacts.get_set_eq.
  - intros c Hc. by apply PyDictFacts.get_set_ne.
Qed.

Lemma duplicate_write_applies_connections_witness :
  ∃ g' node',
    write graph_AB (MetaStr "B") (Some ["x"; ""; "nowhere"]) "z" = (g', "y")
    ∧ get_node g' "y" = Some node'
    ∧ edges node' = accepted_targets (nodes graph_AB) ["x"; ""; "nowhere"] ∪ ∅.
Proof.
  destruct (duplicate_write_applies_connections graph_AB (MetaStr "B")
              ["x"; ""; "nowhere"] "z" "y" (MemoryNode_init "y" (MetaStr "B")))
    as (_ & g' & node' & Hw & _ & _ & Hget & _ & Hedges & _).
  - reflexivity.
  - reflexivity.
  - exists g', node'. repeat split; assumption.
Defined.

(** ** Update: re-keying the dedup index *)

Lemma rekey_eq (index : gmap string string) old_hash new_hash node_id :
  rekey index old_hash new_hash node_id = <[new_hash := node_id]> (delete old_hash index).
Proof.
  unfold rekey. destruct (index !! old_hash) eqn:E; [done |].
  by rewrite delete_id.
Qed.

Lemma update_found g node_id node m adds rems :
  get_node g node_id = Some node →
  content_hash_to_id_map (update g node_id (Some m) adds rems).1
    = rekey (content_hash_to_id_map g) (node_key node) (_get_hash m) node_id
  ∧ (update g node_id (Some m) adds rems).2 = true.
Proof.
  intros Hn. unfold update. rewrite Hn. cbn [fst snd set_hash_map content_hash_to_id_map].
  fold (node_key node) (node_key (update_metadata node m)).
  by rewrite node_key_update_metadata.
Qed.

(** C5, an old key held by another node. In [graph_collide] the node
    [x] carries the text "A" while the index entry for the key "A"
    belongs to the node [y]. [update(x, "C")] removes that entry
    although it does not map to [x]. *)
Lemma update_removes_foreign_key :
  node_key <$> get_node graph_collide "x" = Some "A"
  ∧ content_hash_to_id_map graph_collide !! "A" = Some "y"
  ∧ (update graph_collide "x" (Some (MetaStr "C")) None None).2 = true
  ∧ content_hash_to_id_map
      (update graph_collide "x" (Some (MetaStr "C")) None None).1 !! "A" = None.
Proof. vm_compute. repeat split. Qed.

(** C5 as the code has it. When [update(node_id, metadata)] replaces
    the metadata of an existing node, the old dedup key of the node is
    removed from the index whenever it is present, whichever node it
    maps to; the key of the new metadata is then mapped to [node_id],
    overwriting any previous holder; every other key is left alone. *)
Theorem update_rekeys_index
    (g : MemoryGraph) (node_id : string) (node : MemoryNode) (m : py_metadata)
    (adds rems : option (list string)) :
  get_node g node_id = Some node →
  let g' := (update g node_id (Some m) adds rems).1 in
  let old_key := node_key node in
  let new_key := _get_hash m in
  content_hash_to_id_map g' !! new_key = Some node_id
  ∧ (old_key ≠ new_key → content_hash_to_id_map g' !! old_key = None)
  ∧ (∀ k, k ≠ old_key → k ≠ new_key →
          content_hash_to_id_map g' !! k = content_hash_to_id_map g !! k).
Proof.
  intros Hn g' old_key new_key. subst g'.
  destruct (update_found g node_id node m adds rems Hn) as [-> _].
  rewrite rekey_eq. fold old_key new_key. repeat split.
  - apply lookup_insert_eq.
  - intros Hne. rewrite lookup_insert_ne by done. apply lookup_delete_eq.
  - intros k Hold Hnew. rewrite lookup_insert_ne by done. by apply lookup_delete_ne.
Qed.

Lemma update_rekeys_index_witness :
  content_hash_to_id_map
    (update graph_collide "x" (Some (MetaStr "C")) None None).1 !! "C" = Some "x"
  ∧ content_hash_to_id_map
      (update graph_collide "x" (Some (MetaStr "C")) None None).1 !! "A" = None.
Proof.
  destruct (update_rekeys_index graph_collide "x"
              (MemoryNode_init "x" (MetaStr "A")) (MetaStr "C") None None)
    as (Hnew & Hold & _).
  - reflexivity.
  - split; [exact Hnew |]. apply Hold. discriminate.
Defined.

(** ** Idempotent write *)

Section Idempotence.
Import PyDict PyDictFacts.

Lemma dedup_consistent_init : dedup_consistent MemoryGraph_init.
Proof.
  split; [apply NoDup_nil_2 |]. split.
  - intros i n Hn. discriminate.
  - intros k i Hk. simpl in Hk. by rewrite lookup_empty in Hk.
Qed.

(** Replacing a stored node by one with the same key keeps the count
    of holders of every key. *)
Lemma length_holders_set (d : t MemoryNode) a src v k :
  get d a = Some src → node_key v = node_key src →
  length (filter (holds_key k) (set d a v)) = length (filter (holds_key k) d).
Proof.
  intros Hget Hkey. induction d as [|[k0 v0] d IH]; [done |].
  cbn [get set] in *. case_bool_decide as Hk.
  - injection Hget as ->. rewrite !filter_cons.
    destruct (decide (holds_key k (k0, v))) as [Hv|Hv],
             (decide (holds_key k (k0, src))) as [Hs|Hs];
      unfold holds_key in *; simpl in *; congruence.
  - rewrite !filter_cons.
    destruct (decide (holds_key k (k0, v0))); simpl; by rewrite IH.
Qed.

Lemma length_holders_connect_all targets g a k :
  length (nodes_with_key (connect_all g a targets) k) = length (nodes_with_key g k).
Proof.
  unfold nodes_with_key. destruct (get_node g a) as [src|] eqn:Ha.
  - rewrite (connect_all_present targets g a src Ha). simpl.
    by apply (length_holders_set _ _ src).
  - by rewrite connect_all_absent.
Qed.

(** Among entries with distinct ids, the holders of a property that
    only the id [i] can have form a single entry. *)
Lemma filter_single {V} (P : string * V → Prop) `{!∀ x, Decision (P x)}
    (d : t V) i n :
  NoDup (keys d) → (i, n) ∈ d → P (i, n) →
  (∀ kv, kv ∈ d → P kv → kv.1 = i) →
  filter P d = [(i, n)].
Proof.
  unfold keys. induction d as [|[k0 v0] d IH]; intros Hnd Hin HP Hall.
  - by apply elem_of_nil in Hin.
  - apply NoDup_cons in Hnd as [Hk0 Hnd]. simpl in Hk0.
    assert (Hrest : ∀ kv, kv ∈ d → P kv → kv.1 = i).
    { intros kv Hkv. apply Hall. by apply list_elem_of_further. }
    apply elem_of_cons in Hin as [[= <- <-]|Hin].
    + rewrite filter_cons_True by done. f_equal.
      destruct (filter P d) as [|kv l] eqn:E; [done |].
      assert (Hkv : kv ∈ filter P d) by (rewrite E; apply list_elem_of_here).
      apply list_elem_of_filter in Hkv as [HPkv Hkv].
      destruct Hk0. apply list_elem_of_fmap. exists kv.
      split; [symmetry; by apply Hrest | done].
    + rewrite filter_cons_False; [by apply IH |].
      intros HP0. destruct Hk0.
      rewrite (Hall (k0, v0) (list_elem_of_here _ _) HP0 : k0 = i).
      apply list_elem_of_fmap. by exists (i, n).
Qed.

Lemma add_node_single_holder g m uuid :
  dedup_consistent g → get_node g uuid = None →
  length (nodes_with_key (add_node g m uuid).1 (_get_hash m)) = 1%nat.
Proof.
  intros (Hnd & Hown & Hidx) Hfresh. unfold nodes_with_key.
  destruct (content_hash_to_id_map g !! _get_hash m) as [i|] eqn:Hkey.
  - rewrite (add_node_existing _ _ _ _ Hkey). simpl.
    destruct (Hidx _ _ Hkey) as (n & Hn & Hnk).
    rewrite (filter_single _ (nodes g) i n); [done | done | | done |].
    + by apply get_elem_of.
    + intros [i' n'] Hin Hk'. unfold holds_key in Hk'. simpl in *.
      apply (elem_of_get _ _ _ Hnd) in Hin. apply Hown in Hin.
      rewrite Hk' in Hin. congruence.
  - rewrite (add_node_fresh _ _ _ Hkey). simpl.
    rewrite (set_absent _ _ _ Hfresh), filter_app, length_app.
    rewrite filter_cons_True by apply node_key_init. simpl.
    destruct (filter _ (nodes g)) as [|[i' n'] l] eqn:E; [done |].
    assert (Hin : (i', n') ∈ filter (holds_key (_get_hash m)) (nodes g))
      by (rewrite E; apply list_elem_of_here).
    apply list_elem_of_filter in Hin as [Hk' Hin]. unfold holds_key in Hk'.
    simpl in Hk'. apply (elem_of_get _ _ _ Hnd) in Hin. apply Hown in Hin. congruence.
Qed.

Lemma add_node_consistent g m uuid :
  dedup_consistent g → get_node g uuid = None →
  dedup_consistent (add_node g m uuid).1.
Proof.
  intros (Hnd & Hown & Hidx) Hfresh.
  destruct (content_hash_to_id_map g !! _get_hash m) as [i|] eqn:Hkey.
  - by rewrite (add_node_existing _ _ _ _ Hkey).
  - rewrite (add_node_fresh _ _ _ Hkey). unfold dedup_consistent, get_node in *.
    simpl. split; [|split].
    + rewrite (keys_set_absent _ _ _ Hfresh). apply NoDup_app.
      split; [done |]. split; [|apply NoDup_singleton].
      intros k Hk ->%list_elem_of_singleton. by apply get_None_keys in Hfresh.
    + intros i n. destruct (decide (uuid = i)) as [<-|Hne].
      * rewrite get_set_eq. intros [= <-].
        rewrite node_key_init. apply lookup_insert_eq.
      * rewrite get_set_ne by done. intros Hn.
        rewrite lookup_insert_ne; [by apply Hown |].
        intros Heq. apply Hown in Hn. congruence.
    + intros k i. destruct (decide (_get_hash m = k)) as [<-|Hne].
      * rewrite lookup_insert_eq. intros [= <-].
        exists (MemoryNode_init uuid m).
        split; [apply get_set_eq | apply node_key_init].
      * rewrite lookup_insert_ne by done. intros Hk.
        destruct (Hidx _ _ Hk) as (n & Hn & Hnk). exists n.
        split; [|done]. rewrite get_set_ne; [done | congruence].
Qed.

Lemma connect_all_consistent targets g a :
  dedup_consistent g → dedup_consistent (connect_all g a targets).
Proof.
  intros (Hnd & Hown & Hidx).
  destruct (get_node g a) as [src|] eqn:Ha; [|by rewrite connect_all_absent].
  rewrite (connect_all_present targets g a src Ha).
  unfold dedup_consistent, get_node in *. simpl. split; [|split].
  - rewrite keys_set_present; [done | by rewrite Ha].
  - intros i n. destruct (decide (a = i)) as [<-|Hne].
    + rewrite get_set_eq. intros [= <-]. by apply Hown in Ha.
    + rewrite get_set_ne by done. apply Hown.
  - intros k i Hk. destruct (Hidx _ _ Hk) as (n & Hn & Hnk).
    destruct (decide (a = i)) as [<-|Hne].
    + rewrite get_set_eq. eexists. split; [done |].
      rewrite Ha in Hn. by injection Hn as <-.
    + exists n. by rewrite get_set_ne.
Qed.

(** Writes with unused ids keep the index and the nodes in agreement,
    so every graph built by writes alone is [dedup_consistent]. *)
Lemma write_consistent g m connections uuid :
  dedup_consistent g → get_node g uuid = None →
  dedup_consistent (write g m connections uuid).1.
Proof.
  intros Hc Hfresh. rewrite write_eq. simpl.
  pose proof (add_node_consistent g m uuid Hc Hfresh).
  destruct connections; [by apply connect_all_consistent | done].
Qed.

Lemma write_maps_key g m connections uuid :
  content_hash_to_id_map (write g m connections uuid).1 !! _get_hash m
  = Some (write g m connections uuid).2.
Proof.
  rewrite write_eq. simpl.
  assert (Hadd : content_hash_to_id_map (add_node g m uuid).1 !! _get_hash m
                 = Some (add_node g m uuid).2).
  { destruct (content_hash_to_id_map g !! _get_hash m) as [i|] eqn:Hkey.
    - by rewrite (add_node_existing _ _ _ _ Hkey).
    - rewrite (add_node_fresh _ _ _ Hkey). simpl. apply lookup_insert_eq. }
  destruct connections; [by rewrite connect_all_hash_map | done].
Qed.

End Idempotence.

(** C1, a graph with two holders of one key. In [graph_collide], reached
    by [write("A")], [write("B")] and [update(y, "A")], the nodes [x]
    and [y] both carry the key "A". [write("A")] twice returns [y] both
    times and creates nothing, yet two nodes with that key exist
    afterward. *)
Lemma write_twice_two_holders :
  (write graph_collide (MetaStr "A") None "u").2 = "y"
  ∧ (write (write graph_collide (MetaStr "A") None "u").1 (MetaStr "A") None "v").2 = "y"
  ∧ PyDict.keys
      (nodes_with_key
         (write (write graph_collide (MetaStr "A") None "u").1 (MetaStr "A") None "v").1
         (_get_hash (MetaStr "A")))
    = ["x"; "y"].
Proof. vm_compute. repeat split. Qed.

(** C1 as the code has it. For every graph and metadata [m], two
    writes of [m] return the same id, and the second creates no node
    (without connections it leaves the graph as it is). Exactly one
    node with the key of [m] exists afterward when, before the two
    calls, the dedup index agreed with the nodes ([dedup_consistent],
    which holds of the empty graph and is kept by writes) and the id
    drawn for the first call was unused. *)
Theorem write_twice_idempotent
    (g : MemoryGraph) (m : py_metadata) (c1 c2 : option (list string))
    (u1 u2 : string) :
  let r1 := write g m c1 u1 in
  let r2 := write r1.1 m c2 u2 in
  r2.2 = r1.2
  ∧ PyDict.keys (nodes r2.1) = PyDict.keys (nodes r1.1)
  ∧ (c2 = None → r2.1 = r1.1)
  ∧ (dedup_consistent g → get_node g u1 = None →
     length (nodes_with_key r2.1 (_get_hash m)) = 1%nat).
Proof.
  intros r1 r2.
  pose proof (write_maps_key g m c1 u1) as Hkey. fold r1 in Hkey.
  assert (Hadd : add_node r1.1 m u2 = (r1.1, r1.2))
    by (by apply add_node_existing).
  assert (Hr2 : r2 = (match c2 with
                      | None => r1.1
                      | Some targets => connect_all r1.1 r1.2 targets
                      end, r1.2)).
  { subst r2. by rewrite write_eq, Hadd. }
  rewrite Hr2. simpl. repeat split.
  - destruct c2; [apply connect_all_keys | done].
  - by intros ->.
  - intros Hc Hfresh.
    assert (Hone : length (nodes_with_key r1.1 (_get_hash m)) = 1%nat).
    { subst r1. rewrite write_eq. simpl.
      pose proof (add_node_single_holder g m u1 Hc Hfresh).
      destruct c1; [by rewrite length_holders_connect_all | done]. }
    destruct c2; [by rewrite length_holders_connect_all | done].
Qed.

Lemma write_twice_idempotent_witness :
  (write (write MemoryGraph_init (MetaStr "A") None "x").1 (MetaStr "A") None "y").2
  = (write MemoryGraph_init (MetaStr "A") None "x").2
  ∧ length (nodes_with_key
              (write (write MemoryGraph_init (MetaStr "A") None "x").1
                     (MetaStr "A") None "y").1
              (_get_hash (MetaStr "A"))) = 1%nat.
Proof.
  destruct (write_twice_idempotent MemoryGraph_init (MetaStr "A") None None "x" "y")
    as (Hid & _ & _ & Hone).
  split; [exact Hid |]. apply Hone.
  - apply dedup_consistent_init.
  - reflexivity.
Defined.

(** ** Breadth-first exploration *)

Lemma within_S_mono ns seeds n v : within ns seeds n v → within ns seeds (S n) v.
Proof. intros Hw. by left. Qed.

Lemma within_mono ns seeds n m v :
  (n ≤ m)%nat → within ns seeds n v → within ns seeds m v.
Proof. induction 1; [done |]. intros Hw. apply within_S_mono. auto. Qed.

(** The loop over the neighbours adds them all to [discovered] and
    appends the ones that were not discovered yet, once each. *)
Lemma bfs_visit_in depth disc queue x :
  x ∈ disc → bfs_visit depth (disc, queue) x = (disc, queue).
Proof. intros Hx. unfold bfs_visit. cbn [fst snd]. by rewrite bool_decide_eq_true_2. Qed.

Lemma bfs_visit_new depth disc queue x :
  x ∉ disc →
  bfs_visit depth (disc, queue) x = ({[x]} ∪ disc, (queue ++ [(x, depth + 1)])%list).
Proof. intros Hx. unfold bfs_visit. cbn [fst snd]. by rewrite bool_decide_eq_false_2. Qed.

Lemma bfs_visit_fold depth (l : list string) : ∀ disc queue,
  ∃ new,
    foldl (bfs_visit depth) (disc, queue) l
    = (disc ∪ list_to_set l, (queue ++ map (λ v, (v, depth + 1)) new)%list)
    ∧ NoDup new
    ∧ ∀ v, v ∈ new ↔ v ∈ l ∧ v ∉ disc.
Proof.
  induction l as [|x l IH]; intros disc queue.
  - exists []. cbn [foldl map list_to_set]. rewrite app_nil_r, (right_id_L ∅ (∪)).
    split; [done |]. split; [apply NoDup_nil_2 |].
    intros v. rewrite elem_of_nil. tauto.
  - cbn [foldl]. rewrite list_to_set_cons. destruct (decide (x ∈ disc)) as [Hx|Hx].
    + rewrite bfs_visit_in by done.
      destruct (IH disc queue) as (new & -> & Hnd & Hnew). exists new.
      split; [f_equal; set_solver |]. split; [done |].
      intros v. rewrite Hnew, elem_of_cons. split; [tauto |].
      intros [[->|Hv] Hd]; tauto.
    + rewrite bfs_visit_new by done.
      destruct (IH ({[x]} ∪ disc) (queue ++ [(x, depth + 1)])%list)
        as (new & -> & Hnd & Hnew).
      exists (x :: new). split; [|split].
      * rewrite <-app_assoc. cbn [map app]. f_equal. set_solver.
      * apply NoDup_cons. split; [|done]. rewrite Hnew. set_solver.
      * intros v. rewrite !elem_of_cons, Hnew, elem_of_union, elem_of_singleton.
        destruct (decide (v = x)) as [->|Hne]; tauto.
Qed.

Section BfsTermination.
Import PyDict PyDictFacts.
Variable ns : PyDict.t MemoryNode.
Variable max_depth : Z.

Lemma edges_in_targets u node v :
  get ns u = Some node → v ∈ edges node → v ∈ edge_targets ns.
Proof.
  intros Hu Hv. unfold edge_targets. apply elem_of_union_list.
  exists (edges node). split; [|done].
  apply list_elem_of_fmap. exists node. split; [done |].
  apply values_elem_of. exists u. by apply get_elem_of.
Qed.

(** Each pop lowers the length of the queue plus the number of ids
    still to discover, so that much fuel is enough. *)
Lemma bfs_loop_fuel : ∀ fuel disc queue,
  (length queue + size (edge_targets ns ∖ disc) < fuel)%nat →
  is_Some (bfs_loop fuel ns max_depth disc queue).
Proof.
  induction fuel as [|fuel IH]; intros disc queue Hlt; [lia |].
  destruct queue as [|[u j] rest]; [by eexists |].
  cbn [bfs_loop length] in *. case_bool_decide; [apply IH; lia |].
  destruct (get ns u) as [node|] eqn:Hu; [|apply IH; lia].
  destruct (bfs_visit_fold j (elements (edges node)) disc rest)
    as (new & -> & Hnd & Hnew). cbn [fst snd].
  apply IH. rewrite length_app, length_map.
  assert (Hsplit : edge_targets ns ∖ disc
            = (edge_targets ns ∖ (disc ∪ list_to_set (elements (edges node))))
              ∪ list_to_set new).
  { apply set_eq. intros v. rewrite elem_of_union, !elem_of_difference,
      elem_of_union, !elem_of_list_to_set, Hnew, elem_of_elements.
    split.
    - intros [Hv Hd]. destruct (decide (v ∈ edges node)); [right | left]; tauto.
    - intros [[Hv Hd]|[Hv Hd]]; [tauto |].
      split; [by eapply edges_in_targets | done]. }
  assert (Hsize : size (edge_targets ns ∖ disc)
            = (size (edge_targets ns ∖ (disc ∪ list_to_set (elements (edges node))))
               + length new)%nat).
  { rewrite Hsplit at 1. rewrite size_union.
    - by rewrite size_list_to_set.
    - intros v. rewrite elem_of_difference, elem_of_union, !elem_of_list_to_set,
        Hnew, elem_of_elements. tauto. }
  lia.
Qed.

End BfsTermination.

(** [bfs_exploration] always returns: the fuel it is given is enough. *)
Lemma bfs_exploration_total g start_nodes max_depth :
  is_Some (bfs_exploration g start_nodes max_depth).
Proof.
  unfold bfs_exploration, bfs_fuel. apply bfs_loop_fuel.
  rewrite length_map.
  pose proof (subseteq_size (edge_targets (nodes g) ∖ list_to_set start_nodes)
                            (edge_targets (nodes g))) as Hsub.
  assert (edge_targets (nodes g) ∖ list_to_set start_nodes ⊆ edge_targets (nodes g))
    by set_solver.
  specialize (Hsub ltac:(done)). lia.
Qed.

Section BfsCorrect.
Import PyDict PyDictFacts.
Variable ns : PyDict.t MemoryNode.
Variable seeds : list string.
Variable max_depth : Z.

Lemma queue_shape_pop done u j rest news :
  queue_shape done ((u, j) :: rest) →
  Forall (λ p : string * Z, p.2 = j + 1) news →
  queue_shape ((u, j) :: done) (rest ++ news).
Proof.
  intros [Hdone (qa & qb & -> & Ha & Hb)] Hn.
  assert (Hdone' : ∀ j2, j ≤ j2 → ∀ p, p ∈ (u, j) :: done → p.2 ≤ j2).
  { intros j2 Hj2 p [->|Hp]%elem_of_cons; [done |]. specialize (Hdone p Hp). lia. }
  destruct qa as [|[u2 j2] qa].
  - destruct qb as [|[u2 j2] qb].
    + destruct news as [|[v jv] news]; [done |].
      apply Forall_cons in Hn as [Hjv Hn]. simpl in Hjv. subst jv.
      split; [apply Hdone'; lia |].
      exists news, []. by rewrite app_nil_r.
    + apply Forall_cons in Hb as [Hj2 Hb]. simpl in Hj2. subst j2.
      split; [apply Hdone'; lia |].
      exists (qb ++ news)%list, []. rewrite app_nil_r.
      split; [done |]. split; [by apply Forall_app | done].
  - apply Forall_cons in Ha as [Hj2 Ha]. simpl in Hj2. subst j2.
    split; [apply Hdone'; lia |].
    exists qa, (qb ++ news)%list. rewrite <-app_assoc.
    split; [done |]. split; [done | by apply Forall_app].
Qed.

Lemma queue_shape_bound done u j rest p :
  queue_shape done ((u, j) :: rest) → p ∈ (done ++ (u, j) :: rest)%list → p.2 ≤ j + 1.
Proof.
  intros [Hdone (qa & qb & -> & Ha & Hb)].
  rewrite elem_of_app, elem_of_cons, elem_of_app.
  rewrite Forall_forall in Ha. rewrite Forall_forall in Hb.
  intros [Hp|[->|[Hp|Hp]]].
  - specialize (Hdone p Hp). lia.
  - simpl. lia.
  - rewrite (Ha p Hp). lia.
  - rewrite (Hb p Hp). lia.
Qed.

Lemma elem_of_popped (p : string * Z) done u j rest news :
  p ∈ (((u, j) :: done) ++ (rest ++ news))%list
  ↔ p ∈ (done ++ (u, j) :: rest)%list ∨ p ∈ news.
Proof. rewrite !elem_of_app, !elem_of_cons, ?elem_of_app. tauto. Qed.

(** One iteration: the head is popped and the ids [new], found among
    its neighbours when it is expanded, are appended. *)
Lemma bfs_inv_pop done u j rest disc disc' new :
  bfs_inv ns seeds max_depth done ((u, j) :: rest) disc →
  (∀ v, v ∈ disc' ↔ v ∈ disc ∨ v ∈ new) →
  (∀ v, v ∈ new → j < max_depth ∧ ∃ node, get ns u = Some node ∧ v ∈ edges node) →
  (j < max_depth → ∀ node v, get ns u = Some node → v ∈ edges node →
                   v ∈ disc ∨ v ∈ new) →
  bfs_inv ns seeds max_depth ((u, j) :: done)
          (rest ++ map (λ v, (v, j + 1)) new) disc'.
Proof.
  intros [Hshape Hdisc Hseeds Hclosed Hsound] Hdisc' Hnew Hexp.
  assert (Hnews : ∀ p, p ∈ map (λ v : string, (v, j + 1)) new
                       ↔ ∃ v, p = (v, j + 1) ∧ v ∈ new).
  { intros p. apply list_elem_of_fmap. }
  split.
  - apply queue_shape_pop; [done |]. apply Forall_forall.
    intros p (v & -> & _)%Hnews. done.
  - intros v. rewrite Hdisc', Hdisc. split.
    + intros [[j' Hj']|Hv].
      * exists j'. apply elem_of_popped. by left.
      * exists (j + 1). apply elem_of_popped. right. apply Hnews. by exists v.
    + intros [j' [Hj'|Hj']%elem_of_popped].
      * left. by exists j'.
      * right. apply Hnews in Hj' as (v' & [= -> ->] & Hv'). done.
  - intros s0 Hs. apply elem_of_popped. left. by apply Hseeds.
  - intros u' j' node v [[= -> ->]|Hu']%elem_of_cons Hj' Hnode Hv.
    + destruct (Hexp Hj' node v Hnode Hv) as [Hd|Hn].
      * apply Hdisc in Hd as [j2 Hj2]. exists j2.
        split; [by apply (queue_shape_bound _ _ _ _ (v, j2)) in Hshape |].
        apply elem_of_popped. by left.
      * exists (j + 1). split; [lia |]. apply elem_of_popped. right.
        apply Hnews. by exists v.
    + assert (Hu'' : (u', j') ∈ (done ++ (u, j) :: rest)%list)
        by (apply elem_of_app; by left).
      pose proof (queue_shape_bound _ _ _ _ _ Hshape Hu'') as Hb. simpl in Hb.
      destruct (decide (v ∈ disc)) as [Hd|Hd].
      * destruct (Hclosed u' j' node v Hu' Hj' Hnode Hv) as (j2 & Hle & Hj2).
        exists j2. split; [done |]. apply elem_of_popped.
        apply elem_of_app in Hj2 as [Hj2|Hj2]; left; apply elem_of_app; auto.
      * destruct (Hclosed u' j' node v Hu' Hj' Hnode Hv) as (j2 & Hle & Hj2).
        destruct Hd. apply Hdisc. exists j2.
        apply elem_of_app in Hj2 as [Hj2|Hj2]; apply elem_of_app; auto.
  - intros v j' [Hj'|Hj']%elem_of_popped; [by apply Hsound |].
    apply Hnews in Hj' as (v' & [= -> ->] & Hv').
    destruct (Hnew _ Hv') as (Hlt & node & Hnode & Hedge).
    destruct (Hsound u j) as (H0 & _ & Hw).
    { apply elem_of_app. right. apply list_elem_of_here. }
    split; [lia |]. split; [left; lia |].
    rewrite Z2Nat.inj_add by lia. rewrite Nat.add_comm. simpl.
    right. by exists u, node.
Qed.

Lemma bfs_inv_init :
  bfs_inv ns seeds max_depth [] (map (λ s, (s, 0)) seeds) (list_to_set seeds).
Proof.
  assert (Hmem : ∀ p, p ∈ map (λ s : string, (s, 0)) seeds
                      ↔ ∃ s, p = (s, 0) ∧ s ∈ seeds).
  { intros p. apply list_elem_of_fmap. }
  split.
  - destruct seeds as [|s0 rest]; [done |]. simpl. split.
    + by intros p Hp%elem_of_nil.
    + exists (map (λ s, (s, 0)) rest), []. rewrite app_nil_r.
      split; [done |]. split; [|done].
      apply Forall_forall. by intros p (s' & -> & _)%list_elem_of_fmap.
  - intros v. rewrite elem_of_list_to_set. simpl. split.
    + intros Hv. exists 0. apply Hmem. by exists v.
    + intros [j (s' & [= -> ->] & Hs)%Hmem]. done.
  - intros s0 Hs. simpl. apply Hmem. by exists s0.
  - by intros u j node v Hu%elem_of_nil.
  - intros v j (s' & [= -> ->] & Hs)%Hmem. simpl.
    split; [lia |]. split; [by right | done].
Qed.

(** When the queue is empty the discovered set is what lies within
    [max_depth] edges of the seeds. *)
Lemma bfs_inv_final done disc v :
  bfs_inv ns seeds max_depth done [] disc →
  v ∈ disc ↔ within ns seeds (Z.to_nat max_depth) v.
Proof.
  intros [_ Hdisc Hseeds Hclosed Hsound].
  setoid_rewrite app_nil_r in Hdisc. setoid_rewrite app_nil_r in Hseeds.
  setoid_rewrite app_nil_r in Hclosed. setoid_rewrite app_nil_r in Hsound.
  split.
  - intros [j Hj]%Hdisc. destruct (Hsound v j Hj) as (H0 & Hle & Hw).
    apply (within_mono _ _ (Z.to_nat j)); [lia | done].
  - assert (Hall : ∀ n w, (n ≤ Z.to_nat max_depth)%nat → within ns seeds n w →
                          ∃ j, j ≤ Z.of_nat n ∧ (w, j) ∈ done).
    { induction n as [|n IH]; intros w Hn Hw.
      - exists 0. split; [done |]. by apply Hseeds.
      - destruct Hw as [Hw|(u & node & Hu & Hnode & Hedge)].
        + destruct (IH w ltac:(lia) Hw) as (j & Hj & Hin). exists j. split; [lia | done].
        + destruct (IH u ltac:(lia) Hu) as (j & Hj & Hin).
          destruct (Hclosed u j node w Hin ltac:(lia) Hnode Hedge) as (j' & Hj' & Hin').
          exists j'. split; [lia | done]. }
    intros Hw. destruct (Hall _ v (le_n _) Hw) as (j & _ & Hin).
    apply Hdisc. by exists j.
Qed.

Lemma bfs_loop_inv : ∀ fuel done queue disc r,
  bfs_inv ns seeds max_depth done queue disc →
  bfs_loop fuel ns max_depth disc queue = Some r →
  ∀ v, v ∈ r ↔ within ns seeds (Z.to_nat max_depth) v.
Proof.
  induction fuel as [|fuel IH]; intros done queue disc r Hinv Hrun v.
  - destruct queue as [|[u j] rest]; [|done].
    injection Hrun as <-. by apply (bfs_inv_final done).
  - destruct queue as [|[u j] rest].
    { injection Hrun as <-. by apply (bfs_inv_final done). }
    cbn [bfs_loop] in Hrun. case_bool_decide as Hdepth.
    { apply (IH ((u, j) :: done) rest disc r); [|done].
      rewrite <-(app_nil_r rest).
      apply (bfs_inv_pop done u j rest disc disc []); [done | | |].
      - intros w. rewrite elem_of_nil. tauto.
      - by intros w Hw%elem_of_nil.
      - lia. }
    destruct (get ns u) as [node|] eqn:Hu.
    + destruct (bfs_visit_fold j (elements (edges node)) disc rest)
        as (new & Hfold & Hnd & Hnew).
      rewrite Hfold in Hrun. cbn [fst snd] in Hrun.
      eapply (IH ((u, j) :: done)); cycle 1; [exact Hrun |].
      apply (bfs_inv_pop done u j rest disc _ new); [done | | |].
      * intros w. rewrite elem_of_union, elem_of_list_to_set, Hnew.
        destruct (decide (w ∈ disc)); tauto.
      * intros w [Hw _]%Hnew. split; [lia |]. exists node.
        split; [done | by apply elem_of_elements].
      * intros _ node' w Hn' Hw. rewrite Hu in Hn'. injection Hn' as <-.
        destruct (decide (w ∈ disc)); [by left | right].
        apply Hnew. split; [by apply elem_of_elements | done].
    + apply (IH ((u, j) :: done) rest disc r); [|done].
      rewrite <-(app_nil_r rest).
      apply (bfs_inv_pop done u j rest disc disc []); [done | | |].
      * intros w. rewrite elem_of_nil. tauto.
      * by intros w Hw%elem_of_nil.
      * intros _ node w Hn'. by rewrite Hu in Hn'.
Qed.

End BfsCorrect.

(** What [bfs_exploration] returns: the ids within [max_depth] edges of
    the seeds. *)
Lemma bfs_exploration_spec g start_nodes max_depth :
  ∃ r, bfs_exploration g start_nodes max_depth = Some r
       ∧ ∀ v, v ∈ r ↔ within (nodes g) start_nodes (Z.to_nat max_depth) v.
Proof.
  destruct (bfs_exploration_total g start_nodes max_depth) as [r Hr].
  exists r. split; [done |].
  eapply bfs_loop_inv; [apply bfs_inv_init | exact Hr].
Qed.

(** C3. For every graph, seed list and depth [d] (in particular every
    [d >= 0]), the ids returned by [bfs(seeds, d)] are among those
    returned by [bfs(seeds, d+1)], and [bfs(seeds, 0)] is exactly the
    set of the seed ids. Both calls return. *)
Theorem bfs_depth_bound (g : MemoryGraph) (seeds : list string) (d : Z) :
  bfs_exploration g seeds 0 = Some (list_to_set seeds)
  ∧ ∃ r r', bfs_exploration g seeds d = Some r
            ∧ bfs_exploration g seeds (d + 1) = Some r'
            ∧ r ⊆ r'.
Proof.
  split.
  - destruct (bfs_exploration_spec g seeds 0) as (r0 & -> & Hr0). f_equal.
    apply set_eq. intros v. rewrite Hr0, elem_of_list_to_set. done.
  - destruct (bfs_exploration_spec g seeds d) as (r & Hr & Hspec).
    destruct (bfs_exploration_spec g seeds (d + 1)) as (r' & Hr' & Hspec').
    exists r, r'. split; [done |]. split; [done |].
    intros v. rewrite Hspec, Hspec'. apply within_mono. lia.
Qed.

Section SeedRetention.
Import PyDict PyDictFacts.

(** Seeds that are not nodes have no outgoing edge to follow. *)
Lemma within_existing_seeds ns seeds n v :
  within ns seeds n v
  ↔ v ∈ seeds ∨ within ns (filter (λ s, mem ns s) seeds) n v.
Proof.
  revert v. induction n as [|n IH]; intros v; cbn [within].
  - rewrite list_elem_of_filter. tauto.
  - rewrite (IH v). split.
    + intros [[Hs|Hw]|(u & node & Hu & Hnode & Hv)]; [tauto | tauto |].
      right. right. exists u, node. split; [|done].
      apply IH in Hu as [Hs|Hw]; [|done].
      apply (within_mono _ _ 0); [lia |]. cbn [within].
      apply list_elem_of_filter. split; [|done].
      unfold mem. by rewrite Hnode.
    + intros [Hs|[Hw|(u & node & Hu & Hnode & Hv)]]; [tauto | tauto |].
      right. exists u, node. split; [|done]. apply IH. by right.
Qed.

End SeedRetention.

(** C10. For every seed list and every [max_depth], [bfs_exploration]
    returns a set that contains every seed id, whether or not it is a
    node of the graph; the seeds that are not nodes add nothing else:
    the result is the seed ids together with what the exploration
    returns from the seeds that are nodes. *)
Theorem bfs_seed_retention (g : MemoryGraph) (seeds : list string) (max_depth : Z) :
  ∃ r r', bfs_exploration g seeds max_depth = Some r
          ∧ list_to_set seeds ⊆ r
          ∧ bfs_exploration g (filter (λ s, PyDict.mem (nodes g) s) seeds) max_depth
            = Some r'
          ∧ r = list_to_set seeds ∪ r'.
Proof.
  destruct (bfs_exploration_spec g seeds max_depth) as (r & Hr & Hspec).
  destruct (bfs_exploration_spec g (filter (λ s, PyDict.mem (nodes g) s) seeds)
              max_depth) as (r' & Hr' & Hspec').
  exists r, r'. split; [done |]. split; [|split; [done |]].
  - intros v Hv%elem_of_list_to_set. apply Hspec.
    apply (within_mono _ _ 0); [lia | done].
  - apply set_eq. intros v.
    rewrite elem_of_union, elem_of_list_to_set, Hspec, Hspec'.
    apply within_existing_seeds.
Qed.

(** ** The write-then-explore scenario *)

Lemma str_truthy_true s : s ≠ "" → str_truthy s = true.
Proof. by destruct s. Qed.

Section ConnectionDirection.
Import PyDict PyDictFacts.
Variables x y : string.
Hypothesis Hxy : x ≠ y.
Hypothesis Hx : x ≠ "".

Lemma scenario_first :
  write MemoryGraph_init (MetaStr "A") None x
  = (mkGraph [(x, node_A x)] {["A" := x]} None, x).
Proof. reflexivity. Qed.

Lemma scenario_second :
  write (mkGraph [(x, node_A x)] {["A" := x]} None) (MetaStr "B") (Some [x]) y
  = (mkGraph [(x, node_A x); (y, node_B x y)] (<["B" := y]> {["A" := x]}) None, y).
Proof.
  rewrite write_eq, add_node_fresh by done.
  cbn [fst snd nodes set content_hash_to_id_map bm25_attrs _get_hash].
  rewrite bool_decide_eq_false_2 by done. f_equal.
  erewrite connect_all_present; cycle 1.
  { unfold get_node. cbn [nodes get].
    rewrite bool_decide_eq_false_2 by done. by rewrite bool_decide_eq_true_2. }
  unfold set_nodes. cbn [nodes set content_hash_to_id_map bm25_attrs].
  rewrite bool_decide_eq_false_2 by done. rewrite bool_decide_eq_true_2 by done.
  f_equal. do 2 f_equal. unfold node_B, MemoryNode_init. cbn [id metadata edges].
  f_equal. rewrite accepted_targets_cons, accepted_targets_nil.
  rewrite (str_truthy_true x Hx). unfold mem. cbn [get].
  rewrite bool_decide_eq_true_2 by done. cbn [andb].
  by rewrite !(right_id_L ∅ (∪)).
Qed.

End ConnectionDirection.

(** C9. From the empty graph, [write("A")] returns the id [X] it drew
    and [write("B", connections=[X])] returns the id [Y] it drew; the
    edge created goes from [Y] to [X] and not back, so [bfs([X], 1)]
    does not include [Y] while [bfs([Y], 1)] includes [X]. The ids are
    any two distinct ids, [X] not the empty text (uuids never are). *)
Theorem write_connection_direction (x y : string) :
  x ≠ y → x ≠ "" →
  ∃ g1 g2,
    write MemoryGraph_init (MetaStr "A") None x = (g1, x)
    ∧ write g1 (MetaStr "B") (Some [x]) y = (g2, y)
    ∧ edges <$> get_node g2 y = Some {[x]}
    ∧ edges <$> get_node g2 x = Some ∅
    ∧ ∃ rx ry,
        bfs_exploration g2 [x] 1 = Some rx
        ∧ bfs_exploration g2 [y] 1 = Some ry
        ∧ (y ∉ rx) ∧ (x ∈ ry)
        ∧ rx = {[x]} ∧ ry = {[y; x]}.
Proof.
  intros Hxy Hx. eexists _, _.
  split; [apply scenario_first |]. split; [by apply scenario_second |].
  assert (Hgx : PyDict.get [(x, node_A x); (y, node_B x y)] x = Some (node_A x)).
  { cbn [PyDict.get]. by rewrite bool_decide_eq_true_2. }
  assert (Hgy : PyDict.get [(x, node_A x); (y, node_B x y)] y = Some (node_B x y)).
  { cbn [PyDict.get]. rewrite bool_decide_eq_false_2 by done.
    by rewrite bool_decide_eq_true_2. }
  unfold get_node. cbn [nodes]. rewrite Hgx, Hgy.
  split; [done |]. split; [done |].
  set (g2 := mkGraph _ _ _).
  destruct (bfs_exploration_spec g2 [x] 1) as (rx & Hrx & Hsx).
  destruct (bfs_exploration_spec g2 [y] 1) as (ry & Hry & Hsy).
  change (Z.to_nat 1) with 1%nat in Hsx, Hsy. cbn [within nodes g2] in Hsx, Hsy.
  assert (Ex : rx = {[x]}).
  { apply set_eq. intros v. rewrite Hsx, elem_of_singleton, list_elem_of_singleton.
    split; [|tauto]. intros [Hv|(u & node & ->%list_elem_of_singleton & Hn & Hv)]; [done |].
    rewrite Hgx in Hn. injection Hn as <-. cbn [edges node_A] in Hv.
    by apply not_elem_of_empty in Hv. }
  assert (Ey : ry = {[y; x]}).
  { apply set_eq. intros v.
    rewrite Hsy, elem_of_union, !elem_of_singleton, list_elem_of_singleton.
    split.
    - intros [Hv|(u & node & ->%list_elem_of_singleton & Hn & Hv)]; [tauto |].
      rewrite Hgy in Hn. injection Hn as <-. cbn [edges node_B] in Hv.
      apply elem_of_singleton in Hv. tauto.
    - intros [->| ->]; [tauto |]. right. exists y, (node_B x y).
      split; [by apply list_elem_of_singleton |]. split; [done |].
      cbn [edges node_B]. by apply elem_of_singleton. }
  exists rx, ry. split; [done |]. split; [done |]. subst rx ry.
  split; [|split; [|done]].
  - rewrite elem_of_singleton. congruence.
  - rewrite elem_of_union, !elem_of_singleton. tauto.
Qed.

Lemma write_connection_direction_witness :
  ∃ g1 g2,
    write MemoryGraph_init (MetaStr "A") None "X" = (g1, "X")
    ∧ write g1 (MetaStr "B") (Some ["X"]) "Y" = (g2, "Y")
    ∧ ∃ rx ry, bfs_exploration g2 ["X"] 1 = Some rx
               ∧ bfs_exploration g2 ["Y"] 1 = Some ry
               ∧ ("Y" ∉ rx) ∧ ("X" ∈ ry).
Proof.
  destruct (write_connection_direction "X" "Y")
    as (g1 & g2 & H1 & H2 & _ & _ & rx & ry & Hrx & Hry & Hn & Hi & _).
  - discriminate.
  - discriminate.
  - exists g1, g2. split; [exact H1 |]. split; [exact H2 |].
    exists rx, ry. repeat split; assumption.
Defined.

(** ** Sorting and slicing *)

Section Sorting.
Context {A : Type} (le : A → A → bool).

Lemma stable_insert_perm x l : stable_insert le x l ≡ₚ x :: l.
Proof.
  induction l as [|y l IH]; [done |]. cbn [stable_insert].
  destruct (le x y); [done |]. rewrite IH. apply Permutation_swap.
Qed.

Lemma stable_sort_perm l : stable_sort le l ≡ₚ l.
Proof.
  induction l as [|x l IH]; [done |]. cbn [stable_sort foldr].
  fold (stable_sort le l). by rewrite stable_insert_perm, IH.
Qed.

Lemma stable_sort_length l : length (stable_sort le l) = length l.
Proof. by rewrite stable_sort_perm. Qed.

End Sorting.

Lemma slice_to_length {A} (l : list A) (k : Z) :
  0 ≤ k → (length (slice_to l k) ≤ Z.to_nat k)%nat.
Proof.
  intros Hk. unfold slice_to. rewrite bool_decide_eq_true_2 by done.
  rewrite length_take. lia.
Qed.

Lemma slice_from_positive {A} (l : list A) (k : Z) :
  0 < k → slice_from l (- k) = drop (length l - Z.to_nat k) l.
Proof.
  intros Hk. unfold slice_from. rewrite bool_decide_eq_false_2 by lia.
  by rewrite Z.opp_involutive.
Qed.

Lemma slice_from_nonpositive {A} (l : list A) (c : Z) :
  c ≤ 0 → slice_from l (- c) = drop (Z.to_nat (- c)) l.
Proof. intros Hc. unfold slice_from. by rewrite bool_decide_eq_true_2 by lia. Qed.

Lemma stable_insert_sorted_by {A} (le : A → A → bool) (R : relation A) x l :
  (∀ a b, le a b = true → R a b) → (∀ a b, le a b = false → R b a) →
  Transitive R →
  StronglySorted R l → StronglySorted R (stable_insert le x l).
Proof.
  intros Ht Hf Htrans. induction l as [|y l IH]; intros Hs; cbn [stable_insert].
  - apply SSorted_cons; [apply SSorted_nil | done].
  - apply StronglySorted_inv in Hs as [Hs Hy]. destruct (le x y) eqn:E.
    + apply SSorted_cons; [by apply SSorted_cons |].
      apply Forall_cons. split; [by apply Ht |].
      eapply Forall_impl; [exact Hy |]. intros z Hz. by trans y; [apply Ht |].
    + apply SSorted_cons; [by apply IH |].
      rewrite stable_insert_perm. apply Forall_cons. split; [by apply Hf | done].
Qed.

Lemma stable_sort_sorted_by {A} (le : A → A → bool) (R : relation A) l :
  (∀ a b, le a b = true → R a b) → (∀ a b, le a b = false → R b a) →
  Transitive R → StronglySorted R (stable_sort le l).
Proof.
  intros Ht Hf Htrans. induction l as [|x l IH]; [apply SSorted_nil |].
  cbn [stable_sort foldr]. fold (stable_sort le l).
  by apply stable_insert_sorted_by.
Qed.

Lemma StronglySorted_of_lookup {A} (R : relation A) (l : list A) :
  (∀ a b x y, (a < b)%nat → l !! a = Some x → l !! b = Some y → R x y) →
  StronglySorted R l.
Proof.
  induction l as [|x l IH]; intros Hl; [apply SSorted_nil |].
  apply SSorted_cons.
  - apply IH. intros a b y z Hab Ha Hb. apply (Hl (S a) (S b)); [lia | done | done].
  - apply Forall_forall. intros y [b Hb]%list_elem_of_lookup.
    apply (Hl 0%nat (S b)); [lia | done | done].
Qed.

Lemma StronglySorted_lookup {A} (R : relation A) (l : list A) a b x y :
  StronglySorted R l → (a < b)%nat → l !! a = Some x → l !! b = Some y → R x y.
Proof.
  intros Hs. revert a b. induction Hs as [|z l Hs IH Hz]; intros a b Hab Ha Hb; [done |].
  destruct b as [|b]; [lia |]. cbn in Hb. destruct a as [|a].
  - injection Ha as ->. rewrite Forall_forall in Hz. apply Hz.
    by eapply list_elem_of_lookup_2.
  - cbn in Ha. apply (IH a b); [lia | done | done].
Qed.

(** The ranking lists every corpus position once, in ascending order of
    score; the order among equal scores is the sort's own. *)
Section Ranking.

Lemma tie_le_true tie (x y : nat * Q) : tie_le tie x y = true → score_asc x y.
Proof.
  unfold tie_le, score_asc. intros [Hle _]%andb_true_iff. by apply Qle_bool_iff.
Qed.

Lemma tie_le_total tie (x y : nat * Q) : tie_le tie x y = false → tie_le tie y x = true.
Proof.
  unfold tie_le. destruct (Qle_bool x.2 y.2) eqn:Exy, (Qle_bool y.2 x.2) eqn:Eyx;
    cbn [negb orb andb]; try done.
  - intros Hlt%Nat.leb_gt. apply Nat.leb_le. lia.
  - intros _. assert (Hlt : (y.2 < x.2)%Q).
    { apply Qnot_le_lt. intros Hle. apply Qle_bool_iff in Hle. congruence. }
    apply Qlt_le_weak, Qle_bool_iff in Hlt. congruence.
Qed.

Lemma tie_le_false tie (x y : nat * Q) : tie_le tie x y = false → score_asc y x.
Proof. intros H. by eapply tie_le_true, tie_le_total. Qed.

Lemma tie_le_trans tie : Transitive (λ x y : nat * Q, tie_le tie x y = true).
Proof.
  intros x y z. unfold tie_le.
  intros [Hxy Txy]%andb_true_iff [Hyz Tyz]%andb_true_iff.
  apply Qle_bool_iff in Hxy, Hyz. apply andb_true_iff. split.
  - apply Qle_bool_iff. by eapply Qle_trans.
  - destruct (Qle_bool z.2 x.2) eqn:Ezx; cbn [negb orb]; [|done].
    apply Qle_bool_iff in Ezx.
    assert (Hyx : Qle_bool y.2 x.2 = true)
      by (apply Qle_bool_iff; by eapply Qle_trans).
    assert (Hzy : Qle_bool z.2 y.2 = true)
      by (apply Qle_bool_iff; by eapply Qle_trans).
    rewrite Hyx in Txy. rewrite Hzy in Tyz. cbn [negb orb] in Txy, Tyz.
    apply Nat.leb_le in Txy, Tyz. apply Nat.leb_le. lia.
Qed.

Lemma score_asc_trans : Transitive score_asc.
Proof. intros x y z Hxy Hyz. unfold score_asc in *. by eapply Qle_trans. Qed.

Lemma indexed_fst scores : (indexed scores).*1 = seq 0 (length scores).
Proof.
  unfold indexed. change (λ i s, (i, s)) with (λ (i : nat) (s : Q), ((0 + i)%nat, s)).
  generalize 0%nat. induction scores as [|s scores IH]; intros start; [done |].
  cbn [imap fmap list_fmap length seq]. rewrite Nat.add_0_r. f_equal.
  rewrite <-(IH (S start)). f_equal. apply imap_ext. intros i s0 _. simpl.
  f_equal. lia.
Qed.

Lemma indexed_lookup scores i :
  indexed scores !! i = (λ s, (i, s)) <$> scores !! i.
Proof. unfold indexed. by rewrite list_lookup_imap. Qed.

Lemma indexed_seq scores :
  indexed scores = (λ i, (i, score_at scores i)) <$> seq 0 (length scores).
Proof.
  apply list_eq. intros i. rewrite indexed_lookup, list_lookup_fmap.
  destruct (decide (i < length scores)%nat) as [Hlt|Hge].
  - rewrite lookup_seq_lt by done. unfold score_at. cbn [fmap option_fmap option_map].
    change (0 + i)%nat with i.
    destruct (lookup_lt_is_Some_2 scores i Hlt) as [x ->]. done.
  - rewrite lookup_seq_ge by lia. by rewrite lookup_ge_None_2 by lia.
Qed.

Lemma argsort_by_perm tie scores : argsort_by tie scores ≡ₚ indexed scores.
Proof. apply stable_sort_perm. Qed.

Lemma argsort_by_sorted tie scores : StronglySorted score_asc (argsort_by tie scores).
Proof.
  apply stable_sort_sorted_by;
    [apply tie_le_true | apply tie_le_false | apply score_asc_trans].
Qed.

Lemma place_in_lookup (order : list nat) a i :
  NoDup order → order !! a = Some i → place_in order i = a.
Proof.
  intros Hnd Ha. unfold place_in.
  destruct (list_find (λ j, j = i) order) as [[k x]|] eqn:E.
  - apply list_find_Some in E as (Hk & -> & _). cbn.
    by apply (NoDup_lookup order k a i).
  - apply list_find_None in E. rewrite Forall_forall in E.
    destruct (E i); [by eapply list_elem_of_lookup_2 | done].
Qed.

(** The model of the sort leaves the order among equal scores open:
    every list of all the indices that is in ascending order of score
    is what the sort gives when it places equal scores as that list
    does. *)
Lemma argsort_by_any_order (scores : list Q) (order : list nat) :
  order ≡ₚ seq 0 (length scores) →
  StronglySorted (λ i j, (score_at scores i <= score_at scores j)%Q) order →
  (argsort_by (place_in order) scores).*1 = order.
Proof.
  intros Hperm Hsorted.
  assert (Hnd : NoDup order) by (rewrite Hperm; apply NoDup_seq).
  set (f := λ i : nat, (i, score_at scores i)).
  assert (Heq : argsort_by (place_in order) scores = f <$> order).
  { apply (StronglySorted_unique_strong (λ x y, tie_le (place_in order) x y = true)).
    - intros x1 x2 H1 H2 H12 H21.
      rewrite argsort_by_perm, indexed_seq in H1.
      apply list_elem_of_fmap in H1 as (i & -> & Hi). rewrite <-Hperm in Hi.
      apply list_elem_of_fmap in H2 as (j & -> & Hj).
      fold (f i) (f j) in *. unfold tie_le in H12, H21. cbn [f fst snd] in H12, H21.
      apply andb_true_iff in H12 as [Hij Tij]. apply andb_true_iff in H21 as [Hji Tji].
      rewrite Hji in Tij. rewrite Hij in Tji. cbn [negb orb] in Tij, Tji.
      apply Nat.leb_le in Tij, Tji.
      apply list_elem_of_lookup in Hi as [a Ha]. apply list_elem_of_lookup in Hj as [b Hb].
      rewrite (place_in_lookup order a i Hnd Ha) in Tij, Tji.
      rewrite (place_in_lookup order b j Hnd Hb) in Tij, Tji.
      assert (a = b) as -> by lia. rewrite Ha in Hb. by injection Hb as ->.
    - apply stable_sort_sorted_by; [done | apply tie_le_total | apply tie_le_trans].
    - apply StronglySorted_of_lookup. intros a b x y Hab Ha Hb.
      rewrite list_lookup_fmap in Ha, Hb.
      destruct (order !! a) as [i|] eqn:Ei; [|done].
      destruct (order !! b) as [j|] eqn:Ej; [|done].
      injection Ha as <-. injection Hb as <-.
      pose proof (StronglySorted_lookup _ order a b i j Hsorted Hab Ei Ej) as Hs.
      unfold tie_le. cbn [f fst snd]. apply Qle_bool_iff in Hs. rewrite Hs.
      rewrite (place_in_lookup order a i Hnd Ei), (place_in_lookup order b j Hnd Ej).
      cbn [andb]. apply orb_true_iff. right. apply Nat.leb_le. lia.
    - rewrite argsort_by_perm, indexed_seq. by apply fmap_Permutation. }
  rewrite Heq, <-list_fmap_compose. unfold f, compose. cbn [fst].
  by rewrite list_fmap_id.
Qed.

Context {providers : Providers}.

Lemma ranking_sorted scores : StronglySorted score_asc (ranking scores).
Proof. apply argsort_by_sorted. Qed.

Lemma ranking_perm scores : ranking scores ≡ₚ indexed scores.
Proof. apply argsort_by_perm. Qed.

Lemma argsort_ranking scores : argsort scores = (ranking scores).*1.
Proof. done. Qed.

Lemma argsort_perm scores : argsort scores ≡ₚ seq 0 (length scores).
Proof. by rewrite argsort_ranking, ranking_perm, indexed_fst. Qed.

Lemma argsort_length scores : length (argsort scores) = length scores.
Proof. by rewrite argsort_perm, length_seq. Qed.

Lemma argsort_bound scores i : i ∈ argsort scores → (i < length scores)%nat.
Proof. rewrite argsort_perm, elem_of_seq. lia. Qed.

(** Any ascending order of all the indices is the [argsort] of a sort
    that places equal scores so. *)
Lemma argsort_any_order (scores : list Q) (order : list nat) :
  order ≡ₚ seq 0 (length scores) →
  StronglySorted (λ i j, (score_at scores i <= score_at scores j)%Q) order →
  argsort_ties scores = place_in order →
  argsort scores = order.
Proof.
  intros Hperm Hsorted Hties. unfold argsort, ranking. rewrite Hties.
  by apply argsort_by_any_order.
Qed.

End Ranking.

(** Five scores of which the third and the fourth are equal, sorted
    with the fourth in front of the third: an order numpy's sort may
    give and a stable sort does not. *)
Example argsort_by_out_of_index_order :
  (argsort_by (place_in [3; 2; 4; 0; 1]%nat) [3; 4; 0; 0; 1]%Q).*1 = [3; 2; 4; 0; 1]%nat.
Proof. vm_compute. reflexivity. Qed.

(** ** Retrieval *)

Lemma all_ok_total {A B} (f : A → py_result B) (l : list A) :
  (∀ x, x ∈ l → ∃ y, f x = Ok y) → ∃ r, all_ok (map f l) = Ok r.
Proof.
  induction l as [|x l IH]; intros Hall; [by eexists |].
  destruct (Hall x (list_elem_of_here _ _)) as [y Hy].
  destruct IH as [r Hr].
  { intros z Hz. apply Hall. by apply list_elem_of_further. }
  exists (y :: r). cbn [map all_ok]. by rewrite Hy, Hr.
Qed.

Lemma all_ok_map {A B} (f : A → py_result B) (h : A → B) (l : list A) :
  (∀ x, x ∈ l → f x = Ok (h x)) → all_ok (map f l) = Ok (map h l).
Proof.
  induction l as [|x l IH]; intros Hall; [done |].
  cbn [map all_ok]. rewrite (Hall x (list_elem_of_here _ _)), IH; [done |].
  intros z Hz. apply Hall. by apply list_elem_of_further.
Qed.

Lemma all_ok_Forall2 {A B} (f : A → py_result B) (l : list A) (r : list B) :
  all_ok (map f l) = Ok r → Forall2 (λ x y, f x = Ok y) l r.
Proof.
  revert r. induction l as [|x l IH]; intros r; cbn [map all_ok].
  - intros [= <-]. constructor.
  - destruct (f x) as [y|] eqn:E; [|done].
    destruct (all_ok (map f l)) as [r'|]; [|done].
    intros [= <-]. constructor; [done | by apply IH].
Qed.

Lemma all_ok_raised {A B} (f : A → py_result B) (l : list A) x :
  x ∈ l → f x = Raised → all_ok (map f l) = Raised.
Proof.
  intros Hx Hf. induction l as [|y l IH]; [by apply elem_of_nil in Hx |].
  cbn [map all_ok]. apply elem_of_cons in Hx as [<-|Hx]; [by rewrite Hf |].
  rewrite (IH Hx). by destruct (f y).
Qed.

Lemma all_ok_lookups (ids : list string) (top : list nat) :
  (∀ i, i ∈ top → (i < length ids)%nat) →
  ∃ r, all_ok (map (λ i, of_option (ids !! i)) top) = Ok r
       ∧ Some <$> r = (ids !!.) <$> top.
Proof.
  induction top as [|i top IH]; intros Hall; [by exists [] |].
  destruct IH as (r & Hr & Hmap).
  { intros z Hz. apply Hall. by apply list_elem_of_further. }
  destruct (lookup_lt_is_Some_2 ids i (Hall i (list_elem_of_here _ _))) as [x Hx].
  exists (x :: r). cbn [map all_ok]. rewrite Hx, Hr. cbn [of_option].
  split; [done |]. csimpl. by rewrite Hx, Hmap.
Qed.

Lemma as_strs_Some (texts : list py_value) (strs : list string) :
  as_strs texts = Some strs ↔ texts = PyStr <$> strs.
Proof.
  revert strs. induction texts as [|v texts IH]; intros strs; cbn [as_strs].
  - split; [by intros [= <-] | by destruct strs].
  - destruct v as [s| | |]; try (split; [done | by destruct strs]).
    destruct (as_strs texts) as [strs'|] eqn:E.
    + split.
      * intros [= <-]. csimpl. f_equal. by apply IH.
      * destruct strs as [|s0 strs]; [done |]. csimpl. intros [= -> Ht].
        apply IH in Ht. by injection Ht as ->.
    + split; [done |]. destruct strs as [|s0 strs]; [done |]. csimpl.
      intros [= -> Ht]. by apply IH in Ht.
Qed.

(** Pairing the candidates with the similarities, as the list
    comprehension over [range(len(candidates))] does. *)
Lemma pair_sims {A} (candidates : list (string * A)) (sims : list Q) :
  all_ok (imap (λ i c, match sims !! i with
                       | Some s => Ok (c.1, s)
                       | None => Raised
                       end) candidates)
  = if decide (length candidates ≤ length sims)%nat
    then Ok (zip_with (λ c s, (c.1, s)) candidates sims)
    else Raised.
Proof.
  revert sims. induction candidates as [|c cs IH]; intros sims; [done |].
  cbn [imap all_ok]. destruct sims as [|s sims]; cbn [lookup list_lookup].
  - rewrite decide_False by (cbn; lia). done.
  - erewrite imap_ext; [rewrite (IH sims) | done].
    cbn [length zip_with]. destruct (decide (length cs ≤ length sims)%nat).
    + by rewrite decide_True by lia.
    + by rewrite decide_False by lia.
Qed.

Lemma length_omap_le {A B} (f : A → option B) (l : list A) :
  (length (omap f l) ≤ length l)%nat.
Proof.
  induction l as [|x l IH]; [done |]. csimpl. destruct (f x); simpl; lia.
Qed.

Section SearchProofs.
Context {providers : Providers}.
Import PyDict PyDictFacts.

Lemma tokenize_all g :
  texts_are_str g →
  all_ok (map (λ node, tokenize_value (get_text_content node)) (values (nodes g)))
  = Ok (current_corpus g).
Proof.
  intros Htxt. unfold current_corpus. apply all_ok_map.
  intros n [i Hin]%values_elem_of. destruct (Htxt i n Hin) as [s ->]. done.
Qed.

(** After the staleness check and the rebuild it may trigger, the
    index exists, covers its id list, and the nodes are untouched. *)
Lemma bm25_search_ready g query top_k :
  index_ready g →
  ∃ g' a fitted,
    bm25_search g query top_k = (g', bm25_rank a query top_k)
    ∧ bm25_attrs g' = Some a ∧ bm25 a = Some fitted
    ∧ nodes g' = nodes g
    ∧ content_hash_to_id_map g' = content_hash_to_id_map g
    ∧ (length fitted ≤ length (id_list a))%nat
    ∧ ∀ i, i ∈ id_list a → is_Some (get_node g i).
Proof.
  unfold index_ready, bm25_search. destruct (bm25_stale g) eqn:Hstale.
  - intros [Htxt Hfit]. unfold bm25_setup. rewrite (tokenize_all g Htxt), Hfit.
    eexists _, _, _. split; [done |]. cbn.
    split; [done |]. split; [done |]. split; [done |]. split; [done |].
    split.
    + unfold current_corpus, keys, values. by rewrite !length_fmap.
    + intros i Hi. by apply get_Some_keys.
  - destruct (bm25_attrs g) as [a|] eqn:Ha; [|done].
    destruct (bm25 a) as [fitted|] eqn:Hb; [|done].
    intros [Hlen Hids]. exists g, a, fitted. by rewrite Ha.
Qed.

Lemma bm25_rank_ok a fitted query top_k :
  bm25 a = Some fitted → (length fitted ≤ length (id_list a))%nat →
  ∃ ids,
    bm25_rank a query top_k = Ok ids
    ∧ Some <$> ids
      = (id_list a !!.)
          <$> slice_from (argsort (map (bm25_score fitted (tokenize query)) fitted))
                         (- top_k).
Proof.
  intros Hb Hlen. unfold bm25_rank. rewrite Hb.
  apply all_ok_lookups. intros i Hi.
  assert (Hin : i ∈ argsort (map (bm25_score fitted (tokenize query)) fitted)).
  { unfold slice_from in Hi. case_bool_decide; by apply subseteq_drop in Hi. }
  apply argsort_bound in Hin. rewrite length_map in Hin. lia.
Qed.

Lemma lookups_elem_of (ids : list string) (r : list string) (top : list nat) x :
  Some <$> r = (ids !!.) <$> top → x ∈ r → x ∈ ids.
Proof.
  intros Hmap Hx.
  assert (Hs : Some x ∈ (ids !!.) <$> top).
  { rewrite <-Hmap. apply list_elem_of_fmap. by exists x. }
  apply list_elem_of_fmap in Hs as (i & Hi & _).
  apply list_elem_of_lookup. by exists i.
Qed.

Lemma within_nodes g seeds n v :
  edges_closed g → (∀ s, s ∈ seeds → is_Some (get_node g s)) →
  within (nodes g) seeds n v → is_Some (get_node g v).
Proof.
  intros Hclosed Hseeds. revert v. induction n as [|n IH]; intros v; cbn [within].
  - apply Hseeds.
  - intros [Hv|(u & node & _ & Hnode & Hv)]; [by apply IH |].
    apply (Hclosed u node v); [by apply get_elem_of | done].
Qed.

(** What [semantic_search] returns, step by step. *)
Lemma semantic_search_Ok g query candidate_ids top_k r :
  semantic_search g query candidate_ids top_k = Ok r →
  (candidate_ids = [] ∧ r = [])
  ∨ ∃ candidates sims,
      Forall2 (λ node_id c, ∃ node, get (nodes g) node_id = Some node
                                    ∧ c = (node_id, get_text_content node))
              candidate_ids candidates
      ∧ similarities query candidates.*2 = Ok sims
      ∧ (length candidates ≤ length sims)%nat
      ∧ r = slice_to (stable_sort sim_ge (zip_with (λ c s, (c.1, s)) candidates sims))
                     top_k.
Proof.
  unfold semantic_search. destruct candidate_ids as [|c0 cs] eqn:E;
    [intros [= <-]; by left |]. rewrite <-E. clear E.
  destruct (all_ok _) as [candidates|] eqn:Hall; [|done].
  destruct (similarities query candidates.*2) as [sims|] eqn:Hsims; [|done].
  rewrite pair_sims. destruct (decide _) as [Hlen|]; [|done].
  intros [= <-]. right. exists candidates, sims.
  split; [|done]. apply all_ok_Forall2 in Hall.
  eapply Forall2_impl; [exact Hall |]. intros node_id c. cbn beta.
  destruct (get (nodes g) node_id) as [node|]; [|done]. intros [= <-]. by exists node.
Qed.

Lemma semantic_search_length g query candidate_ids top_k r :
  0 ≤ top_k → semantic_search g query candidate_ids top_k = Ok r →
  (length r ≤ Z.to_nat top_k)%nat.
Proof.
  intros Hk [[_ ->]|(candidates & sims & _ & _ & _ & ->)]%semantic_search_Ok;
    [simpl; lia |].
  by apply slice_to_length.
Qed.

Lemma semantic_search_total g query candidate_ids top_k :
  texts_are_str g → (∀ c, c ∈ candidate_ids → is_Some (get_node g c)) →
  ∃ r, semantic_search g query candidate_ids top_k = Ok r.
Proof.
  intros Htxt Hcands. unfold semantic_search.
  destruct candidate_ids as [|c cs] eqn:E; [by eexists |]. rewrite <-E in *.
  clear E.
  assert (Hall : ∃ strs,
    all_ok (map (λ node_id,
                   match get (nodes g) node_id with
                   | None => Raised
                   | Some node => Ok (node_id, get_text_content node)
                   end) candidate_ids)
    = Ok (zip candidate_ids (PyStr <$> strs))
    ∧ length strs = length candidate_ids).
  { induction candidate_ids as [|x l IH]; [by exists [] |].
    destruct IH as (strs & Hstrs & Hlen).
    { intros z Hz. apply Hcands. by apply list_elem_of_further. }
    destruct (Hcands x (list_elem_of_here _ _)) as [node Hnode].
    destruct (Htxt x node (get_elem_of _ _ _ Hnode)) as [text Htext].
    exists (text :: strs). cbn [map all_ok]. unfold get_node in Hnode.
    rewrite Hnode, Hstrs, Htext. csimpl. by rewrite Hlen. }
  destruct Hall as (strs & -> & Hlen).
  rewrite snd_zip by (rewrite length_fmap; lia).
  unfold similarities. rewrite (proj2 (as_strs_Some _ strs) eq_refl).
  rewrite pair_sims, decide_True; [by eexists |].
  rewrite length_zip, length_map, length_fmap. lia.
Qed.

Lemma search_length g query top_k bfs_depth bm25_candidates g' l :
  0 ≤ top_k →
  search g query top_k bfs_depth bm25_candidates = (g', Ok l) →
  (length l ≤ Z.to_nat top_k)%nat.
Proof.
  intros Hk. unfold search. destruct (nodes g); [intros [= _ <-]; simpl; lia |].
  destruct (bm25_search g query bm25_candidates) as [g1 [ids|]]; [|done].
  destruct (bfs_exploration g1 ids bfs_depth) as [r|]; [|done].
  destruct (semantic_search g1 query (elements r) top_k) as [sr|] eqn:Hsr; [|done].
  intros [= _ <-]. unfold prepare_results.
  etrans; [apply length_omap_le |]. by eapply semantic_search_length.
Qed.

(** The lexical stage on a ready index: the ids at the positions
    [argsort(scores)[-top_k:]]. *)
Lemma bm25_search_ok g query top_k :
  index_ready g →
  ∃ g' ids,
    bm25_search g query top_k = (g', Ok ids)
    ∧ nodes g' = nodes g
    ∧ Some <$> ids
      = (index_ids g' !!.) <$> slice_from (argsort (index_scores g' query)) (- top_k)
    ∧ (length (index_scores g' query) ≤ length (index_ids g'))%nat
    ∧ ∀ i, i ∈ index_ids g' → is_Some (get_node g i).
Proof.
  intros Hready.
  destruct (bm25_search_ready g query top_k Hready)
    as (g' & a & fitted & Hsearch & Ha & Hb & Hnodes & _ & Hlen & Hids).
  destruct (bm25_rank_ok a fitted query top_k Hb Hlen) as (ids & Hrank & Hmap).
  rewrite Hrank in Hsearch. exists g', ids.
  unfold index_ids, index_scores. rewrite Ha, Hb, length_map. done.
Qed.

(** On a searchable graph [search] returns a list, whatever the
    counts it is given. *)
Lemma search_total g query top_k bfs_depth bm25_candidates g' ids :
  searchable g →
  bm25_search g query bm25_candidates = (g', Ok ids) →
  ∃ l, search g query top_k bfs_depth bm25_candidates
       = (if nodes g is [] then g else g', Ok l).
Proof.
  intros (Htxt & Hclosed & Hready) Hsearch.
  destruct (bm25_search_ok g query bm25_candidates Hready)
    as (g1 & ids1 & Hsearch1 & Hnodes & Hmap & Hlen & Hids).
  rewrite Hsearch in Hsearch1. injection Hsearch1 as <- <-.
  destruct (bfs_exploration_spec g' ids bfs_depth) as (r & Hr & Hspec).
  assert (Htxt' : texts_are_str g') by (unfold texts_are_str; by rewrite Hnodes).
  assert (Hget : ∀ v, get_node g' v = get_node g v)
    by (intros v; unfold get_node; by rewrite Hnodes).
  assert (Hclosed' : edges_closed g').
  { intros i n v. rewrite Hnodes, Hget. apply Hclosed. }
  destruct (semantic_search_total g' query (elements r) top_k Htxt') as [sr Hsr].
  { intros c Hc%elem_of_elements%Hspec.
    apply (within_nodes g' ids (Z.to_nat bfs_depth) c Hclosed'); [|done].
    intros s0 Hs. rewrite Hget. apply Hids. by eapply lookups_elem_of. }
  unfold search. destruct (nodes g); [by eexists |].
  rewrite Hsearch, Hr, Hsr. by eexists.
Qed.

End SearchProofs.

(** The example graph [graph_AB] can be searched with the stand-in
    providers. *)
Lemma graph_AB_searchable : searchable (providers := example_providers) graph_AB.
Proof.
  split; [|split].
  - intros i n [[= -> ->]|[[= -> ->]|Hin%elem_of_nil]%elem_of_cons]%elem_of_cons;
      [by eexists | by eexists | done].
  - intros i n v [[= -> ->]|[[= -> ->]|Hin%elem_of_nil]%elem_of_cons]%elem_of_cons Hv;
      [| |done]; by apply not_elem_of_empty in Hv.
  - split; [|reflexivity].
    intros i n [[= -> ->]|[[= -> ->]|Hin%elem_of_nil]%elem_of_cons]%elem_of_cons;
      [by eexists | by eexists | done].
Qed.

(** C4. For every query and every positive [k], a list returned by
    [search(q, top_k=k, ...)] has at most [k] entries; on a graph with
    no node [search] returns the empty list and leaves the graph as it
    is; and on every searchable graph (texts are strings, edges point
    to nodes, the lexical index can be built or is in place) [search]
    does return a list. *)
Theorem search_result_bound {providers : Providers}
    (g : MemoryGraph) (q : string) (k bfs_depth bm25_candidates : Z) :
  0 < k →
  (nodes g = [] → search g q k bfs_depth bm25_candidates = (g, Ok []))
  ∧ (∀ g' l, search g q k bfs_depth bm25_candidates = (g', Ok l) →
             (length l ≤ Z.to_nat k)%nat)
  ∧ (searchable g → ∃ g' l, search g q k bfs_depth bm25_candidates = (g', Ok l)).
Proof.
  intros Hk. split; [|split].
  - intros Hg. unfold search. by rewrite Hg.
  - intros g' l. apply search_length. lia.
  - intros Hs. pose proof Hs as (_ & _ & Hready).
    destruct (bm25_search_ok g q bm25_candidates Hready) as (g' & ids & Hsearch & _).
    destruct (search_total g q k bfs_depth bm25_candidates g' ids Hs Hsearch) as [l Hl].
    by eexists _, l.
Qed.

Lemma search_result_bound_witness :
  search (providers := example_providers) MemoryGraph_init "a" 1 1 10
  = (MemoryGraph_init, Ok [])
  ∧ ∃ g' l, search (providers := example_providers) graph_AB "a" 1 1 10 = (g', Ok l)
            ∧ (length l ≤ 1)%nat.
Proof.
  destruct (search_result_bound (providers := example_providers)
              MemoryGraph_init "a" 1 1 10) as (Hempty & _ & _); [lia |].
  destruct (search_result_bound (providers := example_providers)
              graph_AB "a" 1 1 10) as (_ & Hlen & Htotal); [lia |].
  split; [apply Hempty; reflexivity |].
  destruct (Htotal graph_AB_searchable) as (g' & l & Hl).
  exists g', l. split; [exact Hl | exact (Hlen g' l Hl)].
Defined.

(** Two scores are sorted one way or the other. *)
Lemma argsort_two {providers : Providers} (s t : Q) :
  argsort [s; t] = [0%nat; 1%nat] ∨ argsort [s; t] = [1%nat; 0%nat].
Proof.
  unfold argsort, ranking, argsort_by, stable_sort, indexed.
  cbn [imap foldr stable_insert]. unfold compose.
  destruct (tie_le _ _ _); [by left | by right].
Qed.

(** The lexical stage on the graph holding "A" and "B", for every
    scorer and sort: with [0] both ids are seeds, with [-1] one is. *)
Lemma bm25_search_AB_nonpositive {providers : Providers} (q : string) :
  bm25_fits [["a"]; ["b"]] = true →
  ∃ g1 ids0 ids1,
    nodes g1 = nodes graph_AB
    ∧ bm25_search graph_AB q 0 = (g1, Ok ids0)
    ∧ bm25_search graph_AB q (-1) = (g1, Ok ids1)
    ∧ (ids0 = ["x"; "y"] ∨ ids0 = ["y"; "x"])
    ∧ (ids1 = ["x"] ∨ ids1 = ["y"]).
Proof.
  intros Hfit. unfold bm25_search.
  change (bm25_stale graph_AB) with true. cbn iota.
  unfold bm25_setup.
  change (all_ok _) with (Ok [["a"]; ["b"]]).
  cbn iota. rewrite Hfit. cbn [set_bm25_attrs bm25_attrs].
  unfold bm25_rank. cbn [bm25 id_list map].
  exists (mkGraph (nodes graph_AB) (content_hash_to_id_map graph_AB)
                  (Some (mkBM25 [["a"]; ["b"]] (PyDict.keys (nodes graph_AB))
                                (Some [["a"]; ["b"]])))).
  destruct (argsort_two (bm25_score [["a"]; ["b"]] (tokenize q) ["a"])
                        (bm25_score [["a"]; ["b"]] (tokenize q) ["b"])) as [-> | ->];
    eexists _, _; (split; [reflexivity |]); (split; [reflexivity |]);
    (split; [reflexivity |]); split; auto.
Qed.

(** The candidates of a graph without edges are the seeds. *)
Lemma bfs_no_edges (g : MemoryGraph) (seeds : list string) (max_depth : Z) :
  (∀ i n, (i, n) ∈ nodes g → edges n = ∅) →
  bfs_exploration g seeds max_depth = Some (list_to_set seeds).
Proof.
  intros Hno. destruct (bfs_exploration_spec g seeds max_depth) as (r & Hr & Hspec).
  rewrite Hr. f_equal. apply set_eq. intros v. rewrite Hspec, elem_of_list_to_set.
  generalize (Z.to_nat max_depth). intros n. induction n as [|n IH]; [done |].
  cbn [within]. rewrite IH. split; [|by left].
  intros [Hv|(u & node & _ & Hnode & Hv)]; [done |].
  apply PyDictFacts.get_elem_of in Hnode. rewrite (Hno u node Hnode) in Hv.
  by apply not_elem_of_empty in Hv.
Qed.

(** Whatever the scorer, the sort and the embedding model, the two
    searches of [search_nonpositive_candidates_returns] return lists,
    of two records and of one. *)
Lemma search_nonpositive_any_provider {providers : Providers} (q : string) :
  bm25_fits [["a"]; ["b"]] = true →
  ∃ l0 l1,
    (search graph_AB q 5 1 0).2 = Ok l0 ∧ res_id <$> l0 ≡ₚ ["x"; "y"]
    ∧ (search graph_AB q 5 1 (-1)).2 = Ok l1 ∧ length l1 = 1%nat.
Proof.
  intros Hfit.
  destruct (bm25_search_AB_nonpositive q Hfit)
    as (g1 & ids0 & ids1 & Hnodes & H0 & H1 & Hids0 & Hids1).
  assert (Hbfs : ∀ seeds, bfs_exploration g1 seeds 1 = Some (list_to_set seeds)).
  { intros seeds. apply bfs_no_edges. rewrite Hnodes.
    intros i n [[= -> ->]|[[= -> ->]|Hin%elem_of_nil]%elem_of_cons]%elem_of_cons; done. }
  assert (Hsem : ∀ cands top_k,
            semantic_search g1 q cands top_k = semantic_search graph_AB q cands top_k).
  { intros cands top_k. unfold semantic_search. by rewrite Hnodes. }
  assert (Hprep : ∀ sr, prepare_results g1 sr = prepare_results graph_AB sr).
  { intros sr. unfold prepare_results, get_node. by rewrite Hnodes. }
  unfold search. change (nodes graph_AB) with [("x", node_A "x"); ("y", mkNode "y" [("content", PyStr "B")] ∅)].
  cbn iota. rewrite H0, H1, !Hbfs. cbn [snd].
  assert (E2 : ∀ ids, ids = ["x"; "y"] ∨ ids = ["y"; "x"] →
            elements (list_to_set ids : gset string) = ["y"; "x"]).
  { by intros ids [-> | ->]; vm_compute. }
  assert (E1 : ∀ ids, ids = ["x"] ∨ ids = ["y"] →
            ∃ c, elements (list_to_set ids : gset string) = [c] ∧ (c = "x" ∨ c = "y")).
  { intros ids [-> | ->]; eexists; (split; [by vm_compute |]); auto. }
  rewrite (E2 ids0 Hids0). destruct (E1 ids1 Hids1) as (c & -> & Hc).
  rewrite !Hsem.
  assert (S2 : ∃ sr, semantic_search graph_AB q ["y"; "x"] 5 = Ok sr
                     ∧ sr.*1 ≡ₚ ["x"; "y"]).
  { unfold semantic_search. cbn [map].
    change (PyDict.get (nodes graph_AB) "y")
      with (Some (mkNode "y" [("content", PyStr "B")] ∅)).
    change (PyDict.get (nodes graph_AB) "x")
      with (Some (mkNode "x" [("content", PyStr "A")] ∅)).
    cbn. unfold similarities. cbn.
    change (get_text_content (mkNode "y" [("content", PyStr "B")] ∅)) with (PyStr "B").
    change (get_text_content (mkNode "x" [("content", PyStr "A")] ∅)) with (PyStr "A").
    cbn.
    destruct (sim_ge _ _); eexists; (split; [reflexivity |]); cbn;
      [apply Permutation_swap | done]. }
  assert (S1 : ∃ s, semantic_search graph_AB q [c] 5 = Ok [(c, s)]).
  { destruct Hc as [-> | ->]; unfold semantic_search; cbn [map].
    - change (PyDict.get (nodes graph_AB) "x")
        with (Some (mkNode "x" [("content", PyStr "A")] ∅)).
      cbn. unfold similarities. cbn.
      change (get_text_content (mkNode "x" [("content", PyStr "A")] ∅)) with (PyStr "A").
      cbn. by eexists.
    - change (PyDict.get (nodes graph_AB) "y")
        with (Some (mkNode "y" [("content", PyStr "B")] ∅)).
      cbn. unfold similarities. cbn.
      change (get_text_content (mkNode "y" [("content", PyStr "B")] ∅)) with (PyStr "B").
      cbn. by eexists. }
  destruct S2 as (sr & -> & Hsr). destruct S1 as (s1 & ->).
  rewrite !Hprep. eexists _, _. split; [reflexivity |]. split; [|split; [reflexivity |]].
  - revert Hsr. destruct sr as [|[a sa] [|[b sb] [|? ?]]]; cbn;
      try (intros Hp%Permutation_length; by cbn in Hp).
    intros Hp.
    assert (Ha : a ∈ ["x"; "y"]) by (rewrite <-Hp; apply list_elem_of_here).
    assert (Hb : b ∈ ["x"; "y"])
      by (rewrite <-Hp; apply list_elem_of_further, list_elem_of_here).
    apply elem_of_cons in Ha as [-> | ->%list_elem_of_singleton];
      apply elem_of_cons in Hb as [-> | ->%list_elem_of_singleton]; exact Hp.
  - by destruct Hc as [-> | ->].
Qed.

(** C6, counts that are not positive. On the graph holding "A" and
    "B", [search("a", 5, 1, 0)] and [search("a", 5, 1, -1)] return
    result lists where the claim has them rejected: with [0] both
    notes are lexical seeds and both come back, with [-1] the entry the
    sort ranks lowest is dropped and one note comes back. Which note
    that is depends on the scores; the facts stated here do not
    ([search_nonpositive_any_provider]). The graph is not changed. *)
Lemma search_nonpositive_candidates_returns :
  ∃ l0 l1,
    (search (providers := example_providers) graph_AB "a" 5 1 0).2 = Ok l0
    ∧ res_id <$> l0 ≡ₚ ["x"; "y"]
    ∧ (search (providers := example_providers) graph_AB "a" 5 1 (-1)).2 = Ok l1
    ∧ length l1 = 1%nat
    ∧ nodes (search (providers := example_providers) graph_AB "a" 5 1 0).1
      = nodes graph_AB
    ∧ nodes (search (providers := example_providers) graph_AB "a" 5 1 (-1)).1
      = nodes graph_AB.
Proof.
  destruct (search_nonpositive_any_provider (providers := example_providers) "a")
    as (l0 & l1 & H0 & Hp & H1 & Hlen); [reflexivity |].
  exists l0, l1. repeat split; try assumption; by vm_compute.
Qed.

(** C6 as the code has it. [search] does not validate
    [bm25_candidates]: a value [c <= 0] is used as the slice bound
    [argsort(scores)[-c:]], so the lexical seeds are the ids of the
    ascending sort of the scores without its first [-c] entries (the
    whole corpus for [c = 0]; the sort is numpy's, with its own order
    among equal scores), and on a searchable graph with nodes [search]
    returns a result list as for any other value, the nodes being left
    as they were. *)
Theorem search_nonpositive_candidates {providers : Providers}
    (g : MemoryGraph) (q : string) (k bfs_depth c : Z) :
  c ≤ 0 → searchable g → nodes g ≠ [] →
  ∃ g' ids l,
    bm25_search g q c = (g', Ok ids)
    ∧ Some <$> ids
      = (index_ids g' !!.) <$> drop (Z.to_nat (- c)) (argsort (index_scores g' q))
    ∧ length ids = (length (index_scores g' q) - Z.to_nat (- c))%nat
    ∧ nodes g' = nodes g
    ∧ search g q k bfs_depth c = (g', Ok l).
Proof.
  intros Hc Hs Hne. pose proof Hs as (_ & _ & Hready).
  destruct (bm25_search_ok g q c Hready) as (g' & ids & Hsearch & Hnodes & Hmap & _).
  destruct (search_total g q k bfs_depth c g' ids Hs Hsearch) as [l Hl].
  exists g', ids, l. split; [done |].
  rewrite slice_from_nonpositive in Hmap by done. split; [done |].
  split; [|split; [done |]].
  - apply (f_equal length) in Hmap.
    by rewrite !length_fmap, length_drop, argsort_length in Hmap.
  - rewrite Hl. by destruct (nodes g).
Qed.

Lemma search_nonpositive_candidates_witness :
  ∃ g' ids l,
    bm25_search (providers := example_providers) graph_AB "a" 0 = (g', Ok ids)
    ∧ search (providers := example_providers) graph_AB "a" 5 1 0 = (g', Ok l).
Proof.
  destruct (search_nonpositive_candidates (providers := example_providers)
              graph_AB "a" 5 1 0) as (g' & ids & l & Hb & _ & _ & _ & Hl).
  - lia.
  - exact graph_AB_searchable.
  - discriminate.
  - exists g', ids, l. split; assumption.
Defined.

(** ** The lexical index *)

(** Whatever the scorer, two notes with the same tokens tie, and the
    top 1 is one of them or the other, as the sort places them: the
    code does not fix which. *)
Lemma bm25_tie_any_scorer {providers : Providers} (q : string) :
  bm25_fits [["hello"]; ["hello"]] = true →
  (∃ s, index_scores (bm25_search graph_tie q 1).1 q = [s; s])
  ∧ ((bm25_search graph_tie q 1).2 = Ok ["y"] ∨ (bm25_search graph_tie q 1).2 = Ok ["x"]).
Proof.
  intros Hfit. unfold bm25_search.
  change (bm25_stale graph_tie) with true. cbn iota.
  unfold bm25_setup.
  change (all_ok _) with (Ok [["hello"]; ["hello"]]).
  cbn iota. rewrite Hfit. cbn [set_bm25_attrs bm25_attrs fst snd].
  split.
  - unfold index_scores. cbn [bm25_attrs bm25 map]. by eexists.
  - unfold bm25_rank. cbn [bm25 id_list map].
    destruct (argsort_two (bm25_score [["hello"]; ["hello"]] (tokenize q) ["hello"])
                          (bm25_score [["hello"]; ["hello"]] (tokenize q) ["hello"]))
      as [-> | ->]; [by left | by right].
Qed.

Lemma last_drop_lt {A} (l : list A) (n : nat) :
  (n < length l)%nat → last (drop n l) = last l.
Proof.
  revert n. induction l as [|x l IH]; intros n Hn; [cbn in Hn; lia |].
  destruct n as [|n]; [done |]. cbn [drop]. cbn in Hn. rewrite IH by lia.
  rewrite last_cons. destruct (last l) eqn:E; [done |].
  apply last_None in E. subst l. cbn in Hn. lia.
Qed.

(** Whatever the scorer and the sort, a note that scores higher than
    every other one comes last in what [bm25_search] returns. *)
Lemma bm25_search_best_last {providers : Providers}
    (g : MemoryGraph) (q : string) (k : Z) (g' : MemoryGraph) (ids : list string)
    (i : nat) (best : string) (s : Q) :
  0 < k → index_ready g → bm25_search g q k = (g', Ok ids) →
  index_scores g' q !! i = Some s → index_ids g' !! i = Some best →
  (∀ j t, j ≠ i → index_scores g' q !! j = Some t → (t < s)%Q) →
  last ids = Some best.
Proof.
  intros Hk Hready Hsearch Hs Hbest Hmax.
  destruct (bm25_search_ok g q k Hready) as (g1 & ids1 & Hsearch1 & _ & Hmap & _).
  rewrite Hsearch in Hsearch1. injection Hsearch1 as <- <-.
  rewrite slice_from_positive, argsort_length, argsort_ranking in Hmap by done.
  set (scores := index_scores g' q) in *.
  assert (Hn : (0 < length scores)%nat) by (apply lookup_lt_Some in Hs; lia).
  assert (Hlast : last (ranking scores) = Some (i, s)).
  { pose proof (ranking_sorted scores) as Hsorted.
    pose proof (ranking_perm scores) as Hperm.
    assert (Hin : (i, s) ∈ ranking scores).
    { rewrite Hperm. apply list_elem_of_lookup. exists i.
      by rewrite indexed_lookup, Hs. }
    destruct (ranking scores) as [|p l] eqn:E using rev_ind;
      [by apply elem_of_nil in Hin |]. clear IHl.
    rewrite last_snoc. f_equal.
    apply elem_of_app in Hin as [Hin | ->%list_elem_of_singleton]; [|done].
    exfalso. apply StronglySorted_app_1_elem_of with (x1 := (i, s)) (x2 := p) in Hsorted;
      [|done | apply list_elem_of_here].
    assert (Hp : p ∈ indexed scores)
      by (rewrite <-Hperm; apply elem_of_app; right; apply list_elem_of_here).
    apply list_elem_of_lookup in Hp as [j Hj]. rewrite indexed_lookup in Hj.
    destruct (scores !! j) as [t|] eqn:Et; [|done]. injection Hj as <-.
    unfold score_asc in Hsorted. cbn [snd] in Hsorted.
    destruct (decide (j = i)) as [-> | Hne].
    - assert (NoDup ((l ++ [(i, t)])%list.*1)) as Hnd.
      { rewrite Hperm, indexed_fst. apply NoDup_seq. }
      rewrite fmap_app in Hnd. apply NoDup_app in Hnd as (_ & Hnd & _).
      apply (Hnd i); [|apply list_elem_of_here].
      apply list_elem_of_fmap. by exists (i, s).
    - specialize (Hmax j t Hne Et). by apply Qlt_not_le in Hmax. }
  assert (Hl : last ((index_ids g' !!.)
                     <$> drop (length scores - Z.to_nat k) (ranking scores).*1)
               = Some (Some best)).
  { assert (Hlen : length (ranking scores) = length scores).
    { unfold ranking, argsort_by, indexed. by rewrite stable_sort_length, length_imap. }
    rewrite fmap_last, last_drop_lt by (rewrite length_fmap; lia).
    rewrite fmap_last, Hlast. cbn. by rewrite Hbest. }
  rewrite <-Hmap, fmap_last in Hl. destruct (last ids) as [x|]; [|done].
  cbn in Hl. by injection Hl as ->.
Qed.

(** C7, a tie at the cut and the order of the list. The notes "Hello"
    (id [x], first seen) and "hello" (id [y]) have the same tokens and
    so the same score for the query "hello"; the top 1 of the
    specification is [x], and [bm25_search], which keeps the end of an
    ascending sort, returns [y] (the sort leaving two equal scores in
    index order). Of the three notes "A", "B" and "C" only [x] holds
    the token of the query "a": the specification lists [x] first,
    [bm25_search] lists it last, whatever the order of the other
    two. *)
Lemma bm25_top_1_on_tie :
  ∃ s t,
    index_scores (providers := example_providers)
      (bm25_search (providers := example_providers) graph_tie "hello" 1).1 "hello"
    = [s; t]
    ∧ (s == t)%Q
    ∧ index_ids (bm25_search (providers := example_providers) graph_tie "hello" 1).1
      = ["x"; "y"]
    ∧ (bm25_search (providers := example_providers) graph_tie "hello" 1).2 = Ok ["y"]
    ∧ spec_top_k [s; t] ["x"; "y"] 1 = ["x"]
    ∧ ∃ ids,
        (bm25_search (providers := example_providers) graph_ABC "a" 3).2 = Ok ids
        ∧ last ids = Some "x"
        ∧ head (spec_top_k
                  (index_scores (providers := example_providers)
                     (bm25_search (providers := example_providers) graph_ABC "a" 3).1 "a")
                  ["x"; "y"; "z"] 3) = Some "x".
Proof.
  exists 1%Q, 1%Q. repeat split; try (vm_compute; reflexivity).
  eexists. repeat split; vm_compute; reflexivity.
Qed.

(** C7 as the code has it. For a positive [k], on a ready index over
    [n] documents, [bm25_search] returns the ids at the last
    [min(k, n)] positions of the ranking [argsort(scores)], which lists
    every corpus position once in ascending order of score. The ids
    returned are therefore [k] highest scoring ones, none left out
    scoring higher than one returned, listed worst first; for [k >= n]
    the result is the whole corpus in that ascending order. The order
    among equal scores, and so which of them are kept at the cut, is
    the sort's own: numpy's default sort promises none. *)
Theorem bm25_search_top_k {providers : Providers}
    (g : MemoryGraph) (q : string) (k : Z) :
  0 < k → index_ready g →
  ∃ g' ids,
    bm25_search g q k = (g', Ok ids)
    ∧ Some <$> ids
      = (index_ids g' !!.)
          <$> (drop (length (index_scores g' q) - Z.to_nat k)%nat
                    (ranking (index_scores g' q))).*1
    ∧ length ids = Nat.min (Z.to_nat k) (length (index_scores g' q))
    ∧ ranking (index_scores g' q) ≡ₚ indexed (index_scores g' q)
    ∧ StronglySorted score_asc (ranking (index_scores g' q))
    ∧ (∀ p r,
         p ∈ take (length (index_scores g' q) - Z.to_nat k)%nat
                  (ranking (index_scores g' q)) →
         r ∈ drop (length (index_scores g' q) - Z.to_nat k)%nat
                  (ranking (index_scores g' q)) →
         score_asc p r)
    ∧ ((length (index_scores g' q) ≤ Z.to_nat k)%nat →
       Some <$> ids = (index_ids g' !!.) <$> (ranking (index_scores g' q)).*1).
Proof.
  intros Hk Hready.
  destruct (bm25_search_ok g q k Hready) as (g' & ids & Hsearch & _ & Hmap & _).
  exists g', ids. split; [done |].
  rewrite slice_from_positive, argsort_length, argsort_ranking in Hmap by done.
  rewrite fmap_drop. split; [done |]. split; [|split; [|split; [|split]]].
  - apply (f_equal length) in Hmap.
    rewrite !length_fmap, length_drop, length_fmap in Hmap.
    unfold ranking, argsort_by in Hmap. rewrite stable_sort_length in Hmap.
    unfold indexed in Hmap. rewrite length_imap in Hmap. lia.
  - apply ranking_perm.
  - apply ranking_sorted.
  - intros p r. apply StronglySorted_app_1_elem_of.
    rewrite take_drop. apply ranking_sorted.
  - intros Hn. rewrite Hmap. by replace (_ - _)%nat with 0%nat by lia.
Qed.

Lemma bm25_search_top_k_witness :
  ∃ g' ids,
    bm25_search (providers := example_providers) graph_AB "a" 1 = (g', Ok ids)
    ∧ length ids
      = Nat.min 1 (length (index_scores (providers := example_providers) g' "a")).
Proof.
  destruct (bm25_search_top_k (providers := example_providers) graph_AB "a" 1)
    as (g' & ids & Hs & _ & Hlen & _).
  - lia.
  - destruct graph_AB_searchable as (_ & _ & Hready). exact Hready.
  - exists g', ids. split; [exact Hs | exact Hlen].
Defined.

(** ** Further properties of the graph store and of the write path *)

Section MoreGraphStore.
Import PyDict PyDictFacts.

Lemma keys_set_prefix {V} (d : t V) k v : keys d `prefix_of` keys (set d k v).
Proof.
  destruct (get d k) as [w|] eqn:E.
  - rewrite keys_set_present by (by rewrite E). done.
  - rewrite keys_set_absent by done. by apply prefix_app_r.
Qed.

Lemma add_node_keys_prefix g m uuid :
  keys (nodes g) `prefix_of` keys (nodes (add_node g m uuid).1).
Proof.
  unfold add_node. destruct (content_hash_to_id_map g !! _get_hash m); [done |].
  apply keys_set_prefix.
Qed.

Lemma add_connections_loop_eq ns targets : ∀ n,
  add_connections_loop ns n targets
  = mkNode (id n) (metadata n) (edges n ∪ accepted_targets ns targets).
Proof.
  induction targets as [|t targets IH]; intros n.
  - rewrite accepted_targets_nil, (right_id_L ∅ (∪)). by destruct n.
  - unfold add_connections_loop. cbn [foldl].
    fold (add_connections_loop ns
            (if str_truthy t && mem ns t then node_add_edge n t else n) targets).
    rewrite IH, accepted_targets_cons.
    destruct (str_truthy t && mem ns t); cbn [node_add_edge id metadata edges];
      f_equal; set_solver.
Qed.

Lemma remove_connections_loop_eq targets : ∀ n,
  remove_connections_loop n targets
  = mkNode (id n) (metadata n) (edges n ∖ list_to_set targets).
Proof.
  induction targets as [|t targets IH]; intros n.
  - cbn [list_to_set]. rewrite difference_empty_L. by destruct n.
  - unfold remove_connections_loop. cbn [foldl].
    fold (remove_connections_loop (node_remove_edge n t) targets).
    rewrite IH, list_to_set_cons. unfold node_remove_edge.
    case_bool_decide; cbn [id metadata edges]; f_equal; set_solver.
Qed.

(** [update] on a node that exists, as one replacement of the node. *)
Lemma update_present g i node m adds rems :
  get_node g i = Some node →
  update g i m adds rems
  = (mkGraph
       (set (nodes g) i
          (mkNode (id node)
             (match m with Some m' => stored_metadata m' | None => metadata node end)
             ((edges node ∪ accepted_targets (nodes g) (targets_of adds))
                ∖ list_to_set (targets_of rems))))
       (match m with
        | Some m' => rekey (content_hash_to_id_map g) (node_key node) (_get_hash m') i
        | None => content_hash_to_id_map g
        end)
       (bm25_attrs g), true).
Proof.
  intros Hn. unfold update. rewrite Hn.
  assert (Hadd : ∀ n, match adds with
                      | None => n
                      | Some targets => add_connections_loop (nodes g) n targets
                      end = add_connections_loop (nodes g) n (targets_of adds))
    by (by destruct adds).
  assert (Hrem : ∀ n, match rems with
                      | None => n
                      | Some targets => remove_connections_loop n targets
                      end = remove_connections_loop n (targets_of rems))
    by (by destruct rems).
  destruct m as [m'|].
  - fold (node_key node) (node_key (update_metadata node m')).
    rewrite node_key_update_metadata, Hadd, Hrem.
    rewrite add_connections_loop_eq, remove_connections_loop_eq.
    by destruct m'.
  - rewrite Hadd, Hrem.
    by rewrite add_connections_loop_eq, remove_connections_loop_eq.
Qed.

Lemma update_absent g i m adds rems :
  get_node g i = None → update g i m adds rems = (g, false).
Proof. intros Hn. unfold update. by rewrite Hn. Qed.

Lemma update_keys g i m adds rems :
  keys (nodes (update g i m adds rems).1) = keys (nodes g).
Proof.
  destruct (get_node g i) as [node|] eqn:Hn.
  - rewrite (update_present g i node m adds rems Hn). cbn [fst nodes].
    apply keys_set_present. unfold get_node in Hn. by rewrite Hn.
  - by rewrite update_absent.
Qed.

Lemma add_edge_keys g a b : keys (nodes (add_edge g a b).1) = keys (nodes g).
Proof.
  destruct (get_node g a) as [src|] eqn:Ha; [|by rewrite add_edge_absent by by left].
  destruct (get_node g b) as [tgt|] eqn:Hb; [|by rewrite add_edge_absent by by right].
  rewrite (add_edge_present g a b src Ha) by (by rewrite Hb). cbn [fst set_nodes nodes].
  apply keys_set_present. unfold get_node in Ha. by rewrite Ha.
Qed.

Lemma write_same_key g m1 m2 c1 c2 u1 u2 :
  _get_hash m2 = _get_hash m1 →
  (write (write g m1 c1 u1).1 m2 c2 u2).2 = (write g m1 c1 u1).2
  ∧ keys (nodes (write (write g m1 c1 u1).1 m2 c2 u2).1)
    = keys (nodes (write g m1 c1 u1).1).
Proof.
  intros Hkey. pose proof (write_maps_key g m1 c1 u1) as Hmap.
  rewrite <-Hkey in Hmap. rewrite (write_eq _ m2), (add_node_existing _ _ _ _ Hmap).
  cbn [fst snd]. split; [done |]. destruct c2; [apply connect_all_keys | done].
Qed.

Lemma connect_all_metadata targets g a c :
  metadata <$> get_node (connect_all g a targets) c = metadata <$> get_node g c.
Proof.
  destruct (get_node g a) as [src|] eqn:Ha; [|by rewrite connect_all_absent].
  rewrite (connect_all_present targets g a src Ha). unfold get_node in *.
  cbn [set_nodes nodes]. destruct (decide (a = c)) as [<-|Hne].
  - by rewrite get_set_eq, Ha.
  - by rewrite get_set_ne.
Qed.

End MoreGraphStore.

(** X1. The dedup key does not tell a bare text from a mapping with
    that [content]: after [write(s)], a write of any mapping whose
    [content] renders as [s] returns the id of the first write, creates
    no node, and leaves the stored metadata of every node as it was, so
    the other fields of the mapping are not recorded. *)
Theorem write_dedup_across_forms
    (g : MemoryGraph) (s : string) (d : PyDict.t py_value) (v : py_value)
    (c1 c2 : option (list string)) (u1 u2 : string) :
  PyDict.get d "content" = Some v → py_str v = s →
  (write (write g (MetaStr s) c1 u1).1 (MetaDict d) c2 u2).2
  = (write g (MetaStr s) c1 u1).2
  ∧ PyDict.keys (nodes (write (write g (MetaStr s) c1 u1).1 (MetaDict d) c2 u2).1)
    = PyDict.keys (nodes (write g (MetaStr s) c1 u1).1)
  ∧ ∀ c, metadata <$> get_node (write (write g (MetaStr s) c1 u1).1 (MetaDict d) c2 u2).1 c
         = metadata <$> get_node (write g (MetaStr s) c1 u1).1 c.
Proof.
  intros Hd Hv.
  assert (Hkey : _get_hash (MetaDict d) = _get_hash (MetaStr s))
    by (cbn [_get_hash]; by rewrite Hd).
  destruct (write_same_key g (MetaStr s) (MetaDict d) c1 c2 u1 u2 Hkey) as [Hid Hkeys].
  split; [done |]. split; [done |]. intros c.
  pose proof (write_maps_key g (MetaStr s) c1 u1) as Hmap. rewrite <-Hkey in Hmap.
  rewrite (write_eq _ (MetaDict d)), (add_node_existing _ _ _ _ Hmap). cbn [fst snd].
  destruct c2; [apply connect_all_metadata | done].
Qed.

Lemma write_dedup_across_forms_witness :
  (write (write MemoryGraph_init (MetaStr "7") None "x").1
         (MetaDict [("tag", PyStr "t"); ("content", PyInt 7)]) None "y").2
  = (write MemoryGraph_init (MetaStr "7") None "x").2.
Proof.
  destruct (write_dedup_across_forms MemoryGraph_init "7"
              [("tag", PyStr "t"); ("content", PyInt 7)] (PyInt 7) None None "x" "y")
    as (Hid & _ & _).
  - reflexivity.
  - vm_compute. reflexivity.
  - exact Hid.
Defined.

(** X2. Edges form a set: adding an edge that is already there changes
    nothing, so two [add_edge(a, b)] in a row leave the graph as the
    first one did and report the same outcome. *)
Theorem add_edge_twice (g : MemoryGraph) (a b : string) :
  add_edge (add_edge g a b).1 a b = add_edge g a b.
Proof.
  destruct (get_node g a) as [src|] eqn:Ha; cycle 1.
  { rewrite (add_edge_absent g a b) by (by left). cbn [fst].
    by rewrite add_edge_absent by by left. }
  destruct (get_node g b) as [tgt|] eqn:Hb; cycle 1.
  { rewrite (add_edge_absent g a b) by (by right). cbn [fst].
    by rewrite add_edge_absent by by right. }
  rewrite (add_edge_present g a b src Ha) by (by rewrite Hb). cbn [fst].
  erewrite add_edge_present; cycle 1.
  - unfold get_node. cbn [set_nodes nodes]. apply PyDictFacts.get_set_eq.
  - unfold get_node in *. cbn [set_nodes nodes].
    destruct (decide (a = b)) as [<-|Hne].
    + rewrite PyDictFacts.get_set_eq. by eexists.
    + rewrite PyDictFacts.get_set_ne by done. by rewrite Hb.
  - unfold set_nodes. cbn [nodes content_hash_to_id_map bm25_attrs].
    rewrite set_set. do 3 f_equal. unfold node_add_edge. cbn [id metadata edges].
    f_equal. set_solver.
Qed.

(** X3. A write of a key the index does not hold, with an unused id,
    creates one node at the end of the graph under the id drawn; the
    node stores the metadata handed in (a bare text under [content]),
    its edges are the non-empty connection ids that are nodes of the
    graph then (missing ones are skipped without an error), the key is
    mapped to the new id, and the nodes already there are untouched. *)
Theorem write_new_node
    (g : MemoryGraph) (m : py_metadata) (connections : option (list string))
    (uuid : string) :
  content_hash_to_id_map g !! _get_hash m = None →
  get_node g uuid = None →
  ∃ g' node,
    write g m connections uuid = (g', uuid)
    ∧ PyDict.keys (nodes g') = (PyDict.keys (nodes g) ++ [uuid])%list
    ∧ get_node g' uuid = Some node
    ∧ id node = uuid
    ∧ metadata node = stored_metadata m
    ∧ edges node
      = accepted_targets (PyDict.set (nodes g) uuid (MemoryNode_init uuid m))
                         (targets_of connections)
    ∧ content_hash_to_id_map g' = <[_get_hash m := uuid]> (content_hash_to_id_map g)
    ∧ ∀ c, c ≠ uuid → get_node g' c = get_node g c.
Proof.
  intros Hkey Hfresh. rewrite write_eq, (add_node_fresh _ _ _ Hkey). cbn [fst snd].
  set (g1 := mkGraph _ _ _).
  assert (Hg1 : get_node g1 uuid = Some (MemoryNode_init uuid m)).
  { unfold get_node, g1. cbn [nodes]. apply PyDictFacts.get_set_eq. }
  exists (connect_all g1 uuid (targets_of connections)),
         (mkNode uuid (stored_metadata m)
                 (accepted_targets (nodes g1) (targets_of connections) ∪ ∅)).
  assert (Hsame : match connections with
                  | Some targets => connect_all g1 uuid targets
                  | None => g1
                  end = connect_all g1 uuid (targets_of connections))
    by (by destruct connections).
  rewrite Hsame. split; [done |].
  rewrite (connect_all_present _ g1 uuid _ Hg1).
  unfold get_node, g1 in *. cbn [set_nodes nodes content_hash_to_id_map].
  rewrite set_set. split; [by apply PyDictFacts.keys_set_absent |].
  split; [by rewrite PyDictFacts.get_set_eq; destruct m |].
  split; [done |]. split; [done |]. split; [by rewrite (right_id_L ∅ (∪)) |].
  split; [done |]. intros c Hc. by apply PyDictFacts.get_set_ne.
Qed.

Lemma write_new_node_witness :
  ∃ g' node,
    write graph_AB (MetaStr "C") (Some ["x"; "nowhere"; ""]) "z" = (g', "z")
    ∧ get_node g' "z" = Some node
    ∧ edges node
      = accepted_targets (PyDict.set (nodes graph_AB) "z" (MemoryNode_init "z" (MetaStr "C")))
                         ["x"; "nowhere"; ""].
Proof.
  destruct (write_new_node graph_AB (MetaStr "C") (Some ["x"; "nowhere"; ""]) "z")
    as (g' & node & Hw & _ & Hget & _ & _ & Hedges & _).
  - reflexivity.
  - reflexivity.
  - exists g', node. repeat split; assumption.
Defined.

(** X4. No operation of the graph store removes, renames or reorders a
    node: after [write] the ids already there are still first and in
    the same order, and [update] and [add_edge] keep the list of ids as
    it is. *)
Theorem nodes_are_never_removed
    (g : MemoryGraph) (m : py_metadata) (mo : option py_metadata)
    (c adds rems : option (list string)) (uuid a b : string) :
  PyDict.keys (nodes g) `prefix_of` PyDict.keys (nodes (write g m c uuid).1)
  ∧ PyDict.keys (nodes (update g a mo adds rems).1) = PyDict.keys (nodes g)
  ∧ PyDict.keys (nodes (add_edge g a b).1) = PyDict.keys (nodes g).
Proof.
  split; [|split; [apply update_keys | apply add_edge_keys]].
  rewrite write_eq. cbn [fst].
  destruct c; [rewrite connect_all_keys |]; apply add_node_keys_prefix.
Qed.

(** X5. [update] on an id that is no node returns false and leaves the
    graph as it is. On a node it returns true and changes that node
    only: the metadata is replaced when given (a bare text under
    [content]), the edges gain the non-empty [add_connections] that are
    nodes and then lose every id of [remove_connections], so an id in
    both lists ends up removed; the other nodes and the order of the
    ids are kept. *)
Theorem update_edits_one_node
    (g : MemoryGraph) (i : string) (m : option py_metadata)
    (adds rems : option (list string)) :
  (get_node g i = None → update g i m adds rems = (g, false))
  ∧ (∀ node, get_node g i = Some node →
       ∃ g' node',
         update g i m adds rems = (g', true)
         ∧ get_node g' i = Some node'
         ∧ id node' = id node
         ∧ metadata node'
           = match m with Some m' => stored_metadata m' | None => metadata node end
         ∧ edges node'
           = (edges node ∪ accepted_targets (nodes g) (targets_of adds))
               ∖ list_to_set (targets_of rems)
         ∧ (∀ c, c ≠ i → get_node g' c = get_node g c)
         ∧ PyDict.keys (nodes g') = PyDict.keys (nodes g)).
Proof.
  split; [apply update_absent |]. intros node Hn.
  rewrite (update_present g i node m adds rems Hn). eexists _, _.
  split; [done |]. unfold get_node in *. cbn [nodes].
  split; [apply PyDictFacts.get_set_eq |]. repeat split.
  - intros c Hc. by apply PyDictFacts.get_set_ne.
  - apply PyDictFacts.keys_set_present. by rewrite Hn.
Qed.

Lemma update_edits_one_node_witness :
  update graph_AB "nowhere" (Some (MetaStr "C")) None None = (graph_AB, false)
  ∧ ∃ g' node',
      update graph_AB "y" None (Some ["x"; "y"; "nowhere"]) (Some ["y"]) = (g', true)
      ∧ get_node g' "y" = Some node'
      ∧ edges node'
        = (∅ ∪ accepted_targets (nodes graph_AB) ["x"; "y"; "nowhere"]) ∖ list_to_set ["y"].
Proof.
  destruct (update_edits_one_node graph_AB "nowhere" (Some (MetaStr "C")) None None)
    as [Hno _].
  destruct (update_edits_one_node graph_AB "y" None (Some ["x"; "y"; "nowhere"])
              (Some ["y"])) as [_ Hyes].
  split; [apply Hno; reflexivity |].
  destruct (Hyes (MemoryNode_init "y" (MetaStr "B")))
    as (g' & node' & Hu & Hget & _ & _ & Hedges & _); [reflexivity |].
  exists g', node'. repeat split; assumption.
Defined.

(** X6. The dedup index follows an update: once [update(i, m)] has
    replaced the metadata of a node, a write of anything with the key
    of [m] returns [i] and creates no node; and when the old key of the
    node differs from the new one it is free again, so a write of
    content with the old key creates a new node under the id drawn. *)
Theorem update_then_write
    (g : MemoryGraph) (i : string) (node : MemoryNode) (m m' : py_metadata)
    (adds rems c : option (list string)) (uuid : string) :
  get_node g i = Some node →
  ((_get_hash m' = _get_hash m →
     (write (update g i (Some m) adds rems).1 m' c uuid).2 = i
     ∧ PyDict.keys (nodes (write (update g i (Some m) adds rems).1 m' c uuid).1)
       = PyDict.keys (nodes g))
   ∧ (_get_hash m' = node_key node → node_key node ≠ _get_hash m →
      (write (update g i (Some m) adds rems).1 m' c uuid).2 = uuid)).
Proof.
  intros Hn. rewrite (update_present g i node (Some m) adds rems Hn). cbn [fst].
  set (g1 := mkGraph _ _ _).
  assert (Hk1 : PyDict.keys (nodes g1) = PyDict.keys (nodes g)).
  { unfold g1. cbn [nodes]. apply PyDictFacts.keys_set_present.
    unfold get_node in Hn. by rewrite Hn. }
  split.
  - intros Hkey.
    assert (Hmap : content_hash_to_id_map g1 !! _get_hash m' = Some i).
    { unfold g1. cbn [content_hash_to_id_map]. rewrite rekey_eq, Hkey.
      apply lookup_insert_eq. }
    rewrite write_eq, (add_node_existing _ _ _ _ Hmap). cbn [fst snd].
    split; [done |]. destruct c; [by rewrite connect_all_keys | done].
  - intros Hold Hne.
    assert (Hmap : content_hash_to_id_map g1 !! _get_hash m' = None).
    { unfold g1. cbn [content_hash_to_id_map]. rewrite rekey_eq, Hold.
      rewrite lookup_insert_ne by done. apply lookup_delete_eq. }
    by rewrite write_eq, (add_node_fresh _ _ _ Hmap).
Qed.

Lemma update_then_write_witness :
  (write (update graph_AB "y" (Some (MetaStr "C")) None None).1
         (MetaDict [("content", PyStr "C")]) None "z").2 = "y"
  ∧ (write (update graph_AB "y" (Some (MetaStr "C")) None None).1
           (MetaStr "B") None "z").2 = "z".
Proof.
  destruct (update_then_write graph_AB "y" (MemoryNode_init "y" (MetaStr "B"))
              (MetaStr "C") (MetaDict [("content", PyStr "C")]) None None None "z")
    as [Hnew _]; [reflexivity |].
  destruct (update_then_write graph_AB "y" (MemoryNode_init "y" (MetaStr "B"))
              (MetaStr "C") (MetaStr "B") None None None "z")
    as [_ Hold]; [reflexivity |].
  split.
  - apply Hnew. reflexivity.
  - apply Hold; [reflexivity | discriminate].
Defined.

(** ** Invariants of the graph *)

Section Invariants.
Import PyDict PyDictFacts.

Lemma elem_of_set {V} (d : t V) k v i n :
  (i, n) ∈ set d k v → (i = k ∧ n = v) ∨ (i, n) ∈ d.
Proof.
  induction d as [|[k0 v0] d IH]; cbn [set].
  - intros [= -> ->]%list_elem_of_singleton. by left.
  - case_bool_decide as Hk.
    + intros [[= -> ->]|Hin]%elem_of_cons; [by left |].
      right. by apply list_elem_of_further.
    + intros [[= -> ->]|Hin]%elem_of_cons; [right; apply list_elem_of_here |].
      destruct (IH Hin) as [?|?]; [by left |]. right. by apply list_elem_of_further.
Qed.

Lemma get_set_is_Some {V} (d : t V) k v j :
  is_Some (get d j) → is_Some (get (set d k v) j).
Proof.
  intros Hj. destruct (decide (k = j)) as [<-|Hne].
  - rewrite get_set_eq. by eexists.
  - by rewrite get_set_ne.
Qed.

Lemma elem_of_accepted_targets ns targets v :
  v ∈ accepted_targets ns targets → is_Some (get ns v) ∧ v ∈ targets.
Proof.
  unfold accepted_targets. rewrite elem_of_list_to_set, list_elem_of_filter.
  intros [[_ Hm]%andb_prop_elim Hv]. split; [|done].
  apply mem_true. by apply Is_true_true.
Qed.

(** Replacing a node by one whose edges are old edges or nodes keeps
    the edges closed. *)
Lemma edges_closed_replace g a src n' index attrs :
  edges_closed g → get_node g a = Some src →
  (∀ v, v ∈ edges n' → v ∈ edges src ∨ is_Some (get_node g v)) →
  edges_closed (mkGraph (set (nodes g) a n') index attrs).
Proof.
  intros Hc Ha Hn' i n v Hin Hv. unfold get_node in *. cbn [nodes] in *.
  apply get_set_is_Some. apply elem_of_set in Hin as [[-> ->]|Hin].
  - destruct (Hn' v Hv) as [Hold|Hnode]; [|done].
    apply (Hc a src v); [by apply get_elem_of | done].
  - by apply (Hc i n v).
Qed.

Lemma edges_closed_add_node g m uuid : edges_closed g → edges_closed (add_node g m uuid).1.
Proof.
  intros Hc. unfold add_node.
  destruct (content_hash_to_id_map g !! _get_hash m); [done |].
  intros i n v Hin Hv. unfold get_node in *. cbn [fst set_hash_map set_nodes nodes id
    MemoryNode_init] in *.
  apply get_set_is_Some. apply elem_of_set in Hin as [[-> ->]|Hin].
  - by apply not_elem_of_empty in Hv.
  - by apply (Hc i n v).
Qed.

Lemma edges_closed_connect_all targets g a :
  edges_closed g → edges_closed (connect_all g a targets).
Proof.
  intros Hc. destruct (get_node g a) as [src|] eqn:Ha; [|by rewrite connect_all_absent].
  rewrite (connect_all_present targets g a src Ha).
  apply (edges_closed_replace g a src); [done | done |].
  intros v [Hv|Hv]%elem_of_union; [right | by left].
  by apply elem_of_accepted_targets in Hv as [? _].
Qed.

Lemma node_key_same_metadata n n' : metadata n' = metadata n → node_key n' = node_key n.
Proof. unfold node_key. by intros ->. Qed.

Lemma index_sound_replace g a src n' attrs :
  index_sound g → get_node g a = Some src → metadata n' = metadata src →
  index_sound (mkGraph (set (nodes g) a n') (content_hash_to_id_map g) attrs).
Proof.
  intros Hs Ha Hmeta k i Hk. unfold get_node in *. cbn [nodes content_hash_to_id_map] in *.
  destruct (Hs k i Hk) as (n & Hn & Hkey). unfold get_node in Hn.
  destruct (decide (a = i)) as [<-|Hne].
  - rewrite get_set_eq. exists n'. split; [done |].
    rewrite Ha in Hn. injection Hn as <-. by rewrite (node_key_same_metadata src n').
  - exists n. by rewrite get_set_ne.
Qed.

End Invariants.

(** X7. Every edge points to a node, and stays so: if all edge targets
    of a graph are nodes of the graph, the same holds after any
    [write], [update] or [add_edge], whatever their arguments. The
    empty graph has the property, so every graph built through these
    operations has it. *)
Theorem edges_stay_closed
    (g : MemoryGraph) (m : py_metadata) (mo : option py_metadata)
    (c adds rems : option (list string)) (uuid a b : string) :
  edges_closed g →
  edges_closed (write g m c uuid).1
  ∧ edges_closed (update g a mo adds rems).1
  ∧ edges_closed (add_edge g a b).1.
Proof.
  intros Hc. split; [|split].
  - rewrite write_eq. cbn [fst]. pose proof (edges_closed_add_node g m uuid Hc).
    destruct c; [by apply edges_closed_connect_all | done].
  - destruct (get_node g a) as [node|] eqn:Hn; [|by rewrite update_absent].
    rewrite (update_present g a node mo adds rems Hn). cbn [fst].
    apply (edges_closed_replace g a node); [done | done |]. cbn [edges].
    intros v [[Hv|Hv]%elem_of_union _]%elem_of_difference; [by left | right].
    by apply elem_of_accepted_targets in Hv as [? _].
  - destruct (get_node g a) as [src|] eqn:Ha; [|by rewrite add_edge_absent by by left].
    destruct (get_node g b) as [tgt|] eqn:Hb; [|by rewrite add_edge_absent by by right].
    rewrite (add_edge_present g a b src Ha) by (by rewrite Hb). cbn [fst].
    apply (edges_closed_replace g a src); [done | done |]. cbn [node_add_edge edges].
    intros v [->%elem_of_singleton|Hv]%elem_of_union; [right | by left].
    by rewrite Hb.
Qed.

Lemma edges_stay_closed_witness :
  edges_closed (write MemoryGraph_init (MetaStr "A") (Some ["nowhere"]) "x").1.
Proof.
  destruct (edges_stay_closed MemoryGraph_init (MetaStr "A") None
              (Some ["nowhere"]) None None "x" "x" "x") as (Hw & _ & _).
  - intros i n v Hin. by apply elem_of_nil in Hin.
  - exact Hw.
Defined.

(** X8. No index entry dangles, and none comes to: if every entry of
    the dedup index points to a node that carries the entry's key, the
    same holds after any [update], and after any [write] whose drawn id
    is unused. *)
Theorem index_stays_sound
    (g : MemoryGraph) (m : py_metadata) (mo : option py_metadata)
    (c adds rems : option (list string)) (uuid a : string) :
  index_sound g →
  (get_node g uuid = None → index_sound (write g m c uuid).1)
  ∧ index_sound (update g a mo adds rems).1.
Proof.
  intros Hs. split.
  - intros Hfresh. rewrite write_eq. cbn [fst].
    assert (Hadd : index_sound (add_node g m uuid).1).
    { destruct (content_hash_to_id_map g !! _get_hash m) as [i|] eqn:Hkey.
      - by rewrite (add_node_existing _ _ _ _ Hkey).
      - rewrite (add_node_fresh _ _ _ Hkey). cbn [fst].
        intros k i. unfold get_node in *. cbn [nodes content_hash_to_id_map].
        destruct (decide (_get_hash m = k)) as [<-|Hne].
        + rewrite lookup_insert_eq. intros [= <-]. exists (MemoryNode_init uuid m).
          split; [apply PyDictFacts.get_set_eq | apply node_key_init].
        + rewrite lookup_insert_ne by done. intros Hk.
          destruct (Hs _ _ Hk) as (n & Hn & Hnk). unfold get_node in Hn.
          exists n. split; [|done]. rewrite PyDictFacts.get_set_ne; [done | congruence]. }
    destruct c as [targets|]; [|done].
    destruct (get_node (add_node g m uuid).1 (add_node g m uuid).2) as [src|] eqn:Ha;
      [|by rewrite connect_all_absent].
    rewrite (connect_all_present targets _ _ src Ha).
    by apply (index_sound_replace _ _ src).
  - destruct (get_node g a) as [node|] eqn:Hn; [|by rewrite update_absent].
    rewrite (update_present g a node mo adds rems Hn). cbn [fst].
    destruct mo as [m'|]; [|by apply (index_sound_replace g a node)].
    intros k i. unfold get_node in *. cbn [nodes content_hash_to_id_map]. rewrite rekey_eq.
    destruct (decide (_get_hash m' = k)) as [<-|Hne].
    + rewrite lookup_insert_eq. intros [= <-]. eexists.
      split; [apply PyDictFacts.get_set_eq |]. by destruct m'.
    + rewrite lookup_insert_ne by done.
      destruct (decide (node_key node = k)) as [<-|Hne'];
        [by rewrite lookup_delete_eq |].
      rewrite lookup_delete_ne by done. intros Hk.
      destruct (Hs _ _ Hk) as (n & Hget & Hnk). unfold get_node in Hget.
      exists n. split; [|done]. rewrite PyDictFacts.get_set_ne; [done |].
      intros <-. rewrite Hn in Hget. injection Hget as <-. done.
Qed.

Lemma index_stays_sound_witness :
  index_sound (update (write MemoryGraph_init (MetaStr "A") None "x").1
                      "x" (Some (MetaStr "B")) None None).1.
Proof.
  assert (H0 : index_sound MemoryGraph_init).
  { intros k i Hk. cbn in Hk. by rewrite lookup_empty in Hk. }
  destruct (index_stays_sound MemoryGraph_init (MetaStr "A") None None None None
              "x" "x" H0) as [Hw _].
  destruct (index_stays_sound (write MemoryGraph_init (MetaStr "A") None "x").1
              (MetaStr "A") (Some (MetaStr "B")) None None None "x" "x") as [_ Hu].
  - apply Hw. reflexivity.
  - exact Hu.
Defined.

(** ** Further properties of the exploration *)

Lemma within_app ns s1 s2 n v :
  within ns (s1 ++ s2) n v ↔ within ns s1 n v ∨ within ns s2 n v.
Proof.
  revert v. induction n as [|n IH]; intros v; cbn [within].
  - apply elem_of_app.
  - rewrite (IH v). split.
    + intros [[?|?]|(u & node & Hu & Hnode & Hv)]; [tauto | tauto |].
      apply IH in Hu as [Hu|Hu]; [left | right]; right; by exists u, node.
    + intros [[?|(u & node & Hu & Hnode & Hv)]|[?|(u & node & Hu & Hnode & Hv)]];
        [tauto | | tauto |]; right; exists u, node; (split; [|done]); apply IH; tauto.
Qed.

Lemma within_seed_ext ns s1 s2 n v :
  (∀ u, u ∈ s1 ↔ u ∈ s2) → within ns s1 n v ↔ within ns s2 n v.
Proof.
  intros Hs. revert v. induction n as [|n IH]; intros v; cbn [within]; [apply Hs |].
  rewrite (IH v). split; intros [?|(u & node & Hu & Hnode & Hv)]; try tauto;
    right; exists u, node; (split; [|done]); by apply IH.
Qed.

Lemma within_compose ns seeds mid n1 n2 v :
  (∀ u, u ∈ mid ↔ within ns seeds n1 u) →
  within ns mid n2 v ↔ within ns seeds (n1 + n2) v.
Proof.
  intros Hmid. revert v. induction n2 as [|n2 IH]; intros v.
  - rewrite Nat.add_0_r. apply Hmid.
  - rewrite Nat.add_succ_r. cbn [within]. rewrite (IH v).
    split; intros [?|(u & node & Hu & Hnode & Hv)]; try tauto;
      right; exists u, node; (split; [|done]); by apply IH.
Qed.

Lemma within_bounded ns seeds n v :
  within ns seeds n v → v ∈ seeds ∨ v ∈ edge_targets ns.
Proof.
  revert v. induction n as [|n IH]; intros v; cbn [within]; [tauto |].
  intros [Hv|(u & node & _ & Hnode & Hv)]; [by apply IH |].
  right. by eapply edges_in_targets.
Qed.

(** X9. Exploring [d1] hops and then [d2] more from everything found
    gives what exploring [d1 + d2] hops gives (for depths that are not
    negative). *)
Theorem bfs_exploration_compose
    (g : MemoryGraph) (seeds : list string) (d1 d2 : Z) :
  0 ≤ d1 → 0 ≤ d2 →
  ∃ r1 r,
    bfs_exploration g seeds d1 = Some r1
    ∧ bfs_exploration g (elements r1) d2 = Some r
    ∧ bfs_exploration g seeds (d1 + d2) = Some r.
Proof.
  intros H1 H2.
  destruct (bfs_exploration_spec g seeds d1) as (r1 & Hr1 & Hs1).
  destruct (bfs_exploration_spec g (elements r1) d2) as (r & Hr & Hs).
  destruct (bfs_exploration_spec g seeds (d1 + d2)) as (r' & Hr' & Hs').
  exists r1, r. split; [done |]. split; [done |]. rewrite Hr'. f_equal.
  apply set_eq. intros v. rewrite Hs, Hs', Z2Nat.inj_add by done.
  symmetry. apply within_compose. intros u. by rewrite elem_of_elements.
Qed.

Lemma bfs_exploration_compose_witness :
  ∃ r1 r,
    bfs_exploration graph_AB ["y"] 1 = Some r1
    ∧ bfs_exploration graph_AB (elements r1) 2 = Some r
    ∧ bfs_exploration graph_AB ["y"] (1 + 2) = Some r.
Proof. apply (bfs_exploration_compose graph_AB ["y"] 1 2); lia. Defined.

(** X10. Exploring from several seeds is exploring from each and
    taking the union: [bfs(s1 + s2, d)] is the union of [bfs(s1, d)]
    and [bfs(s2, d)]. *)
Theorem bfs_exploration_union
    (g : MemoryGraph) (s1 s2 : list string) (max_depth : Z) :
  ∃ r1 r2,
    bfs_exploration g s1 max_depth = Some r1
    ∧ bfs_exploration g s2 max_depth = Some r2
    ∧ bfs_exploration g (s1 ++ s2) max_depth = Some (r1 ∪ r2).
Proof.
  destruct (bfs_exploration_spec g s1 max_depth) as (r1 & Hr1 & Hs1).
  destruct (bfs_exploration_spec g s2 max_depth) as (r2 & Hr2 & Hs2).
  destruct (bfs_exploration_spec g (s1 ++ s2) max_depth) as (r & Hr & Hs).
  exists r1, r2. split; [done |]. split; [done |]. rewrite Hr. f_equal.
  apply set_eq. intros v. rewrite elem_of_union, Hs, Hs1, Hs2. apply within_app.
Qed.

(** X11. The result of an exploration depends on which ids are seeds,
    not on their order or on repetitions in the seed list. *)
Theorem bfs_exploration_seed_set
    (g : MemoryGraph) (s1 s2 : list string) (max_depth : Z) :
  (list_to_set s1 : gset string) = list_to_set s2 →
  bfs_exploration g s1 max_depth = bfs_exploration g s2 max_depth.
Proof.
  intros Heq.
  destruct (bfs_exploration_spec g s1 max_depth) as (r1 & -> & Hs1).
  destruct (bfs_exploration_spec g s2 max_depth) as (r2 & -> & Hs2).
  f_equal. apply set_eq. intros v. rewrite Hs1, Hs2. apply within_seed_ext.
  intros u. by rewrite <-!(elem_of_list_to_set (C := gset string)), Heq.
Qed.

Lemma bfs_exploration_seed_set_witness :
  bfs_exploration graph_AB ["x"; "y"; "x"] 1 = bfs_exploration graph_AB ["y"; "x"] 1.
Proof.
  apply (bfs_exploration_seed_set graph_AB ["x"; "y"; "x"] ["y"; "x"] 1).
  vm_compute. reflexivity.
Defined.

(** X12. A depth of zero or less explores nothing: the result is the
    set of the seeds. *)
Theorem bfs_exploration_nonpositive_depth
    (g : MemoryGraph) (seeds : list string) (max_depth : Z) :
  max_depth ≤ 0 → bfs_exploration g seeds max_depth = Some (list_to_set seeds).
Proof.
  intros Hd. destruct (bfs_exploration_spec g seeds max_depth) as (r & -> & Hs).
  f_equal. apply set_eq. intros v. rewrite Hs, elem_of_list_to_set.
  by replace (Z.to_nat max_depth) with 0%nat by lia.
Qed.

Lemma bfs_exploration_nonpositive_depth_witness :
  bfs_exploration graph_AB ["y"; "nowhere"] (-3) = Some (list_to_set ["y"; "nowhere"]).
Proof. apply (bfs_exploration_nonpositive_depth graph_AB ["y"; "nowhere"] (-3)). lia. Defined.

(** X13. An exploration finds seeds and edge targets only; in a graph
    whose edges all point to nodes, exploring from nodes finds nodes
    only. *)
Theorem bfs_exploration_stays_in_graph
    (g : MemoryGraph) (seeds : list string) (max_depth : Z) :
  ∃ r,
    bfs_exploration g seeds max_depth = Some r
    ∧ r ⊆ list_to_set seeds ∪ edge_targets (nodes g)
    ∧ (edges_closed g → (∀ s, s ∈ seeds → is_Some (get_node g s)) →
       ∀ v, v ∈ r → is_Some (get_node g v)).
Proof.
  destruct (bfs_exploration_spec g seeds max_depth) as (r & Hr & Hs).
  exists r. split; [done |]. split.
  - intros v Hv%Hs%within_bounded. rewrite elem_of_union, elem_of_list_to_set. done.
  - intros Hc Hseeds v Hv%Hs. by eapply within_nodes.
Qed.

Lemma bfs_exploration_stays_in_graph_witness :
  ∃ r, bfs_exploration graph_AB ["x"] 5 = Some r ∧ ∀ v, v ∈ r → is_Some (get_node graph_AB v).
Proof.
  destruct (bfs_exploration_stays_in_graph graph_AB ["x"] 5) as (r & Hr & _ & Hin).
  exists r. split; [exact Hr |]. apply Hin.
  - destruct graph_AB_searchable as (_ & Hc & _). exact Hc.
  - intros s ->%list_elem_of_singleton. by eexists.
Defined.

(** ** Further properties of retrieval *)

Lemma StronglySorted_take {A} (R : relation A) n l :
  StronglySorted R l → StronglySorted R (take n l).
Proof.
  intros Hs. rewrite <-(take_drop n l) in Hs. by apply StronglySorted_app_1_l in Hs.
Qed.

Lemma StronglySorted_omap {A B} (R : relation A) (R' : relation B) (f : A → option B) l :
  (∀ x y x' y', f x = Some x' → f y = Some y' → R x y → R' x' y') →
  StronglySorted R l → StronglySorted R' (omap f l).
Proof.
  intros Hf. induction 1 as [|x l Hs IH Hx]; [apply SSorted_nil |]. csimpl.
  destruct (f x) as [x'|] eqn:Ex; [|done]. apply SSorted_cons; [done |].
  apply Forall_forall. intros y' (y & Hy & Ey)%list_elem_of_omap.
  rewrite Forall_forall in Hx. apply (Hf x y x' y' Ex Ey). by apply Hx.
Qed.

Lemma slice_to_take {A} (l : list A) k : ∃ n, slice_to l k = take n l.
Proof. unfold slice_to. case_bool_decide; by eexists. Qed.

Lemma sim_desc_trans : Transitive sim_desc.
Proof. intros a b c Hab Hbc. unfold sim_desc in *. by eapply Qle_trans. Qed.

Lemma sim_ge_true a b : sim_ge a b = true → sim_desc a b.
Proof. unfold sim_ge, sim_desc. apply Qle_bool_iff. Qed.

Lemma sim_ge_false a b : sim_ge a b = false → sim_desc b a.
Proof.
  unfold sim_ge, sim_desc. intros Hf. apply Qlt_le_weak, Qnot_le_lt.
  intros Hle. apply Qle_bool_iff in Hle. congruence.
Qed.

Section MoreRetrieval.
Context {providers : Providers}.
Import PyDict PyDictFacts.

Lemma bm25_search_frame g query top_k :
  nodes (bm25_search g query top_k).1 = nodes g
  ∧ content_hash_to_id_map (bm25_search g query top_k).1 = content_hash_to_id_map g.
Proof.
  unfold bm25_search. destruct (bm25_stale g).
  - unfold bm25_setup. destruct (all_ok _); [|done].
    destruct (bm25_fits _); cbn [set_bm25_attrs bm25_attrs]; done.
  - by destruct (bm25_attrs g).
Qed.

Lemma search_frame g query top_k bfs_depth bm25_candidates :
  nodes (search g query top_k bfs_depth bm25_candidates).1 = nodes g
  ∧ content_hash_to_id_map (search g query top_k bfs_depth bm25_candidates).1
    = content_hash_to_id_map g.
Proof.
  unfold search. destruct (nodes g) eqn:Hn; cbn beta iota; rewrite <-?Hn; [done |].
  pose proof (bm25_search_frame g query bm25_candidates) as [Hf1 Hf2].
  destruct (bm25_search g query bm25_candidates) as [g1 [ids|]]; cbn [fst] in *;
    [|done].
  destruct (bfs_exploration g1 ids bfs_depth) as [r|]; [|done].
  by destruct (semantic_search g1 query (elements r) top_k).
Qed.

(** What [search] returns, traced back to [semantic_search]. *)
Lemma search_results g query top_k bfs_depth bm25_candidates l :
  (search g query top_k bfs_depth bm25_candidates).2 = Ok l →
  l = [] ∨ ∃ g1 cands sr,
    nodes g1 = nodes g
    ∧ semantic_search g1 query cands top_k = Ok sr
    ∧ l = prepare_results g1 sr.
Proof.
  unfold search. destruct (nodes g) eqn:Hn; [intros [= <-]; by left |].
  pose proof (bm25_search_frame g query bm25_candidates) as [Hf1 _].
  destruct (bm25_search g query bm25_candidates) as [g1 [ids|]]; cbn [fst] in *; [|done].
  destruct (bfs_exploration g1 ids bfs_depth) as [r|]; [|done].
  destruct (semantic_search g1 query (elements r) top_k) as [sr|] eqn:Hsr; [|done].
  intros [= <-]. right. exists g1, (elements r), sr. by rewrite Hf1, Hn.
Qed.

Lemma semantic_search_sorted g query cands top_k sr :
  semantic_search g query cands top_k = Ok sr → StronglySorted sim_desc sr.
Proof.
  intros [[_ ->]|(candidates & sims & _ & _ & _ & ->)]%semantic_search_Ok;
    [apply SSorted_nil |].
  destruct (slice_to_take (stable_sort sim_ge
              (zip_with (λ c s, (c.1, s)) candidates sims)) top_k) as [n ->].
  apply StronglySorted_take, stable_sort_sorted_by;
    [apply sim_ge_true | apply sim_ge_false | apply sim_desc_trans].
Qed.

Lemma length_set_present {V} (d : t V) k v : is_Some (get d k) → length (set d k v) = length d.
Proof.
  intros Hk. rewrite <-(length_fmap fst (set d k v)), <-(length_fmap fst d).
  fold (keys (set d k v)) (keys d). by rewrite keys_set_present.
Qed.

Lemma lookups_seq {A} (l : list A) : (l !!.) <$> seq 0 (length l) = Some <$> l.
Proof.
  apply list_eq. intros i. rewrite !list_lookup_fmap.
  destruct (decide (i < length l)%nat) as [Hlt|Hge].
  - rewrite lookup_seq_lt by done. cbn.
    destruct (lookup_lt_is_Some_2 l i Hlt) as [x Hx]. by rewrite Hx.
  - rewrite lookup_seq_ge by lia. by rewrite lookup_ge_None_2 by lia.
Qed.

Lemma omap_Some {A} (l : list A) : omap (λ o : option A, o) (Some <$> l) = l.
Proof. induction l as [|x l IH]; [done |]. csimpl. by rewrite IH. Qed.

(** A stale index is rebuilt over all the nodes, in their order. *)
Lemma bm25_search_rebuild g query top_k :
  bm25_stale g = true → texts_are_str g → bm25_fits (current_corpus g) = true →
  bm25_attrs (bm25_search g query top_k).1
  = Some (mkBM25 (current_corpus g) (keys (nodes g)) (Some (current_corpus g))).
Proof.
  intros Hstale Htxt Hfit. unfold bm25_search. rewrite Hstale.
  unfold bm25_setup. by rewrite (tokenize_all g Htxt), Hfit.
Qed.

End MoreRetrieval.

(** X14. [search] reads the graph: for all arguments it leaves the
    nodes and the dedup index as they were (only the attributes of the
    lexical index can change), and every record it returns shows a
    node of the graph: its id, its metadata and its edges as they are
    stored. *)
Theorem search_reads_the_graph {providers : Providers}
    (g : MemoryGraph) (q : string) (k bfs_depth bm25_candidates : Z) :
  nodes (search g q k bfs_depth bm25_candidates).1 = nodes g
  ∧ content_hash_to_id_map (search g q k bfs_depth bm25_candidates).1
    = content_hash_to_id_map g
  ∧ ∀ l, (search g q k bfs_depth bm25_candidates).2 = Ok l →
         ∀ r, r ∈ l →
              ∃ node, get_node g (res_id r) = Some node
                      ∧ res_metadata r = metadata node
                      ∧ res_connections r = elements (edges node).
Proof.
  destruct (search_frame g q k bfs_depth bm25_candidates) as [Hn Hi].
  split; [done |]. split; [done |]. intros l Hl r Hr.
  apply search_results in Hl as [->|(g1 & cands & sr & Hg1 & _ & ->)];
    [by apply elem_of_nil in Hr |].
  unfold prepare_results in Hr. apply list_elem_of_omap in Hr as (p & _ & Hp).
  unfold get_node in *. rewrite Hg1 in Hp. revert Hp.
  destruct (PyDict.get _ _) as [node|] eqn:Hnode; [|done].
  intros [= <-]. exists node. cbn [res_id res_metadata res_connections].
  by rewrite Hnode.
Qed.

Lemma search_reads_the_graph_witness :
  nodes (search (providers := example_providers) graph_AB "a" 5 1 10).1 = nodes graph_AB
  ∧ ∀ l, (search (providers := example_providers) graph_AB "a" 5 1 10).2 = Ok l →
         ∀ r, r ∈ l → ∃ node, get_node graph_AB (res_id r) = Some node.
Proof.
  destruct (search_reads_the_graph (providers := example_providers) graph_AB "a" 5 1 10)
    as (Hn & _ & Hr).
  split; [exact Hn |]. intros l Hl r Hin.
  destruct (Hr l Hl r Hin) as (node & Hnode & _). by exists node.
Defined.

(** X15. The records [search] returns are in descending order of
    score: no record has a higher score than one listed before it. *)
Theorem search_results_descend {providers : Providers}
    (g : MemoryGraph) (q : string) (k bfs_depth bm25_candidates : Z)
    (l : list SearchResult) :
  (search g q k bfs_depth bm25_candidates).2 = Ok l → StronglySorted score_desc l.
Proof.
  intros [->|(g1 & cands & sr & _ & Hsr & ->)]%search_results; [apply SSorted_nil |].
  apply semantic_search_sorted in Hsr. unfold prepare_results.
  eapply StronglySorted_omap; [|exact Hsr].
  intros x y x' y' Hx Hy Hxy.
  destruct (get_node g1 x.1); [|done]. destruct (get_node g1 y.1); [|done].
  injection Hx as <-. injection Hy as <-. exact Hxy.
Qed.

Lemma search_results_descend_witness :
  StronglySorted score_desc
    [mkResult "x" [("content", PyStr "A")] 1%Q [];
     mkResult "y" [("content", PyStr "B")] 0%Q []].
Proof.
  apply (search_results_descend (providers := example_providers) graph_AB "a" 5 1 0).
  vm_compute. reflexivity.
Defined.

(** X16. [semantic_search] raises when a candidate is not a node of the
    graph. When it returns, the pairs are in descending order of
    similarity, each pair is a candidate that is a node, and for
    [top_k >= 0] there are [min(top_k, number of candidates)] pairs.
    When the text content of every candidate is a [str], each pair
    carries the similarity of the query to the text of its node; of a
    text content that is not a [str] the embedding model makes what it
    will, the code does not look at it. *)
Theorem semantic_search_scores {providers : Providers}
    (g : MemoryGraph) (q : string) (cands : list string) (k : Z) :
  (∀ c, c ∈ cands → get_node g c = None → semantic_search g q cands k = Raised)
  ∧ ∀ sr, semantic_search g q cands k = Ok sr →
      StronglySorted sim_desc sr
      ∧ (∀ p, p ∈ sr → p.1 ∈ cands ∧ is_Some (get_node g p.1))
      ∧ ((∀ c node, c ∈ cands → get_node g c = Some node →
                    ∃ text, get_text_content node = PyStr text) →
         ∀ p, p ∈ sr →
              ∃ node text, get_node g p.1 = Some node
                           ∧ get_text_content node = PyStr text
                           ∧ p.2 = similarity q text)
      ∧ (0 ≤ k → length sr = Nat.min (Z.to_nat k) (length cands)).
Proof.
  split.
  - intros c Hc Hnone. unfold semantic_search. destruct cands as [|c0 cs] eqn:E;
      [by apply elem_of_nil in Hc |]. rewrite <-E in *.
    rewrite (all_ok_raised _ cands c Hc); [done |]. unfold get_node in Hnone.
    by rewrite Hnone.
  - intros sr Hsr. split; [by eapply semantic_search_sorted |].
    apply semantic_search_Ok in Hsr
      as [[-> ->]|(candidates & sims & Hall & Hsims & Hlen & ->)].
    { split; [by intros p Hp%elem_of_nil |]. split; [by intros _ p Hp%elem_of_nil |].
      intros _. cbn. lia. }
    set (results := zip_with (λ c s, (c.1, s)) candidates sims).
    assert (Hres : ∀ p, p ∈ slice_to (stable_sort sim_ge results) k →
              ∃ i c s, candidates !! i = Some c ∧ sims !! i = Some s ∧ p = (c.1, s)).
    { intros p Hp.
      destruct (slice_to_take (stable_sort sim_ge results) k) as [n Hn].
      rewrite Hn in Hp. apply (subseteq_take n) in Hp.
      rewrite stable_sort_perm in Hp. apply list_elem_of_lookup in Hp as [i Hi].
      unfold results in Hi. apply lookup_zip_with_Some in Hi as (c & s & -> & Hc & Hs).
      by exists i, c, s. }
    split; [|split].
    + intros p (i & c & s & Hc & _ & ->)%Hres. cbn [fst].
      destruct (Forall2_lookup_r _ _ _ _ _ Hall Hc) as (c' & Hc' & node & Hnode & ->).
      cbn [fst]. split; [by eapply list_elem_of_lookup_2 |].
      unfold get_node. by rewrite Hnode.
    + intros Hstr p (i & c & s & Hc & Hs & ->)%Hres. cbn [fst snd].
      assert (Hstrs : ∃ strs, candidates.*2 = PyStr <$> strs).
      { clear -Hall Hstr. induction Hall as [|c0 x cs xs (node & Hnode & ->) Hall IH];
          [by exists [] |].
        destruct IH as [strs Hstrs].
        { intros c node' Hc. apply Hstr. by apply list_elem_of_further. }
        destruct (Hstr c0 node (list_elem_of_here _ _) Hnode) as [text Htext].
        exists (text :: strs). csimpl. by rewrite Htext, Hstrs. }
      destruct Hstrs as [strs Hstrs].
      unfold similarities in Hsims. rewrite (proj2 (as_strs_Some _ strs) Hstrs) in Hsims.
      injection Hsims as <-.
      destruct (Forall2_lookup_r _ _ _ _ _ Hall Hc) as (c' & Hc' & node & Hnode & ->).
      cbn [fst]. rewrite list_lookup_fmap in Hs.
      destruct (strs !! i) as [text|] eqn:Etext; [|done]. injection Hs as <-.
      exists node, text. unfold get_node. split; [done |]. split; [|done].
      apply (f_equal (λ l, l !! i)) in Hstrs.
      rewrite !list_lookup_fmap, Hc, Etext in Hstrs. cbn in Hstrs. by injection Hstrs.
    + intros Hk. unfold slice_to. rewrite bool_decide_eq_true_2 by done.
      rewrite length_take, stable_sort_length. unfold results.
      rewrite length_zip_with. rewrite <-(Forall2_length _ _ _ Hall) in Hlen |- *. lia.
Qed.

Lemma semantic_search_scores_witness :
  semantic_search (providers := example_providers) graph_AB "a" ["x"; "nowhere"] 3 = Raised
  ∧ ∀ sr, semantic_search (providers := example_providers) graph_AB "a" ["y"; "x"] 1 = Ok sr →
          length sr = Nat.min 1 2.
Proof.
  destruct (semantic_search_scores (providers := example_providers)
              graph_AB "a" ["x"; "nowhere"] 3) as [Hraise _].
  destruct (semantic_search_scores (providers := example_providers)
              graph_AB "a" ["y"; "x"] 1) as [_ Hok].
  split.
  - apply (Hraise "nowhere"); [|reflexivity].
    apply list_elem_of_further, list_elem_of_here.
  - intros sr Hsr. destruct (Hok sr Hsr) as (_ & _ & _ & Hlen). apply Hlen. lia.
Defined.

(** X17. The lexical index is rebuilt when the number of nodes has
    changed, and only then. With an index in place, an [update] (which
    may replace a node's text) leaves it in place, so the next lexical
    query ranks with the corpus as it was before the update; a [write]
    that creates a node makes the index stale, so the next query
    rebuilds it. *)
Theorem index_follows_node_count {providers : Providers}
    (g : MemoryGraph) (q : string) (k : Z) (i uuid : string)
    (mo : option py_metadata) (m : py_metadata) (adds rems c : option (list string)) :
  bm25_stale g = false →
  bm25_stale (update g i mo adds rems).1 = false
  ∧ (bm25_search (update g i mo adds rems).1 q k).2 = (bm25_search g q k).2
  ∧ (content_hash_to_id_map g !! _get_hash m = None → get_node g uuid = None →
     bm25_stale (write g m c uuid).1 = true).
Proof.
  intros Hfresh.
  assert (Hupd : bm25_attrs (update g i mo adds rems).1 = bm25_attrs g
                 ∧ length (nodes (update g i mo adds rems).1) = length (nodes g)).
  { destruct (get_node g i) as [node|] eqn:Hn; [|by rewrite update_absent].
    rewrite (update_present g i node mo adds rems Hn). cbn [fst nodes bm25_attrs].
    split; [done |]. apply length_set_present. unfold get_node in Hn. by rewrite Hn. }
  destruct Hupd as [Hattrs Hlen].
  assert (Hstale : bm25_stale (update g i mo adds rems).1 = false).
  { unfold bm25_stale in *. by rewrite Hattrs, Hlen. }
  split; [done |]. split.
  - unfold bm25_search. rewrite Hstale, Hfresh, Hattrs. by destruct (bm25_attrs g).
  - intros Hkey Hnone.
    assert (Hw : bm25_attrs (write g m c uuid).1 = bm25_attrs g
                 ∧ length (nodes (write g m c uuid).1) = S (length (nodes g))).
    { rewrite write_eq, (add_node_fresh _ _ _ Hkey). cbn [fst snd].
      set (g1 := mkGraph _ _ _).
      assert (Hg1 : length (nodes g1) = S (length (nodes g))).
      { unfold g1. cbn [nodes]. rewrite (PyDictFacts.set_absent _ _ _ Hnone), length_app.
        cbn. lia. }
      destruct c as [targets|]; [|done]. split.
      - destruct (get_node g1 uuid) as [src|] eqn:Ha; [|by rewrite connect_all_absent].
        by rewrite (connect_all_present targets g1 uuid src Ha).
      - rewrite <-Hg1, <-!(length_fmap fst). fold (PyDict.keys (nodes g1)).
        fold (PyDict.keys (nodes (connect_all g1 uuid targets))).
        by rewrite connect_all_keys. }
    destruct Hw as [Hwa Hwl]. unfold bm25_stale in *. rewrite Hwa, Hwl.
    destruct (bm25_attrs g) as [a|]; [|done]. destruct (bm25 a); [|done].
    apply negb_false_iff, Nat.eqb_eq in Hfresh. rewrite Hfresh.
    apply negb_true_iff, Nat.eqb_neq. lia.
Qed.

Lemma index_follows_node_count_witness :
  (bm25_search (providers := example_providers)
     (update graph_AB_indexed "x" (Some (MetaStr "B B")) None None).1 "b" 1).2
  = (bm25_search (providers := example_providers) graph_AB_indexed "b" 1).2
  ∧ bm25_stale (write graph_AB_indexed (MetaStr "C") None "z").1 = true.
Proof.
  destruct (index_follows_node_count (providers := example_providers)
              graph_AB_indexed "b" 1 "x" "z" (Some (MetaStr "B B")) (MetaStr "C")
              None None None) as (_ & Hsame & Hstale); [reflexivity |].
  split; [exact Hsame |]. apply Hstale; reflexivity.
Defined.

(** X18. A rebuilt lexical index covers the whole graph: on a graph
    whose index is stale, whose texts are strings and whose corpus the
    scorer accepts, a lexical query with [top_k] at least the number of
    nodes returns every node id exactly once. *)
Theorem bm25_search_whole_corpus {providers : Providers}
    (g : MemoryGraph) (q : string) (k : Z) :
  bm25_stale g = true → texts_are_str g → bm25_fits (current_corpus g) = true →
  0 < k → (length (nodes g) ≤ Z.to_nat k)%nat →
  ∃ ids, (bm25_search g q k).2 = Ok ids ∧ ids ≡ₚ PyDict.keys (nodes g).
Proof.
  intros Hstale Htxt Hfit Hk Hlen.
  assert (Hready : index_ready g) by (unfold index_ready; by rewrite Hstale).
  destruct (bm25_search_ok g q k Hready) as (g' & ids & Hsearch & _ & Hmap & _).
  pose proof (bm25_search_rebuild g q k Hstale Htxt Hfit) as Hattrs.
  rewrite Hsearch in Hattrs. cbn [fst] in Hattrs.
  exists ids. rewrite Hsearch. split; [done |].
  unfold index_ids, index_scores in Hmap. rewrite Hattrs in Hmap. cbn [id_list bm25] in Hmap.
  set (scores := map _ (current_corpus g)) in Hmap.
  assert (Hn : length scores = length (PyDict.keys (nodes g))).
  { unfold scores, current_corpus, PyDict.keys, PyDict.values.
    by rewrite ?length_map, ?length_fmap. }
  rewrite slice_from_positive, argsort_length in Hmap by done.
  replace (length scores - Z.to_nat k)%nat with 0%nat in Hmap
    by (rewrite Hn; unfold PyDict.keys; rewrite ?length_fmap; lia).
  rewrite drop_0 in Hmap.
  rewrite <-(omap_Some ids), <-(omap_Some (PyDict.keys (nodes g))), Hmap.
  apply omap_Permutation. rewrite <-lookups_seq, <-Hn. apply fmap_Permutation.
  apply argsort_perm.
Qed.

Lemma bm25_search_whole_corpus_witness :
  ∃ ids, (bm25_search (providers := example_providers) graph_AB "b" 2).2 = Ok ids
         ∧ ids ≡ₚ ["x"; "y"].
Proof.
  apply (bm25_search_whole_corpus (providers := example_providers) graph_AB "b" 2).
  - reflexivity.
  - destruct graph_AB_searchable as (Htxt & _). exact Htxt.
  - reflexivity.
  - lia.
  - vm_compute. lia.
Defined.

(** ** The tokenizer *)

Lemma str_forall_app P s1 s2 :
  str_forall P (s1 +:+ s2) = str_forall P s1 && str_forall P s2.
Proof.
  induction s1 as [|c s1 IH]; [done |]. simpl.
  by rewrite IH, andb_assoc.
Qed.

Lemma lower_char_not_upper c :
  is_upper (if is_upper c then ascii_of_nat (Ascii.nat_of_ascii c + 32) else c) = false.
Proof. by destruct c as [[] [] [] [] [] [] [] []]. Qed.

Lemma str_lower_not_upper s : str_forall (λ c, negb (is_upper c)) (str_lower s) = true.
Proof.
  induction s as [|c s IH]; [done |]. cbn [str_lower str_forall].
  by rewrite lower_char_not_upper, IH.
Qed.

Lemma str_lower_fixed s :
  str_forall (λ c, negb (is_upper c)) s = true → str_lower s = s.
Proof.
  induction s as [|c s IH]; [done |]. cbn [str_lower str_forall].
  intros [Hc Hs]%andb_true_iff. rewrite (IH Hs).
  apply negb_true_iff in Hc. by rewrite Hc.
Qed.

Lemma findall_words_tokens s : ∀ cur t,
  str_forall is_token_char cur = true →
  str_forall (λ c, negb (is_upper c)) s = true →
  t ∈ findall_words cur s → t ≠ "" ∧ str_forall is_token_char t = true.
Proof.
  induction s as [|c s IH]; intros cur t Hcur Hs; cbn [findall_words].
  - destruct cur as [|c0 cur]; cbn [str_truthy]; [by intros Ht%elem_of_nil |].
    by intros ->%list_elem_of_singleton.
  - cbn [str_forall] in Hs. apply andb_true_iff in Hs as [Hc Hs].
    destruct (is_word_char c) eqn:Hw.
    + apply IH; [|done]. rewrite str_forall_app, Hcur. cbn [str_forall].
      unfold is_token_char. by rewrite Hw, Hc.
    + destruct cur as [|c0 cur]; cbn [str_truthy]; [by apply IH |].
      intros [->|Ht]%elem_of_cons; [done | by apply (IH "")].
Qed.

(** X19. Tokens are what the pattern [\w+] finds in the lower-cased
    text (ASCII): no token is empty, every token is made of digits,
    lower-case letters and underscores, and the letter case of the text
    does not matter. *)
Theorem tokenize_tokens (s : string) :
  tokenize (str_lower s) = tokenize s
  ∧ ∀ t, t ∈ tokenize s → t ≠ "" ∧ str_forall is_token_char t = true.
Proof.
  split.
  - unfold tokenize. by rewrite (str_lower_fixed _ (str_lower_not_upper s)).
  - intros t. apply findall_words_tokens; [done | apply str_lower_not_upper].
Qed.

Lemma tokenize_tokens_witness :
  tokenize (str_lower "Main character: John_Smith 42!")
  = tokenize "Main character: John_Smith 42!"
  ∧ "john_smith" ≠ "" ∧ str_forall is_token_char "john_smith" = true.
Proof.
  destruct (tokenize_tokens "Main character: John_Smith 42!") as [Hcase Htok].
  split; [exact Hcase |]. apply Htok. vm_compute.
  do 2 apply list_elem_of_further. apply list_elem_of_here.
Defined.

(** ** The read tool and the write tool *)

Lemma length_substring (s : string) : ∀ n m, (String.length (String.substring n m s) ≤ m)%nat.
Proof.
  induction s as [|c s IH]; intros n m.
  - destruct n, m; cbn; lia.
  - destruct n as [|n].
    + destruct m as [|m]; cbn; [lia |]. specialize (IH 0%nat m). lia.
    + cbn. apply IH.
Qed.

Lemma substring_beyond (s : string) : ∀ n m,
  (String.length s ≤ n)%nat → String.substring n m s = "".
Proof.
  induction s as [|c s IH]; intros n m Hn.
  - by destruct n, m.
  - destruct n as [|n]; cbn in *; [lia |]. apply IH. lia.
Qed.

(** X20. A read within its limits returns the part of the file that
    starts at [position] and has at most [max_bytes] characters (the
    empty text when [position] is at or past the end), at most [MB] of
    them, and counts one call; the files are not changed. The limits:
    a known file, fewer than [N] calls so far, [position >= 0] and
    [0 <= max_bytes <= MB]. *)
Theorem custom_read_within_limits
    (env : MemoryToolEnv) (file_path content : string) (c : Counters)
    (position max_bytes : Z) :
  PyDict.get (files env) file_path = Some content →
  PyDict.get (counter env) file_path = Some c →
  c_read c < env_N env → 0 ≤ position → 0 ≤ max_bytes ≤ env_MB env →
  ∃ env' text,
    custom_read env file_path position max_bytes = (env', Ok text)
    ∧ text = String.substring (Z.to_nat position) (Z.to_nat max_bytes) content
    ∧ Z.of_nat (String.length text) ≤ max_bytes
    ∧ (Z.of_nat (String.length content) ≤ position → text = "")
    ∧ files env' = files env
    ∧ c_read <$> PyDict.get (counter env') file_path = Some (c_read c + 1).
Proof.
  intros Hfile Hcount Hn Hpos [Hmb0 Hmb]. unfold custom_read.
  rewrite Hfile, Hcount. rewrite !bool_decide_eq_false_2 by lia.
  eexists _, _. split; [done |]. split; [done |]. split; [|split; [|split]].
  - pose proof (length_substring content (Z.to_nat position) (Z.to_nat max_bytes)). lia.
  - intros Hend. apply substring_beyond. lia.
  - done.
  - cbn [set_counter counter]. by rewrite PyDictFacts.get_set_eq.
Qed.

Lemma custom_read_within_limits_witness :
  ∃ env', custom_read example_env "doc" 6 8 = (env', Ok "world").
Proof.
  destruct (custom_read_within_limits example_env "doc" "hello world"
              (mkCounters 0 0 0 0) 6 8) as (env' & text & Hr & -> & _).
  - reflexivity.
  - reflexivity.
  - reflexivity.
  - lia.
  - cbn. lia.
  - exists env'. exact Hr.
Defined.

(** X21. Reads are counted before their arguments are checked. On a
    known file with fewer than [N] calls so far, any call counts as
    one, also a call turned down for its [position] or [max_bytes];
    once [N] calls are counted every call is turned down and nothing
    changes. So the count never passes [N], and the files never
    change. *)
Theorem custom_read_quota
    (env : MemoryToolEnv) (file_path content : string) (c : Counters)
    (position max_bytes : Z) :
  PyDict.get (files env) file_path = Some content →
  PyDict.get (counter env) file_path = Some c →
  (env_N env ≤ c_read c →
   custom_read env file_path position max_bytes
   = (env, Ok "Error: read() calls exceeded."))
  ∧ (c_read c < env_N env →
     c_read <$> PyDict.get (counter (custom_read env file_path position max_bytes).1)
                           file_path
     = Some (c_read c + 1))
  ∧ (c_read c ≤ env_N env →
     ∃ c', PyDict.get (counter (custom_read env file_path position max_bytes).1) file_path
           = Some c' ∧ c_read c' ≤ env_N env)
  ∧ files (custom_read env file_path position max_bytes).1 = files env.
Proof.
  intros Hfile Hcount. unfold custom_read. rewrite Hfile, Hcount.
  split; [by intros Hn; rewrite bool_decide_eq_true_2 |].
  split; [|split].
  - intros Hn. rewrite bool_decide_eq_false_2 by lia.
    repeat case_bool_decide; cbn [fst set_counter counter];
      by rewrite PyDictFacts.get_set_eq.
  - intros Hn. case_bool_decide as Hfull; [exists c; cbn [fst]; by rewrite Hcount |].
    exists (bump_read c).
    repeat case_bool_decide; cbn [fst set_counter counter bump_read c_read];
      rewrite PyDictFacts.get_set_eq; (split; [done | lia]).
  - repeat case_bool_decide; done.
Qed.

Lemma custom_read_quota_witness :
  c_read <$> PyDict.get (counter (custom_read example_env "doc" 0 99).1) "doc" = Some 1
  ∧ (custom_read example_env "doc" 0 99).2
    = Ok "Error: max_bytes exceeds limit. Should be lower than 8.".
Proof.
  destruct (custom_read_quota example_env "doc" "hello world" (mkCounters 0 0 0 0) 0 99)
    as (_ & Hcount & _); [reflexivity | reflexivity |].
  split; [apply Hcount; reflexivity | reflexivity].
Defined.

Section WriteQuota.
Import PyDict PyDictFacts.

Lemma get_current_file_set_counter env cf c :
  is_Some (get (counter env) cf) →
  _get_current_file (set_counter env (set (counter env) cf c)) = _get_current_file env.
Proof.
  intros Hcf. unfold _get_current_file. cbn [set_counter conversation_mode
    conversation_id current_episode counter files].
  destruct (conversation_mode env); [done |]. destruct (current_episode env); [|done].
  do 2 f_equal. apply list_filter_iff. intros fp. by rewrite mem_set_present.
Qed.

Lemma length_set_le {V} (d : t V) k v : (length (set d k v) ≤ S (length d))%nat.
Proof. induction d as [|[k0 v0] d IH]; cbn [set]; [done |]. case_bool_decide; cbn; lia. Qed.

Lemma write_length g m c uuid :
  (length (nodes (write g m c uuid).1) ≤ S (length (nodes g)))%nat.
Proof.
  rewrite write_eq. cbn [fst].
  assert (Hadd : (length (nodes (add_node g m uuid).1) ≤ S (length (nodes g)))%nat).
  { unfold add_node. destruct (content_hash_to_id_map g !! _get_hash m); cbn [fst];
      [lia | apply length_set_le]. }
  destruct c as [targets|]; [|done].
  rewrite <-(length_fmap fst (nodes (connect_all _ _ _))).
  fold (keys (nodes (connect_all (add_node g m uuid).1 (add_node g m uuid).2 targets))).
  rewrite connect_all_keys. unfold keys. by rewrite length_fmap.
Qed.

Lemma write_keys_prefix g m c uuid :
  keys (nodes g) `prefix_of` keys (nodes (write g m c uuid).1).
Proof.
  rewrite write_eq. cbn [fst].
  destruct c; [rewrite connect_all_keys |]; apply add_node_keys_prefix.
Qed.

(** One call of the write tool uses up an allowed call whenever it
    reaches the graph. *)
Lemma custom_memory_write_step env g m c uuid :
  Z.of_nat (length (nodes (custom_memory_write env g m c uuid).1.2))
    + writes_left (custom_memory_write env g m c uuid).1.1
  ≤ Z.of_nat (length (nodes g)) + writes_left env
  ∧ keys (nodes g) `prefix_of` keys (nodes (custom_memory_write env g m c uuid).1.2).
Proof.
  unfold custom_memory_write, writes_left.
  destruct (_get_current_file env) as [[cf|]|] eqn:Hcf; cbn [fst snd]; rewrite ?Hcf;
    [|done | done].
  destruct (str_truthy cf); cbn [negb fst snd]; rewrite ?Hcf; [|done].
  destruct (get (counter env) cf) as [cnt|] eqn:Hcnt; cbn [fst snd];
    rewrite ?Hcf, ?Hcnt; [|done].
  case_bool_decide as Hfull; cbn [fst snd]; rewrite ?Hcf, ?Hcnt; [done |].
  pose proof (write_length g m c uuid) as Hlen.
  pose proof (write_keys_prefix g m c uuid) as Hpre.
  destruct (write g m c uuid) as [g1 node_id]. cbn [fst snd] in *.
  rewrite get_current_file_set_counter, Hcf by (by rewrite Hcnt).
  cbn [set_counter counter env_M]. rewrite get_set_eq. cbn [bump_memory_write c_memory_write].
  split; [lia | done].
Qed.

End WriteQuota.

(** X22. The write quota bounds the growth of the graph: over any run
    of calls of the write tool, the graph gains at most as many nodes
    as there were write calls left for the current file, and none when
    there is no current file; the nodes it had stay first and in
    order. *)
Theorem memory_write_calls_quota
    (calls : list (py_metadata * option (list string) * string))
    (env : MemoryToolEnv) (g : MemoryGraph) :
  Z.of_nat (length (nodes (memory_write_calls env g calls).2))
  ≤ Z.of_nat (length (nodes g)) + writes_left env
  ∧ PyDict.keys (nodes g) `prefix_of` PyDict.keys (nodes (memory_write_calls env g calls).2).
Proof.
  revert env g. induction calls as [|[[m c] uuid] calls IH]; intros env g.
  - cbn. split; [|done].
    assert (0 ≤ writes_left env); [|lia]. unfold writes_left.
    destruct (_get_current_file env) as [[cf|]|]; [|done | done].
    destruct (PyDict.get (counter env) cf); [lia | done].
  - unfold memory_write_calls. cbn [foldl fst snd].
    destruct (custom_memory_write_step env g m c uuid) as [Hstep Hpre].
    destruct (custom_memory_write env g m c uuid) as [[env1 g1] reply]. cbn [fst snd] in *.
    fold (memory_write_calls env1 g1 calls).
    destruct (IH env1 g1) as [Hlen Hpre1]. split; [lia | by etrans].
Qed.

(** ** The text memory *)

Lemma length_list_ascii_of_string s :
  length (String.list_ascii_of_string s) = String.length s.
Proof. induction s as [|c s IH]; [done |]. cbn. by rewrite IH. Qed.

Lemma length_string_of_list_ascii l :
  String.length (String.string_of_list_ascii l) = length l.
Proof. induction l as [|c l IH]; [done |]. cbn. by rewrite IH. Qed.

Lemma string_of_list_ascii_app l1 l2 :
  String.string_of_list_ascii (l1 ++ l2)
  = String.string_of_list_ascii l1 +:+ String.string_of_list_ascii l2.
Proof. induction l1 as [|c l1 IH]; [done |]. cbn. by rewrite IH. Qed.

Lemma str_slice_from_suffix s i :
  ∃ n, str_slice_from s i
       = String.string_of_list_ascii (drop n (String.list_ascii_of_string s))
       ∧ s = String.string_of_list_ascii (take n (String.list_ascii_of_string s))
             +:+ str_slice_from s i
       ∧ n = if bool_decide (0 ≤ i) then Z.to_nat i
             else (String.length s - Z.to_nat (- i))%nat.
Proof.
  unfold str_slice_from, slice_from. rewrite length_list_ascii_of_string.
  exists (if bool_decide (0 ≤ i) then Z.to_nat i
          else (String.length s - Z.to_nat (- i))%nat).
  split; [by case_bool_decide |]. split; [|done].
  case_bool_decide; by rewrite <-string_of_list_ascii_app, take_drop,
    String.string_of_list_ascii_of_string.
Qed.

Lemma handle_memory_write_known env args fp text old :
  PyDict.get args "file_path" = Some (PyStr fp) →
  PyDict.get args "memoir" = Some (PyStr text) →
  PyDict.get (memories env) fp = Some old →
  handle_memory_write env args
  = (mkMemoryEnv
       (PyDict.set (memories env) fp
          (if bool_decide (MM env < Z.of_nat (String.length (old +:+ text)))
           then str_slice_from (old +:+ text) (- MM env)
           else old +:+ text))
       (MM env),
     Ok ("Wrote " +:+ pretty (Z.of_nat (String.length text)) +:+ " chars to memory.")).
Proof.
  intros Hfp Hmemoir Hold. unfold handle_memory_write.
  rewrite Hfp, Hmemoir. simpl. by rewrite Hold.
Qed.

Lemma handle_memory_read_known env args fp :
  PyDict.get args "file_path" = Some (PyStr fp) →
  handle_memory_read env args = of_option (PyDict.get (memories env) fp).
Proof. intros Hfp. unfold handle_memory_read. by rewrite Hfp. Qed.

(** X23. The text memory keeps the end of what was written. A
    [memory_write] for a known file appends the memoir and then keeps
    a tail of the result, which [memory_read] returns: the whole text
    when it has at most [MM] characters, otherwise, for a positive
    [MM], its last [MM] characters, so the memory never holds more
    than [MM] characters; with [MM = 0] nothing is cut. The reply tells
    the length of the memoir, and the memories of other files are left
    alone. *)
Theorem handle_memory_write_keeps_tail
    (env : MemoryEnv) (args : PyDict.t py_value) (fp text old : string) :
  PyDict.get args "file_path" = Some (PyStr fp) →
  PyDict.get args "memoir" = Some (PyStr text) →
  PyDict.get (memories env) fp = Some old →
  ∃ env' kept dropped,
    handle_memory_write env args
    = (env', Ok ("Wrote " +:+ pretty (Z.of_nat (String.length text))
                 +:+ " chars to memory."))
    ∧ handle_memory_read env' args = Ok kept
    ∧ old +:+ text = dropped +:+ kept
    ∧ (0 < MM env → Z.of_nat (String.length kept) ≤ MM env)
    ∧ (0 < MM env → MM env < Z.of_nat (String.length (old +:+ text)) →
       Z.of_nat (String.length kept) = MM env)
    ∧ (Z.of_nat (String.length (old +:+ text)) ≤ MM env ∨ MM env = 0 →
       kept = old +:+ text)
    ∧ MM env' = MM env
    ∧ ∀ other, other ≠ fp →
               PyDict.get (memories env') other = PyDict.get (memories env) other.
Proof.
  intros Hfp Hmemoir Hold.
  rewrite (handle_memory_write_known env args fp text old Hfp Hmemoir Hold).
  set (grown := old +:+ text).
  destruct (str_slice_from_suffix grown (- MM env)) as (n & Hslice & Hsplit & Hn).
  destruct (decide (MM env < Z.of_nat (String.length grown))) as [Hlong|Hlong].
  - rewrite (bool_decide_eq_true_2 _ Hlong).
    eexists _, (str_slice_from grown (- MM env)), _. split; [done |].
    rewrite (handle_memory_read_known _ args fp Hfp).
    cbn [memories MM]. rewrite PyDictFacts.get_set_eq. split; [done |].
    split; [exact Hsplit |].
    assert (Hlen : String.length (str_slice_from grown (- MM env))
                   = (String.length grown - n)%nat).
    { by rewrite Hslice, length_string_of_list_ascii, length_drop,
        length_list_ascii_of_string. }
    split; [|split; [|split; [|split]]].
    + intros Hpos. rewrite Hlen, Hn. rewrite bool_decide_eq_false_2 by lia. lia.
    + intros Hpos _. rewrite Hlen, Hn. rewrite bool_decide_eq_false_2 by lia. lia.
    + intros [Hshort|Hzero]; [lia |]. rewrite Hslice, Hn, Hzero.
      rewrite bool_decide_eq_true_2 by done. cbn [Z.opp Z.to_nat drop].
      apply String.string_of_list_ascii_of_string.
    + done.
    + intros other Hne. by apply PyDictFacts.get_set_ne.
  - rewrite (bool_decide_eq_false_2 _ Hlong).
    exists (mkMemoryEnv (PyDict.set (memories env) fp grown) (MM env)), grown, "".
    split; [done |]. rewrite (handle_memory_read_known _ args fp Hfp).
    cbn [memories MM]. rewrite PyDictFacts.get_set_eq.
    split; [done |]. split; [done |]. split; [lia |]. split; [lia |].
    split; [done |]. split; [done |]. intros other Hne. by apply PyDictFacts.get_set_ne.
Qed.

Lemma handle_memory_write_keeps_tail_witness :
  ∃ env' kept,
    (handle_memory_write (mkMemoryEnv [("doc", "abc")] 4)
       [("memoir", PyStr "defg"); ("file_path", PyStr "doc")]).1 = env'
    ∧ handle_memory_read env' [("memoir", PyStr "defg"); ("file_path", PyStr "doc")]
      = Ok kept
    ∧ Z.of_nat (String.length kept) ≤ 4.
Proof.
  destruct (handle_memory_write_keeps_tail (mkMemoryEnv [("doc", "abc")] 4)
              [("memoir", PyStr "defg"); ("file_path", PyStr "doc")] "doc" "defg" "abc")
    as (env' & kept & dropped & Hw & Hr & _ & Hlen & _);
    [reflexivity | reflexivity | reflexivity |].
  exists env', kept. split; [by rewrite Hw |]. split; [exact Hr |].
  apply Hlen. reflexivity.
Defined.
